(** * A shallow embedding of the YAML node tree, alias resolution, flow
      composition and collection stringification

    The development follows the TypeScript sources file by file:

    - [JS]        the host values the code inspects (their kind, truthiness);
    - [Nodes]     nodes/Node.js: the node variants and their discriminators;
    - [Visit]     visit.js: the document walk used by [Alias.resolve];
    - [Alias]     nodes/Alias.ts;
    - [YAMLSeq]   nodes/YAMLSeq.ts;
    - [Compose]   compose/resolve-flow-collection.ts;
    - [PublicApi] public-api.ts ([parseDocument]);
    - [Stringify] stringify/stringifyCollection.ts;
    - [Order]     document order, in which the statements about aliases are
                  phrased;
    - [Sample]    small documents and token streams to run the code on.

    Objects are compared by identity in the source ([node === this], a [Map]
    keyed by node): every node carries the address of the object it stands
    for, and two occurrences with one address are one object. *)

From Stdlib Require Import Ascii.
From stdpp Require Import base numbers option list gmap strings.

(** ** Host values *)

Module JS.

(** A JavaScript [number], classified by what the code observes of it:
    [Number.isInteger], the sign, and use as an array index.  [-0] is the
    integer [0] (it indexes the same element and is [>= 0]). *)
Inductive number :=
| Int (z : Z)
| Fraction (num : Z) (den : positive)   (* a finite number that is no integer *)
| NaN
| Infinity (negative : bool).

Inductive value :=
| undefined
| null
| boolean (b : bool)
| num (n : number)
| str (s : string)
| object (ref : nat).                   (* any other object, by identity *)

#[global] Instance number_eq_dec : EqDecision number.
Proof. solve_decision. Defined.
#[global] Instance value_eq_dec : EqDecision value.
Proof. solve_decision. Defined.

(** ToBoolean *)
Definition truthy (v : value) : bool :=
  match v with
  | undefined | null => false
  | boolean b => b
  | num (Int z) => negb (z =? 0)%Z
  | num NaN => false
  | num _ => true
  | str s => negb (String.eqb s "")
  | object _ => true
  end.

(** Arithmetic on integers held in a [number]: the exact result is
    rounded to the nearest double, which keeps every integer of at most 53
    bits and rounds a longer one to 53 significant bits, a tie going to the
    even one.  ([2^53 + 1] becomes [2^53]: a count that has reached [2^53]
    stays there.) *)
Definition double (z : Z) : Z :=
  let e := (Z.log2 (Z.abs z) - 52)%Z in
  if (e <=? 0)%Z then z
  else
    let u := (2 ^ e)%Z in
    let q := (z / u)%Z in
    let r := (z mod u)%Z in
    if (2 * r <? u)%Z then (q * u)%Z
    else if (u <? 2 * r)%Z then ((q + 1) * u)%Z
    else if Z.even q then (q * u)%Z else ((q + 1) * u)%Z.

(** What a method call can throw. *)
Inductive thrown :=
| ReferenceError (msg : string)
| Error (msg : string).

End JS.

(** ** nodes/Node.js *)

Module Nodes.

(** The fields of [NodeBase]; [addr] is the identity of the object. *)
Record NodeBase := mkBase {
  addr : nat;
  tag : option string;
  comment : option string;
  commentBefore : option string;
  spaceBefore : bool;
  range : option (Z * Z)
}.

Record AliasT := mkAlias { alias_base : NodeBase; source : string }.

(** Everything that can sit in a tree: the four node classes, [Pair], and
    plain host values ([items: unknown[]], [key: unknown]; a missing key or
    value of a pair is [Value JS.null]). *)
#[local] Unset Elimination Schemes.
Inductive Tree :=
| Scalar (base : NodeBase) (anchor : option string) (value : JS.value)
| YAMLMap (base : NodeBase) (anchor : option string) (flow : bool) (items : list Tree)
| YAMLSeq (base : NodeBase) (anchor : option string) (flow : bool) (items : list Tree)
| Alias (a : AliasT)
| Pair (base : NodeBase) (key value : Tree)
| Value (v : JS.value).
#[local] Set Elimination Schemes.

Section Tree_induction.
Variable P : Tree → Prop.
Hypothesis HScalar : ∀ b a v, P (Scalar b a v).
Hypothesis HMap : ∀ b a f items, Forall P items → P (YAMLMap b a f items).
Hypothesis HSeq : ∀ b a f items, Forall P items → P (YAMLSeq b a f items).
Hypothesis HAlias : ∀ a, P (Alias a).
Hypothesis HPair : ∀ b k v, P k → P v → P (Pair b k v).
Hypothesis HValue : ∀ v, P (Value v).

Fixpoint Tree_nested_ind (t : Tree) : P t :=
  let fix all (l : list Tree) : Forall P l :=
    match l with
    | [] => Forall_nil_2 P
    | x :: l' => Forall_cons_2 P x l' (Tree_nested_ind x) (all l')
    end in
  match t with
  | Scalar b a v => HScalar b a v
  | YAMLMap b a f items => HMap b a f items (all items)
  | YAMLSeq b a f items => HSeq b a f items (all items)
  | Alias a => HAlias a
  | Pair b k v => HPair b k v (Tree_nested_ind k) (Tree_nested_ind v)
  | Value v => HValue v
  end.
End Tree_induction.

Definition isScalar (t : Tree) : bool :=
  match t with Scalar _ _ _ => true | _ => false end.
Definition isMap (t : Tree) : bool :=
  match t with YAMLMap _ _ _ _ => true | _ => false end.
Definition isSeq (t : Tree) : bool :=
  match t with YAMLSeq _ _ _ _ => true | _ => false end.
Definition isAlias (t : Tree) : bool :=
  match t with Alias _ => true | _ => false end.
Definition isPair (t : Tree) : bool :=
  match t with Pair _ _ _ => true | _ => false end.
Definition isCollection (t : Tree) : bool := isMap t || isSeq t.
Definition isNode (t : Tree) : bool :=
  isScalar t || isMap t || isSeq t || isAlias t.

(** [t.base], for the objects that have one. *)
Definition baseOf (t : Tree) : option NodeBase :=
  match t with
  | Scalar b _ _ | YAMLMap b _ _ _ | YAMLSeq b _ _ _ | Pair b _ _ => Some b
  | Alias a => Some (alias_base a)
  | Value _ => None
  end.

(** [t.anchor]; an alias declares [anchor?: never]. *)
Definition anchorOf (t : Tree) : option string :=
  match t with
  | Scalar _ a _ | YAMLMap _ a _ _ | YAMLSeq _ a _ _ => a
  | _ => None
  end.

(** [t.comment] and [t.commentBefore] read as properties of any value:
    [undefined] on a primitive. *)
Definition commentOf (t : Tree) : option string := baseOf t ≫= comment.
Definition commentBeforeOf (t : Tree) : option string := baseOf t ≫= commentBefore.
Definition spaceBeforeOf (t : Tree) : bool :=
  match baseOf t with Some b => spaceBefore b | None => false end.

(** Truthiness of an optional string property ([''] is falsy). *)
Definition truthyStr (s : option string) : bool :=
  match s with Some s => negb (String.eqb s "") | None => false end.

(** Truthiness of a tree position: objects are truthy. *)
Definition truthy (t : Tree) : bool :=
  match t with Value v => JS.truthy v | _ => true end.

(** [a === b] between a tree position and an object with base [b]. *)
Definition sameObject (t : Tree) (b : NodeBase) : bool :=
  match baseOf t with Some b' => Nat.eqb (addr b') (addr b) | None => false end.

Record DocOptions := mkDocOptions { logLevel : string }.

Inductive ErrorCode :=
| MULTIPLE_DOCS | MULTIPLE_ANCHORS | MULTIPLE_TAGS | TAG_RESOLVE_FAILED
| MISSING_CHAR | UNEXPECTED_TOKEN | BLOCK_IN_FLOW | BLOCK_AS_IMPLICIT_KEY
| MULTILINE_IMPLICIT_KEY | KEY_OVER_1024_CHARS | COMMENT_SPACE
| PROP_BEFORE_SEP | IMPOSSIBLE.

Record YAMLParseError := mkError {
  pos : Z;
  code : ErrorCode;
  message : string
}.

Record Document := mkDocument {
  contents : Tree;
  errors : list YAMLParseError;
  warnings : list YAMLParseError;
  doc_range : Z * Z;
  options : DocOptions
}.

End Nodes.

Import Nodes.

(** ** visit.js *)

Module Visit.

(** What the visitor callback returns: nothing, or [visit.BREAK]. *)
Inductive Control := Continue | BREAK.

Section visit.
Context {S : Type}.
(** The [Node] visitor, closed over a state of type [S]. *)
Variable Node : Tree → S → Control * S.

(** Modelled from the spec: visit.js, whose code is not embedded here.
    The walk of a document "in source order" that [Alias.resolve] relies
    on: a node is visited before its children, the items of a collection
    in order, the key of a pair before its value; the [Node] visitor is
    called on nodes (not on pairs or plain values), and [BREAK] ends the
    whole walk. *)
Fixpoint visit_ (node : Tree) (s : S) : Control * S :=
  let fix each (l : list Tree) (s : S) : Control * S :=
    match l with
    | [] => (Continue, s)
    | item :: l' =>
        match visit_ item s with
        | (BREAK, s') => (BREAK, s')
        | (Continue, s') => each l' s'
        end
    end in
  match node with
  | Scalar _ _ _ | Alias _ => Node node s
  | YAMLMap _ _ _ items | YAMLSeq _ _ _ items =>
      match Node node s with
      | (BREAK, s') => (BREAK, s')
      | (Continue, s') => each items s'
      end
  | Pair _ k v =>
      match visit_ k s with
      | (BREAK, s') => (BREAK, s')
      | (Continue, s') => visit_ v s'
      end
  | Value _ => (Continue, s)
  end.

Definition visit (doc : Document) (s : S) : S := snd (visit_ (contents doc) s).

(** The same walk over an explicit list of nodes. *)
Fixpoint run (l : list Tree) (s : S) : Control * S :=
  match l with
  | [] => (Continue, s)
  | n :: l' =>
      match Node n s with
      | (BREAK, s') => (BREAK, s')
      | (Continue, s') => run l' s'
      end
  end.
End visit.

(** The nodes of a tree in document order. *)
Fixpoint nodesOf (t : Tree) : list Tree :=
  let fix each (l : list Tree) : list Tree :=
    match l with
    | [] => []
    | item :: l' => nodesOf item ++ each l'
    end in
  match t with
  | Scalar _ _ _ | Alias _ => [t]
  | YAMLMap _ _ _ items | YAMLSeq _ _ _ items => t :: each items
  | Pair _ k v => nodesOf k ++ nodesOf v
  | Value _ => []
  end.

End Visit.

(** ** stringify/stringify.ts (types only) *)

Module StringifyTypes.

(** The fields of [StringifyContext] read by [Alias.toString] and
    [stringifyCollection]; [anchors] is the set of anchor names already
    emitted. *)
Record StringifyContext := mkSCtx {
  anchors : gset string;
  implicitKey : bool;
  indent : string;
  indentStep : string;
  inFlow : bool;
  type : option string;
  verifyAliasOrder : bool          (* ctx.options.verifyAliasOrder *)
}.

End StringifyTypes.

(** ** nodes/Alias.ts *)

Module Alias.

(** An entry of [ToJSContext.anchors].  Its two numbers are integers held
    in doubles: what is computed from them goes through [JS.double]. *)
Record AnchorData := mkData {
  aliasCount : Z;
  count : Z;
  res : JS.value
}.

(** The fields of [ToJSContext] that [Alias] reads.  [anchors] is a [Map]
    keyed by node objects, here by their addresses; [maxAliasCount] is taken
    to be an integer. *)
Record ToJSContext := mkToJS {
  anchors : gmap nat AnchorData;
  doc : Document;
  maxAliasCount : Z
}.

(** [anchors.get(node)] *)
Definition anchorsGet (m : gmap nat AnchorData) (node : Tree) : option AnchorData :=
  b ← baseOf node; m !! addr b.

(** [anchors.get(node)] after an assignment to a field of that entry. *)
Definition anchorsPut (m : gmap nat AnchorData) (node : Tree) (d : AnchorData)
  : gmap nat AnchorData :=
  match baseOf node with Some b => <[addr b := d]> m | None => m end.

(** The [Node] visitor of [resolve]; its state is the variable [found]. *)
Definition resolveVisitor (this : AliasT) (node : Tree) (found : option Tree)
  : Visit.Control * option Tree :=
  if sameObject node (alias_base this) then (Visit.BREAK, found)
  else if bool_decide (anchorOf node = Some (source this))
       then (Visit.Continue, Some node)
       else (Visit.Continue, found).

Definition resolve (this : AliasT) (doc : Document) : option Tree :=
  Visit.visit (resolveVisitor this) doc None.

Fixpoint getAliasCount (doc : Document) (node : Tree) (anchors : gmap nat AnchorData) : Z :=
  let fix each (items : list Tree) (count : Z) : Z :=
    match items with
    | [] => count
    | item :: items' =>
        let c := getAliasCount doc item anchors in
        each items' (if (c >? count)%Z then c else count)
    end in
  match node with
  | Alias a =>
      match resolve a doc ≫= anchorsGet anchors with
      | Some anchor => JS.double (count anchor * aliasCount anchor)
      | None => 0%Z
      end
  | YAMLMap _ _ _ items | YAMLSeq _ _ _ items => each items 0%Z
  | Pair _ k v =>
      let kc := getAliasCount doc k anchors in
      let vc := getAliasCount doc v anchors in
      Z.max kc vc
  | _ => 1%Z
  end.

(** Following the spec's words ("alias-subtree size"), the sizes of the
    leaves under a node: 1 for a scalar or any other value, and for an
    alias the count of references of its anchor multiplied by the size
    recorded for it, 0 when the anchor has no entry. *)
Fixpoint leafSizes (doc : Document) (anchors : gmap nat AnchorData) (t : Tree)
  : list Z :=
  match t with
  | Alias a =>
      [match resolve a doc ≫= anchorsGet anchors with
       | Some anchor => JS.double (count anchor * aliasCount anchor)
       | None => 0%Z
       end]
  | YAMLMap _ _ _ items | YAMLSeq _ _ _ items => flat_map (leafSizes doc anchors) items
  | Pair _ k v => leafSizes doc anchors k ++ leafSizes doc anchors v
  | _ => [1%Z]
  end.

(** A node without leaves: nothing but collections is under it (an empty
    collection, or one that holds only such collections). *)
Fixpoint hollow (t : Tree) : bool :=
  match t with
  | YAMLMap _ _ _ items | YAMLSeq _ _ _ items => forallb hollow items
  | Pair _ k v => hollow k && hollow v
  | _ => false
  end.

Definition unresolvedMsg (source : string) : string :=
  "Unresolved alias (the anchor must be set before the alias): " +:+ source.
Definition notResolvedMsg : string :=
  "This should not happen: Alias anchor was not resolved?".
Definition excessiveMsg : string :=
  "Excessive alias count indicates a resource exhaustion attack".

(** What [toJSON] returns: [{ source }] without a context, [data.res]
    with one. *)
Inductive Json :=
| SourceObject (source : string)
| Res (v : JS.value).

(** [toJSON] with the context after the call: [data.count] and
    [data.aliasCount] are assigned in place, also when the call throws. *)
Definition toJSON (this : AliasT) (ctx : option ToJSContext)
  : (JS.thrown + Json) * option ToJSContext :=
  match ctx with
  | None => (inr (SourceObject (source this)), None)
  | Some ctx =>
      match resolve this (doc ctx) with
      | None => (inl (JS.ReferenceError (unresolvedMsg (source this))), Some ctx)
      | Some source =>
          match anchorsGet (anchors ctx) source with
          | None => (inl (JS.ReferenceError notResolvedMsg), Some ctx)
          | Some data =>
              if bool_decide (res data = JS.undefined)
              then (inl (JS.ReferenceError notResolvedMsg), Some ctx)
              else if (maxAliasCount ctx >=? 0)%Z then
                let data1 :=
                  mkData (aliasCount data) (JS.double (count data + 1)) (res data) in
                let anchors1 := anchorsPut (anchors ctx) source data1 in
                let data2 :=
                  if (aliasCount data1 =? 0)%Z
                  then mkData (getAliasCount (doc ctx) source anchors1)
                              (count data1) (res data1)
                  else data1 in
                let ctx2 := mkToJS (anchorsPut anchors1 source data2)
                                   (doc ctx) (maxAliasCount ctx) in
                if (JS.double (count data2 * aliasCount data2) >? maxAliasCount ctx)%Z
                then (inl (JS.ReferenceError excessiveMsg), Some ctx2)
                else (inr (Res (res data2)), Some ctx2)
              else (inr (Res (res data)), Some ctx)
          end
      end
  end.

Section toString.
(** [anchorIsValid] of doc/anchors.js is a parameter: it
    returns, or throws what it throws. *)
Variable anchorIsValid : string → option JS.thrown.

Definition toString (this : AliasT) (ctx : option StringifyTypes.StringifyContext)
  : JS.thrown + string :=
  let src := "*" +:+ source this in
  match ctx with
  | Some ctx =>
      match anchorIsValid (source this) with
      | Some e => inl e
      | None =>
          if StringifyTypes.verifyAliasOrder ctx
             && negb (bool_decide (source this ∈ StringifyTypes.anchors ctx))
          then inl (JS.Error (unresolvedMsg (source this)))
          else if StringifyTypes.implicitKey ctx then inr (src +:+ " ")
          else inr src
      end
  | None => inr src
  end.
End toString.

End Alias.

(** ** nodes/YAMLSeq.ts *)

Module YAMLSeq.

(** [node.value = v] on the scalar object at address [a], as seen from a
    tree: the object may be held more than once and at any depth, and every
    place that holds it shows the new value. *)
Fixpoint assignValue (a : nat) (v : JS.value) (t : Tree) : Tree :=
  match t with
  | Scalar b anchor old => if Nat.eqb (addr b) a then Scalar b anchor v else t
  | YAMLMap b anchor fl items => YAMLMap b anchor fl (map (assignValue a v) items)
  | YAMLSeq b anchor fl items => YAMLSeq b anchor fl (map (assignValue a v) items)
  | Pair b k val => Pair b (assignValue a v k) (assignValue a v val)
  | Alias _ | Value _ => t
  end.

(** The scalar object at address [a] is held somewhere in the tree. *)
Fixpoint holds (a : nat) (t : Tree) : bool :=
  match t with
  | Scalar b _ _ => Nat.eqb (addr b) a
  | YAMLMap _ _ _ items | YAMLSeq _ _ _ items => existsb (holds a) items
  | Pair _ k val => holds a k || holds a val
  | Alias _ | Value _ => false
  end.

(** [this.items] after an assignment: its elements and, when the number
    assigned to is no array index, the plain property the array object got
    instead. *)
Record Assigned := mkAssigned {
  elements : list Tree;
  property : option (Z * Tree)
}.

(** The array indices are the integers from 0 to [2^32 - 2]. *)
Definition arrayIndex (idx : Z) : bool := (idx <? 2 ^ 32 - 1)%Z.

Section methods.
(** [Number(s)] on a string, a primitive of the host language. *)
Variable Number : string → JS.number.
(** [isScalarValue] of nodes/Scalar.js, and the text of a key inside a
    template string, as parameters. *)
Variable isScalarValue : Tree → bool.
Variable keyText : Tree → string.

Definition asItemIndex (key : Tree) : option Z :=
  let idx := match key with Scalar _ _ v => Value v | _ => key end in
  let idx :=
    match idx with
    | Value (JS.str s) => if truthy idx then Value (JS.num (Number s)) else idx
    | _ => idx
    end in
  match idx with
  | Value (JS.num (JS.Int z)) => if (z >=? 0)%Z then Some z else None
  | _ => None
  end.

(** [this.items[idx]]: [undefined] past the end. *)
Definition itemAt (items : list Tree) (idx : Z) : Tree :=
  default (Value JS.undefined) (items !! Z.to_nat idx).

(** [delete]: the result and [this.items] after [splice(idx, 1)]. *)
Definition delete (items : list Tree) (key : Tree) : bool * list Tree :=
  match asItemIndex key with
  | None => (false, items)
  | Some idx =>
      let del := take 1 (drop (Z.to_nat idx) items) in
      (Nat.ltb 0 (length del), base.delete (Z.to_nat idx) items)
  end.

Definition get (items : list Tree) (key : Tree) (keepScalar : bool) : Tree :=
  match asItemIndex key with
  | None => Value JS.undefined
  | Some idx =>
      let it := itemAt items idx in
      match it with
      | Scalar _ _ v => if negb keepScalar then Value v else it
      | _ => it
      end
  end.

Definition has (items : list Tree) (key : Tree) : bool :=
  match asItemIndex key with
  | None => false
  | Some idx => (idx <? Z.of_nat (length items))%Z
  end.

(** A tree position stored as the [value] of a scalar: an object is
    kept by identity. *)
Definition asValue (t : Tree) : JS.value :=
  match t with
  | Value v => v
  | _ => match baseOf t with Some b => JS.object (addr b) | None => JS.undefined end
  end.

(** [this.items[idx] = value]: an assignment past the end leaves holes,
    which read as [undefined]; with a number that is no array index the
    elements and the length stay as they are, and the array object gets a
    plain property. *)
Definition assign (items : list Tree) (idx : Z) (value : Tree) : Assigned :=
  if arrayIndex idx then
    let i := Z.to_nat idx in
    mkAssigned
      (if Nat.ltb i (length items) then <[i := value]> items
       else items ++ replicate (i - length items) (Value JS.undefined) ++ [value])
      None
  else mkAssigned items (Some (idx, value)).

(** [set]: throws, or returns [this.items] after the assignment.  With
    [prev.value = value] the scalar object itself is changed, in every
    place of the items that holds it. *)
Definition set (items : list Tree) (key : Tree) (value : Tree)
  : JS.thrown + Assigned :=
  match asItemIndex key with
  | None => inl (JS.Error ("Expected a valid index, not " +:+ keyText key +:+ "."))
  | Some idx =>
      let prev := itemAt items idx in
      match prev with
      | Scalar b a _ =>
          if isScalarValue value
          then inr (mkAssigned (map (assignValue (addr b) (asValue value)) items) None)
          else inr (assign items idx value)
      | _ => inr (assign items idx value)
      end
  end.

(** Following the spec's words ("key must parse as a non-negative
    integer", possibly wrapped in a scalar): [key] stands for the
    index [z]. *)
Inductive representsIndex : Tree → Z → Prop :=
| index_number z : (0 ≤ z)%Z → representsIndex (Value (JS.num (JS.Int z))) z
| index_string s z :
    s ≠ "" → Number s = JS.Int z → (0 ≤ z)%Z → representsIndex (Value (JS.str s)) z
| index_scalar b a v z :
    representsIndex (Value v) z → representsIndex (Scalar b a v) z.
End methods.

End YAMLSeq.

(** ** public-api.ts *)

Module PublicApi.

Section parseDocument.
(** [ParseOptions]; [LineCounter] objects are opaque here. *)
Variable LineCounter : Type.
Variable newLineCounter : LineCounter.

Record ParseOptions := mkParseOptions {
  prettyErrors : option bool;
  lineCounter : option LineCounter
}.

(** The composer and the parser (compose/composer.js, parse/parser.js) are
    a parameter: [composeStream source options lc] is the list of documents
    that [new Composer(onDocument, options)], fed by
    [new Parser(composer.next, lc?.addNewLine).parse(source)] and ended
    by [composer.end(true, source.length)], hands to [onDocument], in
    that order, with the line counter as the parser leaves it. *)
Variable composeStream :
  string → option ParseOptions → option LineCounter → list Document * option LineCounter.
(** errors.js: [prettifyError(src, lc)] rewrites an error in place. *)
Variable prettifyError : string → LineCounter → YAMLParseError → YAMLParseError.

Definition parseOptions (options : option ParseOptions) : option LineCounter * bool :=
  let prettyErrors :=
    match options with
    | None => true
    | Some o => negb (bool_decide (prettyErrors o = Some false))
    end in
  let lineCounter :=
    match options ≫= lineCounter with
    | Some lc => Some lc
    | None => if prettyErrors then Some newLineCounter else None
    end in
  (lineCounter, prettyErrors).

Definition multipleDocsMsg : string :=
  "Source contains multiple documents; please use YAML.parseAllDocuments()".

Definition pushError (doc : Document) (e : YAMLParseError) : Document :=
  mkDocument (contents doc) (errors doc ++ [e]) (warnings doc)
             (doc_range doc) (Nodes.options doc).

(** The callback given to the composer; its state is the variable [doc]. *)
Definition onDocument (doc : option Document) (_doc : Document) : option Document :=
  match doc with
  | None => Some _doc
  | Some doc =>
      if negb (String.eqb (logLevel (Nodes.options doc)) "silent")
      then Some (pushError doc
                   (mkError (fst (doc_range _doc)) MULTIPLE_DOCS multipleDocsMsg))
      else Some doc
  end.

Definition parseDocument (source : string) (options : option ParseOptions)
  : option Document :=
  let '(lineCounter, prettyErrors) := parseOptions options in
  let '(docs, lineCounter) := composeStream source options lineCounter in
  let doc := foldl onDocument None docs in
  match prettyErrors, lineCounter with
  | true, Some lc =>
      (λ doc, mkDocument (contents doc)
                (prettifyError source lc <$> errors doc)
                (prettifyError source lc <$> warnings doc)
                (doc_range doc) (Nodes.options doc)) <$> doc
  | _, _ => doc
  end.
End parseDocument.

(** The error pushed for the additional document [d], and whether the
    first document asks for silence. *)
Definition multipleDocs (d : Document) : YAMLParseError :=
  mkError (fst (doc_range d)) MULTIPLE_DOCS multipleDocsMsg.
Definition silent (d : Document) : bool :=
  String.eqb (logLevel (Nodes.options d)) "silent".

End PublicApi.

(** ** compose/resolve-flow-collection.ts *)

Module Compose.

(** parse/tokens.js: the token types the [switch] tells apart; every other
    type takes the [default] branch. *)
Module TokenType.
Inductive t :=
| space | comment | newline | anchor | tag
| explicit_key_ind | map_value_ind | comma
| block_map | block_seq
| other (name : string).
End TokenType.

Module Token.
Record t := mk { type : TokenType.t; offset : Z; source : string }.
End Token.

Record FlowCollection := mkFlowCollection {
  fc_offset : Z;
  fc_start : Token.t;
  fc_items : list Token.t;
  fc_end : list Token.t
}.

Record ComposeContext := mkContext { strict : bool (* ctx.options.strict *) }.

Record Props := mkProps {
  p_spaceBefore : bool;
  p_comment : string;
  p_anchor : string;
  p_tagName : string
}.

(** The local variables of [resolveFlowCollection], with the items of
    [coll], the log of [onError] and the allocator. *)
Record State := mkState {
  items : list Tree   (* coll.items *);
  key : option Tree;
  value : option Tree;
  spaceBefore : bool;
  comment : string;
  hasSpace : bool;
  newlines : string;
  anchor : string;
  tagName : string;
  offset : Z;
  atLineStart : bool;
  atExplicitKey : bool;
  atValueEnd : bool;
  nlAfterValueInSeq : bool;
  seqKeyToken : option Token.t;
  errors : list YAMLParseError   (* what onError has received *);
  fresh : nat   (* the address of the next new object *)
}.

Definition set_items (x : list Tree) (st : State) : State :=
  mkState x (key st) (value st) (spaceBefore st) (comment st) (hasSpace st)
          (newlines st) (anchor st) (tagName st) (offset st) (atLineStart st)
          (atExplicitKey st) (atValueEnd st) (nlAfterValueInSeq st)
          (seqKeyToken st) (errors st) (fresh st).
Definition set_key (x : option Tree) (st : State) : State :=
  mkState (items st) x (value st) (spaceBefore st) (comment st) (hasSpace st)
          (newlines st) (anchor st) (tagName st) (offset st) (atLineStart st)
          (atExplicitKey st) (atValueEnd st) (nlAfterValueInSeq st)
          (seqKeyToken st) (errors st) (fresh st).
Definition set_value (x : option Tree) (st : State) : State :=
  mkState (items st) (key st) x (spaceBefore st) (comment st) (hasSpace st)
          (newlines st) (anchor st) (tagName st) (offset st) (atLineStart st)
          (atExplicitKey st) (atValueEnd st) (nlAfterValueInSeq st)
          (seqKeyToken st) (errors st) (fresh st).
Definition set_spaceBefore (x : bool) (st : State) : State :=
  mkState (items st) (key st) (value st) x (comment st) (hasSpace st)
          (newlines st) (anchor st) (tagName st) (offset st) (atLineStart st)
          (atExplicitKey st) (atValueEnd st) (nlAfterValueInSeq st)
          (seqKeyToken st) (errors st) (fresh st).
Definition set_comment (x : string) (st : State) : State :=
  mkState (items st) (key st) (value st) (spaceBefore st) x (hasSpace st)
          (newlines st) (anchor st) (tagName st) (offset st) (atLineStart st)
          (atExplicitKey st) (atValueEnd st) (nlAfterValueInSeq st)
          (seqKeyToken st) (errors st) (fresh st).
Definition set_hasSpace (x : bool) (st : State) : State :=
  mkState (items st) (key st) (value st) (spaceBefore st) (comment st) x
          (newlines st) (anchor st) (tagName st) (offset st) (atLineStart st)
          (atExplicitKey st) (atValueEnd st) (nlAfterValueInSeq st)
          (seqKeyToken st) (errors st) (fresh st).
Definition set_newlines (x : string) (st : State) : State :=
  mkState (items st) (key st) (value st) (spaceBefore st) (comment st)
          (hasSpace st) x (anchor st) (tagName st) (offset st)
          (atLineStart st) (atExplicitKey st) (atValueEnd st)
          (nlAfterValueInSeq st) (seqKeyToken st) (errors st) (fresh st).
Definition set_anchor (x : string) (st : State) : State :=
  mkState (items st) (key st) (value st) (spaceBefore st) (comment st)
          (hasSpace st) (newlines st) x (tagName st) (offset st)
          (atLineStart st) (atExplicitKey st) (atValueEnd st)
          (nlAfterValueInSeq st) (seqKeyToken st) (errors st) (fresh st).
Definition set_tagName (x : string) (st : State) : State :=
  mkState (items st) (key st) (value st) (spaceBefore st) (comment st)
          (hasSpace st) (newlines st) (anchor st) x (offset st)
          (atLineStart st) (atExplicitKey st) (atValueEnd st)
          (nlAfterValueInSeq st) (seqKeyToken st) (errors st) (fresh st).
Definition set_offset (x : Z) (st : State) : State :=
  mkState (items st) (key st) (value st) (spaceBefore st) (comment st)
          (hasSpace st) (newlines st) (anchor st) (tagName st) x
          (atLineStart st) (atExplicitKey st) (atValueEnd st)
          (nlAfterValueInSeq st) (seqKeyToken st) (errors st) (fresh st).
Definition set_atLineStart (x : bool) (st : State) : State :=
  mkState (items st) (key st) (value st) (spaceBefore st) (comment st)
          (hasSpace st) (newlines st) (anchor st) (tagName st) (offset st) x
          (atExplicitKey st) (atValueEnd st) (nlAfterValueInSeq st)
          (seqKeyToken st) (errors st) (fresh st).
Definition set_atExplicitKey (x : bool) (st : State) : State :=
  mkState (items st) (key st) (value st) (spaceBefore st) (comment st)
          (hasSpace st) (newlines st) (anchor st) (tagName st) (offset st)
          (atLineStart st) x (atValueEnd st) (nlAfterValueInSeq st)
          (seqKeyToken st) (errors st) (fresh st).
Definition set_atValueEnd (x : bool) (st : State) : State :=
  mkState (items st) (key st) (value st) (spaceBefore st) (comment st)
          (hasSpace st) (newlines st) (anchor st) (tagName st) (offset st)
          (atLineStart st) (atExplicitKey st) x (nlAfterValueInSeq st)
          (seqKeyToken st) (errors st) (fresh st).
Definition set_nlAfterValueInSeq (x : bool) (st : State) : State :=
  mkState (items st) (key st) (value st) (spaceBefore st) (comment st)
          (hasSpace st) (newlines st) (anchor st) (tagName st) (offset st)
          (atLineStart st) (atExplicitKey st) (atValueEnd st) x
          (seqKeyToken st) (errors st) (fresh st).
Definition set_seqKeyToken (x : option Token.t) (st : State) : State :=
  mkState (items st) (key st) (value st) (spaceBefore st) (comment st)
          (hasSpace st) (newlines st) (anchor st) (tagName st) (offset st)
          (atLineStart st) (atExplicitKey st) (atValueEnd st)
          (nlAfterValueInSeq st) x (errors st) (fresh st).
Definition set_errors (x : list YAMLParseError) (st : State) : State :=
  mkState (items st) (key st) (value st) (spaceBefore st) (comment st)
          (hasSpace st) (newlines st) (anchor st) (tagName st) (offset st)
          (atLineStart st) (atExplicitKey st) (atValueEnd st)
          (nlAfterValueInSeq st) (seqKeyToken st) x (fresh st).
Definition set_fresh (x : nat) (st : State) : State :=
  mkState (items st) (key st) (value st) (spaceBefore st) (comment st)
          (hasSpace st) (newlines st) (anchor st) (tagName st) (offset st)
          (atLineStart st) (atExplicitKey st) (atValueEnd st)
          (nlAfterValueInSeq st) (seqKeyToken st) (errors st) x.

Definition truthyS (s : string) : bool := negb (String.eqb s "").
Definition isSome {A} (o : option A) : bool :=
  match o with Some _ => true | None => false end.
(** [s.substring(1)] *)
Definition substring1 (s : string) : string :=
  match s with String _ r => r | EmptyString => EmptyString end.
Definition len (s : string) : Z := Z.of_nat (String.length s).
(** The length of the source of a run of source tokens. *)
Definition width (tokens : list Token.t) : Z :=
  foldr (λ t n, (len (Token.source t) + n)%Z) 0%Z tokens.

(** [node.range[0]] and [node.range[1]] of a parsed node, whose range is
    always set. *)
Definition rangeStart (t : Tree) : Z :=
  match baseOf t ≫= range with Some r => fst r | None => 0%Z end.
Definition rangeEnd (t : Tree) : Z :=
  match baseOf t ≫= range with Some r => snd r | None => 0%Z end.

Definition mapBase (f : NodeBase → NodeBase) (t : Tree) : Tree :=
  match t with
  | Scalar b a v => Scalar (f b) a v
  | YAMLMap b a fl l => YAMLMap (f b) a fl l
  | YAMLSeq b a fl l => YAMLSeq (f b) a fl l
  | Alias a => Alias (mkAlias (f (alias_base a)) (Nodes.source a))
  | Pair b k v => Pair (f b) k v
  | Value v => Value v
  end.

(** [node.comment = c] and [node.range = r] *)
Definition setComment (c : string) : Tree → Tree :=
  mapBase (λ b, mkBase (addr b) (Nodes.tag b) (Some c) (commentBefore b)
                       (Nodes.spaceBefore b) (range b)).
Definition setRange (r : Z * Z) : Tree → Tree :=
  mapBase (λ b, mkBase (addr b) (Nodes.tag b) (Nodes.comment b) (commentBefore b)
                       (Nodes.spaceBefore b) (Some r)).

(** The base of a newly constructed node or pair. *)
Definition new (st : State) : NodeBase * State :=
  (mkBase (fresh st) None None None false None, set_fresh (S (fresh st)) st).

Definition onError (offset : Z) (code : ErrorCode) (message : string) (st : State) : State :=
  set_errors (errors st ++ [mkError offset code message]) st.
(** The calls of [onError] made by a callee. *)
Definition report (es : list YAMLParseError) (st : State) : State :=
  set_errors (errors st ++ es) st.
Definition push (item : Tree) (st : State) : State :=
  set_items (items st ++ [item]) st.

Definition getProps (st : State) : Props * State :=
  let props := mkProps (spaceBefore st) (comment st) (anchor st) (tagName st) in
  let st := set_spaceBefore false st in
  let st := set_comment "" st in
  let st := set_newlines "" st in
  let st := set_anchor "" st in
  let st := set_tagName "" st in
  (props, st).

(** The trailing comment of the [newline] branch: it goes to the last
    item of [coll], or inside it when that is a pair. *)
Definition commentLastItem (st : State) : State :=
  let c := comment st in
  let impossible :=
    onError (offset st) IMPOSSIBLE "Error adding trailing comment to node" st in
  let last := length (items st) - 1 in
  match items st !! last with
  | Some (Pair b k v) =>
      let node := if truthy v then v else k in
      if isNode node then
        set_items (<[last := if truthy v then Pair b k (setComment c v)
                             else Pair b (setComment c k) v]> (items st)) st
      else impossible
  | Some node =>
      if isNode node then set_items (<[last := setComment c node]> (items st)) st
      else impossible
  | None => impossible
  end.

Section resolveFlowCollection.
(** The callees of compose-node.js, resolve-end.js and
    util-contains-newline.js and the directives of the document are
    parameters.  A callee that takes [onError] returns the errors it
    reported with its result. *)
Variable composeNode : ComposeContext → Token.t → Props → Tree * list YAMLParseError.
Variable composeEmptyNode :
  ComposeContext → Z → list Token.t → nat → Props → Tree * list YAMLParseError.
Variable directivesTagName : string → option string * list string.
Variable containsNewline : Token.t → bool.
Variable resolveEnd :
  list Token.t → Z → bool → (string * Z) * list YAMLParseError.

Variable ctx : ComposeContext.
Variable fc : FlowCollection.

Definition isMap : bool := String.eqb (Token.source (fc_start fc)) "{".

Definition addItem (pos : nat) (st : State) : State :=
  let '(v, st) :=
    match value st with
    | Some v =>
        if truthyS (comment st) then (setComment (comment st) v, st) else (v, st)
    | None =>
        let '(props, st) := getProps st in
        let '(v, es) := composeEmptyNode ctx (offset st) (fc_items fc) pos props in
        (v, report es st)
    end in
  let st := set_value (Some v) st in
  if isMap || atExplicitKey st then
    let '(b, st) := new st in
    push (match key st with
          | Some k => Pair b k v
          | None => Pair b v (Value JS.null)
          end) st
  else
    match key st with
    | Some k =>
        let '(mb, st) := new st in
        let '(pb, st) := new st in
        push (YAMLMap mb None true [Pair pb k v]) st
    | None => push v st
    end.

Definition slMsg : string :=
  "Implicit keys of flow sequence pairs need to be on a single line".
Definition keyOverMsg : string :=
  "The : indicator must be at most 1024 chars after the start of an implicit flow sequence key".

(** The [default] branch of the [switch]. *)
Definition composeValue (token : Token.t) (st : State) : State :=
  let st :=
    if isSome (value st)
    then onError (offset st) MISSING_CHAR "Missing , between flow collection items" st
    else st in
  let st :=
    if negb isMap && negb (isSome (key st)) && negb (atExplicitKey st)
    then set_seqKeyToken (Some token) st else st in
  let '(props, st) := getProps st in
  let '(v, es) := composeNode ctx token props in
  let st := report es st in
  let st := set_value (Some v) st in
  let st := set_offset (rangeEnd v) st in
  let st := set_atLineStart false st in
  let st := set_atValueEnd false st in
  set_hasSpace false st.

(** The [map-value-ind] branch, up to the assignment of [key]. *)
Definition mapValueInd (i : nat) (st : State) : State :=
  match key st, value st with
  | Some k, Some v =>
      let st := onError (offset st) BLOCK_AS_IMPLICIT_KEY
                        "Missing {} around pair used as mapping key" st in
      let '(mb, st) := new st in
      let '(pb, st) := new st in
      let map := setRange (rangeStart k, rangeEnd v)
                          (YAMLMap mb None true [Pair pb k v]) in
      let st := set_key (Some map) st in
      set_value None st
  | Some _, None => st
  | None, Some v =>
      let st :=
        if strict ctx then
          if nlAfterValueInSeq st
          then onError (offset st) MULTILINE_IMPLICIT_KEY slMsg st
          else
            match seqKeyToken st with
            | Some t =>
                let st :=
                  if containsNewline t
                  then onError (offset st) MULTILINE_IMPLICIT_KEY slMsg st
                  else st in
                let st :=
                  if (Token.offset t <? offset st - 1024)%Z
                  then onError (offset st) KEY_OVER_1024_CHARS keyOverMsg st
                  else st in
                set_seqKeyToken None st
            | None => st
            end
        else st in
      let st := set_key (Some v) st in
      set_value None st
  | None, None =>
      let '(props, st) := getProps st in
      let '(k, es) := composeEmptyNode ctx (offset st) (fc_items fc) i props in
      set_key (Some k) (report es st)
  end.

(** One turn of the [for] loop, on token [i]. *)
Definition step (i : nat) (token : Token.t) (st : State) : State :=
  let sourceToken (st : State) : State :=
    set_offset (offset st + len (Token.source token))%Z st in
  match Token.type token with
  | TokenType.space => sourceToken (set_hasSpace true st)
  | TokenType.comment =>
      let st :=
        if strict ctx && negb (hasSpace st)
        then onError (offset st) COMMENT_SPACE
               "Comments must be separated from other tokens by white space characters" st
        else st in
      let cb := substring1 (Token.source token) in
      let st :=
        if negb (truthyS (comment st)) then set_comment cb st
        else set_comment (comment st +:+ newlines st +:+ cb) st in
      let st := set_atLineStart false st in
      sourceToken (set_newlines "" st)
  | TokenType.newline =>
      let st :=
        if atLineStart st && negb (truthyS (comment st))
        then set_spaceBefore true st else st in
      let st :=
        if atValueEnd st then
          let st :=
            if truthyS (comment st)
            then set_comment "" (commentLastItem st)
            else st in
          set_atValueEnd false st
        else
          let st := set_newlines (newlines st +:+ Token.source token) st in
          if negb isMap && negb (isSome (key st)) && isSome (value st)
          then set_nlAfterValueInSeq true st else st in
      let st := set_atLineStart true st in
      sourceToken (set_hasSpace true st)
  | TokenType.anchor =>
      let st :=
        if truthyS (anchor st)
        then onError (offset st) MULTIPLE_ANCHORS "A node can have at most one anchor" st
        else st in
      let st := set_anchor (substring1 (Token.source token)) st in
      let st := set_atLineStart false st in
      let st := set_atValueEnd false st in
      sourceToken (set_hasSpace false st)
  | TokenType.tag =>
      let st :=
        if truthyS (tagName st)
        then onError (offset st) MULTIPLE_TAGS "A node can have at most one tag" st
        else st in
      let '(tn, ms) := directivesTagName (Token.source token) in
      let st := report (mkError (offset st) TAG_RESOLVE_FAILED <$> ms) st in
      let st :=
        match tn with
        | Some tn => if truthyS tn then set_tagName tn st else st
        | None => st
        end in
      let st := set_atLineStart false st in
      let st := set_atValueEnd false st in
      sourceToken (set_hasSpace false st)
  | TokenType.explicit_key_ind =>
      let st :=
        if truthyS (anchor st) || truthyS (tagName st)
        then onError (offset st) PROP_BEFORE_SEP
               "Anchors and tags must be after the ? indicator" st
        else st in
      let st := set_atExplicitKey true st in
      let st := set_atLineStart false st in
      let st := set_atValueEnd false st in
      sourceToken (set_hasSpace false st)
  | TokenType.map_value_ind =>
      let st := mapValueInd i st in
      let st :=
        if truthyS (comment st)
        then set_comment "" (set_key (setComment (comment st) <$> key st) st)
        else st in
      let st := set_atExplicitKey false st in
      let st := set_atValueEnd false st in
      sourceToken (set_hasSpace false st)
  | TokenType.comma =>
      let st :=
        if isSome (key st) || isSome (value st) || truthyS (anchor st)
           || truthyS (tagName st) || atExplicitKey st
        then addItem i st
        else onError (offset st) UNEXPECTED_TOKEN
               ("Unexpected , in flow " +:+ (if isMap then "map" else "sequence")) st in
      let st := set_key None st in
      let st := set_value None st in
      let st := set_atExplicitKey false st in
      let st := set_atValueEnd true st in
      let st := set_hasSpace false st in
      let st := set_nlAfterValueInSeq false st in
      sourceToken (set_seqKeyToken None st)
  | TokenType.block_map | TokenType.block_seq =>
      composeValue token
        (onError (offset st) BLOCK_IN_FLOW
           "Block collections are not allowed within flow collections" st)
  | TokenType.other _ => composeValue token st
  end.

(** The [for] loop from index [i] on. *)
Fixpoint loop (i : nat) (tokens : list Token.t) (st : State) : State :=
  match tokens with
  | [] => st
  | token :: tokens' => loop (S i) tokens' (step i token st)
  end.

(** The state before the loop; [top] is the first free address, taken
    by [coll]. *)
Definition init (top : nat) : State :=
  mkState [] None None false "" false "" "" "" (fc_offset fc + 1)%Z
          false false false false None [] (S top).

(** What follows the loop up to [coll.range]: the last item. *)
Definition finish (st : State) : State :=
  if isSome (key st) || isSome (value st) || truthyS (anchor st)
     || truthyS (tagName st) || atExplicitKey st
  then addItem (length (fc_items fc)) st
  else st.

(** The result: [coll] and what [onError] received, in order. *)
Definition resolveFlowCollection (top : nat) : Tree * list YAMLParseError :=
  let st := finish (loop 0 (fc_items fc) (init top)) in
  let expectedEnd := if isMap then "}" else "]" in
  let st :=
    match fc_end fc with
    | ce :: _ =>
        if String.eqb (Token.source ce) expectedEnd then st
        else onError (offset st) MISSING_CHAR
               ("Expected flow " +:+ (if isMap then "map" else "sequence")
                +:+ " to end with " +:+ expectedEnd) st
    | [] =>
        onError (offset st) MISSING_CHAR
          ("Expected flow " +:+ (if isMap then "map" else "sequence")
           +:+ " to end with " +:+ expectedEnd) st
    end in
  let st :=
    match fc_end fc with
    | ce :: _ => set_offset (offset st + len (Token.source ce))%Z st
    | [] => st
    end in
  let '(collComment, st) :=
    match fc_end fc with
    | _ :: ((_ :: _) as ee) =>
        let '((endComment, endOffset), es) := resolveEnd ee (offset st) (strict ctx) in
        let st := report es st in
        (if truthyS endComment then Some (comment st) else None,
         set_offset endOffset st)
    | _ => (None, st)
    end in
  let base := mkBase top None collComment None false (Some (fc_offset fc, offset st)) in
  (if isMap then YAMLMap base None true (items st)
   else YAMLSeq base None true (items st),
   errors st).
End resolveFlowCollection.

(** [onError] only ever appends: an error once reported stays. *)
Definition keeps (e : YAMLParseError) (f : State → State) : Prop :=
  ∀ st, e ∈ errors st → e ∈ errors (f st).







End Compose.

(** ** stringify/stringifyCollection.ts *)

Module Stringify.
Import StringifyTypes.

Record StringifyNode := mkNode { comment : bool; str : string }.

(** [flowChars]: one of the two bracket pairs. *)
Inductive FlowChars := Braces | Brackets.
Definition start (fc : FlowChars) : string :=
  match fc with Braces => "{" | Brackets => "[" end.
Definition end_ (fc : FlowChars) : string :=
  match fc with Braces => "}" | Brackets => "]" end.

(** The fields of [Collection] that are read. *)
Record Collection := mkCollection {
  c_comment : option string;
  c_flow : bool;
  c_items : list Tree
}.

(** [onChompKeep] and [onComment] are optional callbacks without
    arguments: the options say whether they are given, the result whether
    they were called. *)
Record StringifyCollectionOptions := mkOptions {
  blockItem : StringifyNode → string;
  flowChars : FlowChars;
  itemIndent : string;
  onChompKeep : bool;
  onComment : bool
}.

Record Rendered := mkRendered {
  r_str : string;
  r_onComment : bool;
  r_onChompKeep : bool
}.

(** [str.includes('\n')] *)
Fixpoint includesNewline (s : string) : bool :=
  match s with
  | EmptyString => false
  | String c r => Ascii.eqb c "010"%char || includesNewline r
  end.

Definition len (s : string) : Z := Z.of_nat (String.length s).
Definition truthyS (s : string) : bool := negb (String.eqb s "").

(** The state of the [reduce] over [items]. *)
Record Acc := mkAcc {
  nodes : list StringifyNode;
  chompKeep : bool;
  hasItemWithNewLine : bool
}.

(** The comment test on [pair.key] and [pair.value]: [item as any] is
    read as a pair, so a scalar answers with its own [value], which, like
    every plain value, has no comment properties. *)
Definition sideHasComment (side : Tree) : bool :=
  truthy side && (truthyStr (commentBeforeOf side) || truthyStr (commentOf side)).
Definition keyOrValueHasComment (item : Tree) : bool :=
  match item with
  | Pair _ k v => sideHasComment k || sideHasComment v
  | _ => false
  end.

Section stringifyCollection.
(** [stringify] of stringify.js and [addComment] of addComment.js are
    parameters.  [stringify item ctx] throws, or returns its string and
    whether it called [onComment] and [onChompKeep]. *)
Variable stringify : Tree → StringifyContext → JS.thrown + Rendered.
Variable addComment : string → string → option string → string.
(** [s.match(/^.*$/gm)] and [s.replace(/^/gm, prefix)] *)
Variable matchLines : string → list string.
Variable replaceLineStarts : string → string → string.
(** [Collection.maxFlowStringSingleLineLength] *)
Variable maxFlowStringSingleLineLength : Z.

(** The body of the [reduce] callback for [item] at index [i] of [n]
    items; [ctx] and [itemIndent] are the updated ones. *)
Definition reduceItem (ctx : StringifyContext) (itemIndent : string) (inFlow : bool)
    (n : nat) (acc : Acc) (i : nat) (item : Tree) : JS.thrown + Acc :=
  let comment : option string := None in
  let '(acc, comment) :=
    if isNode item || isPair item then
      let space := negb (chompKeep acc) && spaceBeforeOf item in
      let nodes := nodes acc in
      let nodes := if space then nodes ++ [mkNode true ""] else nodes in
      let nodes :=
        if truthyStr (commentBeforeOf item)
        then nodes ++ ((λ line, mkNode true ("#" +:+ line))
                         <$> matchLines (default "" (commentBeforeOf item)))
        else nodes in
      let comment := if truthyStr (commentOf item) then commentOf item else comment in
      let hasNL :=
        if inFlow && (space || truthyStr (commentBeforeOf item)
                      || truthyStr (commentOf item) || keyOrValueHasComment item)
        then true else hasItemWithNewLine acc in
      (mkAcc nodes (chompKeep acc) hasNL, comment)
    else (acc, comment) in
  match stringify item ctx with
  | inl e => inl e
  | inr r =>
      let comment := if r_onComment r then None else comment in
      let chompKeep := r_onChompKeep r in
      let str := r_str r in
      let hasNL :=
        if inFlow && negb (hasItemWithNewLine acc) && includesNewline str
        then true else hasItemWithNewLine acc in
      let str := if inFlow && Nat.ltb i (n - 1) then str +:+ "," else str in
      let str := addComment str itemIndent comment in
      let chompKeep :=
        if chompKeep && (truthyStr comment || inFlow) then false else chompKeep in
      inr (mkAcc (nodes acc ++ [mkNode false str]) chompKeep hasNL)
  end.

(** [items.reduce(..., [])], from index [i] on. *)
Fixpoint reduce (ctx : StringifyContext) (itemIndent : string) (inFlow : bool)
    (n : nat) (acc : Acc) (i : nat) (items : list Tree) : JS.thrown + Acc :=
  match items with
  | [] => inr acc
  | item :: items' =>
      match reduceItem ctx itemIndent inFlow n acc i item with
      | inl e => inl e
      | inr acc => reduce ctx itemIndent inFlow n acc (S i) items'
      end
  end.

(** The line of one string in a broken flow collection or a block. *)
Definition flowLine (indentStep indent s : string) : string :=
  if truthyS s then String "010" (indentStep +:+ indent +:+ s) else String "010" "".
Definition blockLine (indent s : string) : string :=
  if truthyS s then String "010" (indent +:+ s) else String "010" "".

Definition inlineLength (strings : list string) : Z :=
  foldl (λ sum str, (sum + len str + 2)%Z) 2%Z strings.

(** The two flow layouts. *)
Definition flowBroken (fc : FlowChars) (indentStep indent : string)
    (strings : list string) : string :=
  foldl (λ str s, str +:+ flowLine indentStep indent s) (start fc) strings
  +:+ String "010" (indent +:+ end_ fc).
Definition flowInline (fc : FlowChars) (strings : list string) : string :=
  start fc +:+ " " +:+ String.concat " " strings +:+ " " +:+ end_ fc.

Definition stringifyCollection (coll : Collection) (ctx : StringifyContext)
    (opts : StringifyCollectionOptions) : JS.thrown + Rendered :=
  let indent := indent ctx in
  let indentStep := indentStep ctx in
  let inFlow := c_flow coll || inFlow ctx in
  let itemIndent := if inFlow then itemIndent opts +:+ indentStep else itemIndent opts in
  let ctx := mkSCtx (anchors ctx) (implicitKey ctx) itemIndent indentStep inFlow None
                    (verifyAliasOrder ctx) in
  match reduce ctx itemIndent inFlow (length (c_items coll))
               (mkAcc [] false false) 0 (c_items coll) with
  | inl e => inl e
  | inr acc =>
      let str :=
        if Nat.eqb (length (nodes acc)) 0 then
          start (flowChars opts) +:+ end_ (flowChars opts)
        else if inFlow then
          let strings := str <$> nodes acc in
          if hasItemWithNewLine acc
             || (inlineLength strings >? maxFlowStringSingleLineLength)%Z
          then flowBroken (flowChars opts) indentStep indent strings
          else flowInline (flowChars opts) strings
        else
          let strings := blockItem opts <$> nodes acc in
          match strings with
          | [] => ""
          | s :: strings =>
              foldl (λ str s, str +:+ blockLine indent s) s strings
          end in
      if truthyStr (c_comment coll) then
        inr (mkRendered
               (str +:+ String "010"
                  (replaceLineStarts (default "" (c_comment coll)) (indent +:+ "#")))
               (onComment opts) false)
      else inr (mkRendered str false (chompKeep acc && onChompKeep opts))
  end.
End stringifyCollection.

(** The context handed to [stringify] for the items, and the indent of
    the items. *)
Definition itemIndentOf (coll : Collection) (ctx : StringifyContext)
    (opts : StringifyCollectionOptions) : string :=
  if c_flow coll || inFlow ctx then itemIndent opts +:+ indentStep ctx
  else itemIndent opts.
Definition itemContext (coll : Collection) (ctx : StringifyContext)
    (opts : StringifyCollectionOptions) : StringifyContext :=
  mkSCtx (anchors ctx) (implicitKey ctx) (itemIndentOf coll ctx opts) (indentStep ctx)
         (c_flow coll || inFlow ctx) None (verifyAliasOrder ctx).

(** What follows the collection: its own comment, on lines of their own. *)
Definition trailer (replaceLineStarts : string → string → string)
    (coll : Collection) (ctx : StringifyContext) : string :=
  if truthyStr (c_comment coll)
  then String "010" (replaceLineStarts (default "" (c_comment coll)) (indent ctx +:+ "#"))
  else "".

(** Following the spec's words: an item has a comment (before it, after
    it, or on its key or value); its rendering contains a newline. *)
Definition hasComment (item : Tree) : bool :=
  (isNode item || isPair item)
  && (truthyStr (commentBeforeOf item) || truthyStr (commentOf item)
      || keyOrValueHasComment item).
Definition rendersNewline (stringify : Tree → StringifyContext → JS.thrown + Rendered)
    (ctx : StringifyContext) (item : Tree) : bool :=
  match stringify item ctx with
  | inr r => includesNewline (r_str r)
  | inl _ => false
  end.
(** A blank line precedes the item. *)
Definition hasSpaceBefore (item : Tree) : bool :=
  (isNode item || isPair item) && spaceBeforeOf item.
(** What makes the code break a flow collection over lines. *)
Definition breaksLine (stringify : Tree → StringifyContext → JS.thrown + Rendered)
    (ctx : StringifyContext) (item : Tree) : bool :=
  hasSpaceBefore item || hasComment item || rendersNewline stringify ctx item.

End Stringify.

(** ** Document order *)

Module Order.

(** The part of a list of nodes before the first occurrence of the object
    with base [b]. *)
Fixpoint before (b : NodeBase) (l : list Tree) : list Tree :=
  match l with
  | [] => []
  | n :: l' => if sameObject n b then [] else n :: before b l'
  end.

(** The nodes of [doc] that precede the alias [this], in document order. *)
Definition preceding (this : AliasT) (doc : Document) : list Tree :=
  before (alias_base this) (Visit.nodesOf (contents doc)).

(** The node carries the anchor [label]. *)
Definition anchored (label : string) (n : Tree) : Prop := anchorOf n = Some label.

#[global] Instance anchored_dec label n : Decision (anchored label n).
Proof. unfold anchored. apply _. Defined.

(** The last node of [l] that carries the anchor [label]. *)
Definition lastAnchored (label : string) (l : list Tree) : option Tree :=
  last (filter (anchored label) l).

End Order.

(** ** Sample documents *)

Module Sample.

Definition base (a : nat) : NodeBase := mkBase a None None None false None.

(** [[ &a one, &a two, *a ]] *)
Definition one : Tree := Scalar (base 1) (Some "a") (JS.str "one").
Definition two : Tree := Scalar (base 2) (Some "a") (JS.str "two").
Definition star : AliasT := mkAlias (base 3) "a".
Definition seq : Tree := YAMLSeq (base 0) None true [one; two; Alias star].
Definition doc : Document := mkDocument seq [] [] (0, 20)%Z (mkDocOptions "warn").

(** [[ &s text, *s ]]: one anchor, one alias. *)
Definition text : Tree := Scalar (base 1) (Some "s") (JS.str "text").
Definition starS : AliasT := mkAlias (base 2) "s".
Definition docS : Document :=
  mkDocument (YAMLSeq (base 0) None true [text; Alias starS]) [] [] (0, 14)%Z
             (mkDocOptions "warn").

(** [[ &e [], *e ]] *)
Definition empty : Tree := YAMLSeq (base 1) (Some "e") true [].
Definition starE : AliasT := mkAlias (base 2) "e".
Definition docE : Document :=
  mkDocument (YAMLSeq (base 0) None true [empty; Alias starE]) [] [] (0, 12)%Z
             (mkDocOptions "warn").

(** [[ *b ]]: no anchor at all. *)
Definition dangling : AliasT := mkAlias (base 1) "b".
Definition docD : Document :=
  mkDocument (YAMLSeq (base 0) None true [Alias dangling]) [] [] (0, 6)%Z
             (mkDocOptions "warn").

Definition entry (n : nat) (c : Z) (v : JS.value) : gmap nat Alias.AnchorData :=
  {[ n := Alias.mkData 0 c v ]}.

(** Contexts in which the anchored node has been converted already. *)
Definition ctx (max : Z) : Alias.ToJSContext :=
  Alias.mkToJS (entry 2 0 (JS.str "two")) doc max.
Definition ctxS (max : Z) : Alias.ToJSContext :=
  Alias.mkToJS (entry 1 0 (JS.str "text")) docS max.
Definition ctxE (max : Z) : Alias.ToJSContext :=
  Alias.mkToJS (entry 1 0 (JS.object 7)) docE max.

(** A reading of [Number] on decimal digits. *)
Fixpoint digits (s : string) (acc : Z) : JS.number :=
  match s with
  | EmptyString => JS.Int acc
  | String c r =>
      let d := (Z.of_N (N_of_ascii c) - 48)%Z in
      if ((0 <=? d) && (d <=? 9))%Z then digits r (10 * acc + d)%Z else JS.NaN
  end.
Definition Number (s : string) : JS.number := digits s 0.

(** Two documents in one source, as the composer hands them over. *)
Definition twoDocs : string := "a" +:+ String "010" ("---" +:+ String "010" "b").
Definition first (level : string) : Document :=
  mkDocument one [] [] (0, 2)%Z (mkDocOptions level).
Definition second : Document :=
  mkDocument two [] [] (6, 7)%Z (mkDocOptions "warn").
Definition composeStream (level : string) (_ : string)
    (_ : option (PublicApi.ParseOptions ())) (lc : option ())
  : list Document * option () :=
  ([first level; second], lc).

(** A composer of plain scalars for the callees of
    [resolveFlowCollection]. *)
Import Compose.
Definition propsAnchor (p : Props) : option string :=
  if truthyS (p_anchor p) then Some (p_anchor p) else None.
Definition composeNode (_ : ComposeContext) (t : Token.t) (p : Props)
  : Tree * list YAMLParseError :=
  (Scalar (mkBase (100 + Z.to_nat (Token.offset t)) None None None (p_spaceBefore p)
                  (Some (Token.offset t, Token.offset t + len (Token.source t))%Z))
          (propsAnchor p) (JS.str (Token.source t)), []).
Definition composeEmptyNode (_ : ComposeContext) (offset : Z) (_ : list Token.t)
    (pos : nat) (p : Props) : Tree * list YAMLParseError :=
  (Scalar (mkBase (200 + pos) None None None (p_spaceBefore p) (Some (offset, offset)))
          (propsAnchor p) JS.null, []).
Definition tagName (s : string) : option string * list string := (Some s, []).
Definition containsNewline (t : Token.t) : bool :=
  Stringify.includesNewline (Token.source t).
Definition resolveEnd (ee : list Token.t) (offset : Z) (_ : bool)
  : (string * Z) * list YAMLParseError :=
  (("", offset + width ee)%Z, []).

Definition scalar (offset : Z) (source : string) : Token.t :=
  Token.mk (TokenType.other "scalar") offset source.
Definition bracket (offset : Z) (source : string) : Token.t :=
  Token.mk (TokenType.other "flow-seq") offset source.



(** [[ a: b, c ]] and [[ ? a ]] *)
Definition pairSeq : FlowCollection :=
  mkFlowCollection 0 (bracket 0 "[")
    [Token.mk TokenType.space 1 " "; scalar 2 "a";
     Token.mk TokenType.map_value_ind 3 ":"; Token.mk TokenType.space 4 " ";
     scalar 5 "b"; Token.mk TokenType.comma 6 ","; Token.mk TokenType.space 7 " ";
     scalar 8 "c"; Token.mk TokenType.space 9 " "]
    [bracket 10 "]"].
Definition explicitSeq : FlowCollection :=
  mkFlowCollection 0 (bracket 0 "[")
    [Token.mk TokenType.space 1 " "; Token.mk TokenType.explicit_key_ind 2 "?";
     Token.mk TokenType.space 3 " "; scalar 4 "a"; Token.mk TokenType.space 5 " "]
    [bracket 6 "]"].
Definition resolveFlowCollection (strict : bool) (fc : FlowCollection)
  : Tree * list YAMLParseError :=
  Compose.resolveFlowCollection composeNode composeEmptyNode tagName containsNewline
    resolveEnd (mkContext strict) fc 0.

(** A flow sequence [[ a ]] whose item has a blank line before it, with a
    [stringify] that renders every item as [a]. *)
Definition spaced : Tree :=
  Scalar (mkBase 1 None None None true None) None (JS.str "a").
Definition spacedSeq : Stringify.Collection := Stringify.mkCollection None true [spaced].
Definition emptySeq : Stringify.Collection := Stringify.mkCollection None false [].
Definition sctx : StringifyTypes.StringifyContext :=
  StringifyTypes.mkSCtx ∅ false "" "  " false None false.
Definition seqOptions : Stringify.StringifyCollectionOptions :=
  Stringify.mkOptions
    (λ n, if Stringify.comment n then Stringify.str n else "- " +:+ Stringify.str n)
    Stringify.Brackets "  " false false.
Definition stringify (_ : Tree) (_ : StringifyTypes.StringifyContext)
  : JS.thrown + Stringify.Rendered :=
  inr (Stringify.mkRendered "a" false false).
Definition addComment (str _ : string) (comment : option string) : string :=
  match comment with Some c => str +:+ " #" +:+ c | None => str end.
Definition stringifyCollection (coll : Stringify.Collection)
  : JS.thrown + Stringify.Rendered :=
  Stringify.stringifyCollection stringify addComment (λ s, [s]) (λ s p, p +:+ s) 60
    coll sctx seqOptions.

End Sample.

(** ** nodes/YAMLSeq.ts, the remaining methods *)

Module YAMLSeqMore.
Import StringifyTypes.

(** [add]: [this.items] after the [push]. *)
Definition add (items : list Tree) (value : Tree) : list Tree := items ++ [value].

Section toString.
Variable stringify : Tree → StringifyContext → JS.thrown + Stringify.Rendered.
Variable addComment : string → string → option string → string.
Variable matchLines : string → list string.
Variable replaceLineStarts : string → string → string.
Variable maxFlowStringSingleLineLength : Z.
(** [JSON.stringify(this)] *)
Variable jsonStringify : Stringify.Collection → JS.thrown + string.

Definition blockItem (n : Stringify.StringifyNode) : string :=
  if Stringify.comment n then Stringify.str n else "- " +:+ Stringify.str n.

(** [toString]; the two callbacks are given or not, as in
    [StringifyCollectionOptions]. *)
Definition toString (this : Stringify.Collection) (ctx : option StringifyContext)
    (onComment onChompKeep : bool) : JS.thrown + Stringify.Rendered :=
  match ctx with
  | None =>
      match jsonStringify this with
      | inl e => inl e
      | inr s => inr (Stringify.mkRendered s false false)
      end
  | Some ctx =>
      Stringify.stringifyCollection stringify addComment matchLines replaceLineStarts
        maxFlowStringSingleLineLength this ctx
        (Stringify.mkOptions blockItem Stringify.Brackets
           ((if Stringify.truthyS (indent ctx) then indent ctx else "") +:+ "  ")
           onChompKeep onComment)
  end.
End toString.

End YAMLSeqMore.

(** ** public-api.ts, the remaining functions *)

Module PublicApiMore.

Section parse.
Variable LineCounter : Type.
Variable newLineCounter : LineCounter.
Variable composeStream :
  string → option (PublicApi.ParseOptions LineCounter) → option LineCounter →
  list Document * option LineCounter.
Variable prettifyError : string → LineCounter → YAMLParseError → YAMLParseError.
(** The stream information of an empty stream, opaque here. *)
Variable StreamInfo : Type.
(** As [composeStream], for [composer.end()] without arguments, with
    [composer.streamInfo()]. *)
Variable composeAll :
  string → option (PublicApi.ParseOptions LineCounter) → option LineCounter →
  list Document * option LineCounter * StreamInfo.
(** Reviver functions, and [doc.toJS(options)] with the reviver it finds
    in its options. *)
Variable Reviver : Type.
Variable toJS :
  Document → option Reviver → option (PublicApi.ParseOptions LineCounter) →
  JS.thrown + JS.value.

Inductive AllDocuments :=
| Documents (docs : list Document)
| EmptyStream (info : StreamInfo).        (* [[]] with [empty: true] *)

Definition prettify (source : string) (lc : LineCounter) (doc : Document) : Document :=
  mkDocument (contents doc)
    (prettifyError source lc <$> errors doc)
    (prettifyError source lc <$> warnings doc)
    (doc_range doc) (Nodes.options doc).

Definition parseAllDocuments (source : string)
    (options : option (PublicApi.ParseOptions LineCounter)) : AllDocuments :=
  let '(lineCounter, prettyErrors) :=
    PublicApi.parseOptions LineCounter newLineCounter options in
  let '(docs, lineCounter, info) := composeAll source options lineCounter in
  let docs :=
    match prettyErrors, lineCounter with
    | true, Some lc => prettify source lc <$> docs
    | _, _ => docs
    end in
  if Nat.ltb 0 (length docs) then Documents docs else EmptyStream info.

(** The second argument of [parse]: nothing, a reviver function or an
    options object. *)
Inductive ReviverArg :=
| NoReviver
| ReviverFunction (f : Reviver)
| ReviverObject (o : PublicApi.ParseOptions LineCounter).

(** What [parse] does: it throws the first error of the document, or
    returns [null] or what [doc.toJS] gives; [warned] are the warnings
    handed to [warn], with the log level. *)
Inductive ParseOutcome :=
| Throws (e : YAMLParseError)
| Null
| ToJS (r : JS.thrown + JS.value).

Record ParseResult := mkParseResult {
  warned : list (string * YAMLParseError);
  outcome : ParseOutcome
}.

(** The options that [parse] hands on: the third argument, or the second
    when it is an object and the third is missing. *)
Definition effective (reviver : ReviverArg)
    (options : option (PublicApi.ParseOptions LineCounter))
  : option (PublicApi.ParseOptions LineCounter) :=
  match reviver, options with
  | ReviverObject o, None => Some o
  | _, _ => options
  end.

Definition clearErrors (doc : Document) : Document :=
  mkDocument (contents doc) [] (warnings doc) (doc_range doc) (Nodes.options doc).

Definition parse (src : string) (reviver : ReviverArg)
    (options : option (PublicApi.ParseOptions LineCounter)) : ParseResult :=
  let _reviver := match reviver with ReviverFunction f => Some f | _ => None end in
  let options :=
    match reviver, options with
    | ReviverObject o, None => Some o
    | _, _ => options
    end in
  match PublicApi.parseDocument LineCounter newLineCounter composeStream prettifyError
          src options with
  | None => mkParseResult [] Null
  | Some doc =>
      let warned := (λ w, (logLevel (Nodes.options doc), w)) <$> warnings doc in
      match errors doc with
      | e :: _ =>
          if negb (String.eqb (logLevel (Nodes.options doc)) "silent")
          then mkParseResult warned (Throws e)
          else mkParseResult warned (ToJS (toJS (clearErrors doc) _reviver options))
      | [] => mkParseResult warned (ToJS (toJS doc _reviver options))
      end
  end.
End parse.

(** *** [stringify] *)

(** [Math.round] *)
Definition round (n : JS.number) : JS.number :=
  match n with
  | JS.Fraction num den => JS.Int ((2 * num + Z.pos den) / (2 * Z.pos den))
  | _ => n
  end.

(** [a < b] and [a > b] against an integer constant. *)
Definition ltInt (n : JS.number) (k : Z) : bool :=
  match n with
  | JS.Int z => (z <? k)%Z
  | JS.Fraction num den => (num <? k * Z.pos den)%Z
  | JS.NaN => false
  | JS.Infinity negative => negative
  end.
Definition gtInt (n : JS.number) (k : Z) : bool :=
  match n with
  | JS.Int z => (z >? k)%Z
  | JS.Fraction num den => (num >? k * Z.pos den)%Z
  | JS.NaN => false
  | JS.Infinity negative => negb negative
  end.

Section stringify.
(** Replacer functions, opaque. *)
Variable ReplacerFunction : Type.

(** An options object, by its properties. *)
Definition Options : Type := gmap string JS.value.

(** The second and the third argument of [stringify]. *)
Inductive ReplacerArg :=
| ReplacerUndefined
| ReplacerNull
| ReplacerFn (f : ReplacerFunction)
| ReplacerArray (keys : list JS.value)
| ReplacerObject (o : Options).
Inductive OptionsArg :=
| OptionsUndefined
| OptionsString (s : string)
| OptionsNumber (n : JS.number)
| OptionsObject (o : Options).

(** [new Document(value, _replacer, options).toString(options)], with the
    [Replacer | null] that is left of the second argument. *)
Variable documentToString : Tree → ReplacerArg → option Options → JS.thrown + string.

(** The options after the first three [if]s. *)
Definition normalize (replacer : ReplacerArg) (options : OptionsArg) : option Options :=
  let options :=
    match replacer, options with
    | ReplacerFn _, _ | ReplacerArray _, _ => options
    | ReplacerObject o, OptionsUndefined => OptionsObject o
    | _, _ => options
    end in
  let options :=
    match options with
    | OptionsString s => OptionsNumber (JS.Int (Z.of_nat (String.length s)))
    | _ => options
    end in
  match options with
  | OptionsNumber n =>
      let indent := round n in
      if ltInt indent 1 then None
      else if gtInt indent 8 then Some {[ "indent" := JS.num (JS.Int 8) ]}
      else Some {[ "indent" := JS.num indent ]}
  | OptionsObject o => Some o
  | _ => None
  end.

(** [value === undefined] *)
Definition isUndefined (value : Tree) : bool :=
  match value with Value JS.undefined => true | _ => false end.

(** [stringify]: [None] is [undefined]. *)
Definition stringify (value : Tree) (replacer : ReplacerArg) (options : OptionsArg)
  : JS.thrown + option string :=
  let _replacer :=
    match replacer with
    | ReplacerFn _ | ReplacerArray _ => replacer
    | _ => ReplacerNull
    end in
  let options := normalize replacer options in
  let keepUndefined : bool :=
    match options with
    | Some o => from_option JS.truthy false (o !! "keepUndefined")
    | None =>
        match replacer with
        | ReplacerObject o => from_option JS.truthy false (o !! "keepUndefined")
        | _ => false
        end
    end in
  if isUndefined value && negb keepUndefined then inr None
  else
    match documentToString value _replacer options with
    | inl e => inl e
    | inr s => inr (Some s)
    end.
End stringify.

End PublicApiMore.

(** ** Notions used by the further properties *)

Module More.
Import Compose.

(** No alias anywhere in the tree. *)
Fixpoint aliasFree (t : Tree) : bool :=
  let fix each (l : list Tree) : bool :=
    match l with
    | [] => true
    | item :: l' => aliasFree item && each l'
    end in
  match t with
  | Alias _ => false
  | YAMLMap _ _ _ items | YAMLSeq _ _ _ items => each items
  | Pair _ k v => aliasFree k && aliasFree v
  | _ => true
  end.

(** [n] successive calls of [toJSON] on one alias: the outcome of the last
    one and the context it leaves. *)
Fixpoint toJSONs (n : nat) (this : AliasT) (ctx : Alias.ToJSContext)
  : option (JS.thrown + Alias.Json) * option Alias.ToJSContext :=
  match n with
  | O => (None, Some ctx)
  | S n =>
      match toJSONs n this ctx with
      | (_, Some ctx) =>
          let '(r, ctx) := Alias.toJSON this (Some ctx) in (Some r, ctx)
      | (r, None) => (r, None)
      end
  end.

(** What [YAMLSeq.set] leaves at the index: the old scalar node with the
    new value, or the value itself. *)
Definition stored (isScalarValue : Tree → bool) (items : list Tree) (z : Z)
    (value : Tree) : Tree :=
  match YAMLSeq.itemAt items z with
  | Scalar b a _ =>
      if isScalarValue value then Scalar b a (YAMLSeq.asValue value) else value
  | _ => value
  end.

(** The errors that only strict mode reports. *)
Definition strictOnly (c : ErrorCode) : bool :=
  match c with
  | COMMENT_SPACE | MULTILINE_IMPLICIT_KEY | KEY_OVER_1024_CHARS => true
  | _ => false
  end.

(** No error that only strict mode reports. *)
Definition lenient (es : list YAMLParseError) : Prop :=
  Forall (λ e, strictOnly (code e) = false) es.

(** A token that the [switch] hands to [composeNode]. *)
Definition isValueToken (t : Token.t) : bool :=
  match Token.type t with
  | TokenType.block_map | TokenType.block_seq | TokenType.other _ => true
  | _ => false
  end.

(** An item that [stringifyCollection] renders as one string: nothing is
    put on lines before it. *)
Definition noLinesBefore (item : Tree) : bool :=
  negb (isNode item || isPair item)
  || (negb (spaceBeforeOf item) && negb (truthyStr (commentBeforeOf item))).

(** The comment that is left for [addComment] after [stringify] has run on
    the item. *)
Definition commentLeft (item : Tree) (r : Stringify.Rendered) : option string :=
  if Stringify.r_onComment r then None
  else if (isNode item || isPair item) && truthyStr (commentOf item)
       then commentOf item else None.

(** The string pushed for the item at index [i] of [n]: what [stringify]
    gave, with a comma in flow context unless the item is the last, and
    then the comment that is left. *)
Definition itemString (addComment : string → string → option string → string)
    (itemIndent : string) (inFlow : bool) (n i : nat) (item : Tree)
    (r : Stringify.Rendered) : string :=
  addComment
    (if inFlow && Nat.ltb i (n - 1) then Stringify.r_str r +:+ "," else Stringify.r_str r)
    itemIndent (commentLeft item r).
Fixpoint itemStrings (addComment : string → string → option string → string)
    (itemIndent : string) (inFlow : bool) (n i : nat) (items : list Tree)
    (rs : list Stringify.Rendered) : list string :=
  match items, rs with
  | item :: items, r :: rs =>
      itemString addComment itemIndent inFlow n i item r
      :: itemStrings addComment itemIndent inFlow n (S i) items rs
  | _, _ => []
  end.

End More.

(** ** Further samples *)

Module SampleMore.
Import Compose.

(** A [toJS] that gives the value of a scalar document, and a
    [composer.end()] that hands over all the documents of
    [Sample.twoDocs]. *)
Definition toJS (d : Document) (_ : option ()) (_ : option (PublicApi.ParseOptions ()))
  : JS.thrown + JS.value :=
  match contents d with
  | Scalar _ _ v => inr v
  | _ => inr JS.undefined
  end.
Definition composeAll (_ : string) (_ : option (PublicApi.ParseOptions ()))
    (lc : option ()) : list Document * option () * () :=
  ([Sample.first "warn"; Sample.second], lc, ()).

(** A [Document.toString] that only tells which indent it was given. *)
Definition documentToString (_ : Tree) (_ : PublicApiMore.ReplacerArg ())
    (options : option PublicApiMore.Options) : JS.thrown + string :=
  match options with
  | Some o =>
      match o !! "indent" with
      | Some (JS.num (JS.Int 8)) => inr "indent 8"
      | _ => inr "indented"
      end
  | None => inr "plain"
  end.

(** [[ a b ]], [[ , a ]], a block map inside [[ ]], [{ a: b }], and [[ a]
    without its closing bracket. *)
Definition twoValues : FlowCollection :=
  mkFlowCollection 0 (Sample.bracket 0 "[")
    [Token.mk TokenType.space 1 " "; Sample.scalar 2 "a";
     Token.mk TokenType.space 3 " "; Sample.scalar 4 "b"; Token.mk TokenType.space 5 " "]
    [Sample.bracket 6 "]"].
Definition leadingComma : FlowCollection :=
  mkFlowCollection 0 (Sample.bracket 0 "[")
    [Token.mk TokenType.space 1 " "; Token.mk TokenType.comma 2 ",";
     Token.mk TokenType.space 3 " "; Sample.scalar 4 "a"; Token.mk TokenType.space 5 " "]
    [Sample.bracket 6 "]"].
Definition blockInside : FlowCollection :=
  mkFlowCollection 0 (Sample.bracket 0 "[")
    [Token.mk TokenType.space 1 " "; Token.mk TokenType.block_map 2 "a: b"]
    [Sample.bracket 6 "]"].
Definition flowMap : FlowCollection :=
  mkFlowCollection 0 (Sample.bracket 0 "{")
    [Token.mk TokenType.space 1 " "; Sample.scalar 2 "a";
     Token.mk TokenType.map_value_ind 3 ":"; Token.mk TokenType.space 4 " ";
     Sample.scalar 5 "b"; Token.mk TokenType.space 6 " "]
    [Sample.bracket 7 "}"].
Definition unclosed : FlowCollection :=
  mkFlowCollection 0 (Sample.bracket 0 "[") [Sample.scalar 1 "a"] [].

(** A [stringify] for the items: a string scalar gives its text, and
    calls [onChompKeep] when the text has a line break; an alias gives what
    [Alias.toString] gives, so that an unresolved alias throws. *)
Definition stringify (item : Tree) (ctx : StringifyTypes.StringifyContext)
  : JS.thrown + Stringify.Rendered :=
  match item with
  | Scalar _ _ (JS.str s) =>
      inr (Stringify.mkRendered s false (Stringify.includesNewline s))
  | Alias a =>
      match Alias.toString (λ _, None) a (Some ctx) with
      | inl e => inl e
      | inr s => inr (Stringify.mkRendered s false false)
      end
  | _ => inr (Stringify.mkRendered "?" false false)
  end.
Definition sctx : StringifyTypes.StringifyContext :=
  StringifyTypes.mkSCtx ∅ false "" "  " false None true.
Definition jsonStringify (_ : Stringify.Collection) : JS.thrown + string := inr "[]".
Definition toString (this : Stringify.Collection) (onChompKeep : bool)
  : JS.thrown + Stringify.Rendered :=
  YAMLSeqMore.toString stringify Sample.addComment (λ s, [s]) (λ s p, p +:+ s) 60
    jsonStringify this (Some sctx) false onChompKeep.
Definition kept : Tree := Scalar (Sample.base 1) None (JS.str ("a" +:+ String "010" "")).
Definition commented : Tree :=
  Scalar (mkBase 2 None (Some "c") None false None) None (JS.str "b").

(** [[ one, "a\n" ]] and [[ one, b # c ]] as block sequences, [[ one, two ]]
    as a flow sequence, and a sequence with an unresolved alias. *)
Definition keptSeq : Stringify.Collection :=
  Stringify.mkCollection None false [Sample.one; kept].
Definition blockSeq : Stringify.Collection :=
  Stringify.mkCollection None false [Sample.one; commented].
Definition flowSeq : Stringify.Collection :=
  Stringify.mkCollection None true [Sample.one; Sample.two].
Definition danglingSeq : Stringify.Collection :=
  Stringify.mkCollection None false [Sample.one; Alias Sample.dangling; Sample.two].
Definition seqOptions (onChompKeep : bool) : Stringify.StringifyCollectionOptions :=
  Stringify.mkOptions YAMLSeqMore.blockItem Stringify.Brackets "  " onChompKeep false.

End SampleMore.


(** * Properties *)

(** ** The walk of [visit] *)

Section visit_facts.
Context {S : Type} (f : Tree → S → Visit.Control * S).

Lemma run_app (l1 l2 : list Tree) (s : S) :
  Visit.run f (l1 ++ l2) s =
  match Visit.run f l1 s with
  | (Visit.BREAK, s') => (Visit.BREAK, s')
  | (Visit.Continue, s') => Visit.run f l2 s'
  end.
Proof.
  revert s. induction l1 as [|n l1 IH]; intros s; simpl; [done|].
  destruct (f n s) as [[] s']; [apply IH | done].
Qed.

(** [visit_] calls the visitor on the nodes in document order. *)
Lemma visit_run (t : Tree) (s : S) :
  Visit.visit_ f t s = Visit.run f (Visit.nodesOf t) s.
Proof.
  revert s. induction t as [b a v|b a fl items IH|b a fl items IH|a|b k v IHk IHv|v]
    using Tree_nested_ind; intros s; simpl.
  - by destruct (f _ s) as [[] ?].
  - destruct (f _ s) as [[] s']; [|done].
    clear s. revert s'. induction IH as [|x l Hx _ IHl]; intros s; [done|].
    rewrite run_app, <- Hx. destruct (Visit.visit_ f x s) as [[] ?]; [apply IHl | done].
  - destruct (f _ s) as [[] s']; [|done].
    clear s. revert s'. induction IH as [|x l Hx _ IHl]; intros s; [done|].
    rewrite run_app, <- Hx. destruct (Visit.visit_ f x s) as [[] ?]; [apply IHl | done].
  - by destruct (f _ s) as [[] ?].
  - rewrite run_app, <- IHk. destruct (Visit.visit_ f k s) as [[] ?]; [apply IHv | done].
  - done.
Qed.
End visit_facts.

(** ** nodes/Alias.ts *)

Section alias_facts.
Import Order.

Lemma resolve_run (this : AliasT) (l : list Tree) (found : option Tree) :
  snd (Visit.run (Alias.resolveVisitor this) l found) =
  match lastAnchored (source this) (before (alias_base this) l) with
  | Some n => Some n
  | None => found
  end.
Proof.
  unfold lastAnchored.
  revert found. induction l as [|n l IH]; intros found; simpl; [done|].
  unfold Alias.resolveVisitor at 1.
  destruct (sameObject n (alias_base this)); simpl; [done|].
  rewrite filter_cons. case_bool_decide as Hn; case_decide; try done.
  rewrite IH, last_cons. by destruct (last _).
Qed.

Lemma resolve_lastAnchored (this : AliasT) (doc : Document) :
  Alias.resolve this doc = lastAnchored (source this) (preceding this doc).
Proof.
  unfold Alias.resolve, Visit.visit, preceding.
  rewrite visit_run, resolve_run. by destruct (lastAnchored _ _).
Qed.

Lemma lastAnchored_shadow (label : string) (pre post : list Tree) (n : Tree) :
  anchored label n → (∀ m, m ∈ post → ¬ anchored label m) →
  lastAnchored label (pre ++ n :: post) = Some n.
Proof.
  intros Hn Hpost. unfold lastAnchored.
  rewrite filter_app, filter_cons_True by done.
  replace (filter (anchored label) post) with (@nil Tree).
  - by rewrite last_app.
  - symmetry. induction post as [|m post IH]; [done|].
    rewrite filter_cons_False by (apply Hpost; left).
    apply IH. intros m' Hm'. apply Hpost. by right.
Qed.

Lemma lastAnchored_None (label : string) (l : list Tree) :
  (∀ n, n ∈ l → ¬ anchored label n) → lastAnchored label l = None.
Proof.
  intros H. unfold lastAnchored.
  induction l as [|m l IH]; [done|].
  rewrite filter_cons_False by (apply H; left).
  apply IH. intros n Hn. apply H. by right.
Qed.

(** When the alias is in the document, the nodes before it are a prefix of
    the document order that ends at the alias itself. *)
Lemma before_split (b : NodeBase) (l : list Tree) :
  (∃ n, n ∈ l ∧ sameObject n b = true) →
  ∃ n post, l = before b l ++ n :: post ∧ sameObject n b = true.
Proof.
  induction l as [|m l IH]; intros (n & Hin & Hn); [by inversion Hin|].
  simpl. destruct (sameObject m b) eqn:Hm.
  - by exists m, l.
  - destruct IH as (n' & post & Heq & Hn').
    + exists n. split; [|done]. inversion Hin; subst; [congruence | done].
    + exists n', post. split; [|done]. simpl. by f_equal.
Qed.
End alias_facts.

Section alias_claims.
Import Order.

(** C3. [Alias.resolve] returns the last node, in document order, that
    precedes the alias and whose anchor is the alias's [source]; when
    several preceding nodes carry that anchor, the latest one shadows the
    earlier ones. *)
Theorem resolve_last_preceding (this : AliasT) (doc : Document) :
  Alias.resolve this doc
    = last (filter (anchored (source this)) (preceding this doc))
  ∧ ∀ pre n post,
      preceding this doc = pre ++ n :: post →
      anchored (source this) n →
      (∀ m, m ∈ post → ¬ anchored (source this) m) →
      Alias.resolve this doc = Some n.
Proof.
  split; [apply resolve_lastAnchored|].
  intros pre n post Hsplit Hn Hpost.
  rewrite resolve_lastAnchored, Hsplit. by apply lastAnchored_shadow.
Qed.

Lemma resolve_last_preceding_witness :
  Alias.resolve Sample.star Sample.doc = Some Sample.two.
Proof.
  apply (proj2 (resolve_last_preceding Sample.star Sample.doc)
           [Sample.seq; Sample.one] Sample.two []).
  - reflexivity.
  - reflexivity.
  - intros m Hm. inversion Hm.
Defined.

Lemma anchorsGet_put (m : gmap nat Alias.AnchorData) (node : Tree)
    (d d' : Alias.AnchorData) :
  Alias.anchorsGet m node = Some d →
  Alias.anchorsGet (Alias.anchorsPut m node d') node = Some d'.
Proof.
  unfold Alias.anchorsGet, Alias.anchorsPut.
  destruct (baseOf node); simpl; [|done]. intros _. apply lookup_insert_eq.
Qed.

Section double_facts.
#[local] Open Scope Z_scope.

(** [JS.double] keeps the integers of at most 53 bits, and the sign. *)
Lemma double_small (z : Z) : (Z.abs z ≤ 2 ^ 53)%Z → JS.double z = z.
Proof.
  intros Hz. destruct (Z.eq_dec (Z.abs z) (2 ^ 53)%Z) as [Heq|Hne].
  - assert (z = 2 ^ 53 ∨ z = - 2 ^ 53)%Z as [-> | ->] by lia; reflexivity.
  - unfold JS.double.
    assert (Z.log2 (Z.abs z) - 52 ≤ 0)%Z as He.
    { destruct (Z.eq_dec (Z.abs z) 0) as [-> | Hpos]; [done|].
      assert (Z.log2 (Z.abs z) < 53)%Z; [|lia].
      apply Z.log2_lt_pow2; lia. }
    by apply Z.leb_le in He as ->.
Qed.

Lemma double_pos (z : Z) : (0 < z)%Z → (0 < JS.double z)%Z.
Proof.
  intros Hz. unfold JS.double.
  destruct (Z.leb_spec (Z.log2 (Z.abs z) - 52) 0) as [He|He]; [done|].
  rewrite Z.abs_eq in * by lia.
  set (u := (2 ^ (Z.log2 z - 52))%Z).
  assert (0 < u)%Z as Hu by (apply Z.pow_pos_nonneg; lia).
  assert (u ≤ z)%Z as Huz.
  { trans (2 ^ Z.log2 z)%Z; [apply Z.pow_le_mono_r; lia|].
    apply Z.log2_spec, Hz. }
  assert (0 < z / u)%Z as Hq by (apply Z.div_str_pos; lia).
  repeat case_match; nia.
Qed.

Lemma double_nonpos (z : Z) : (z ≤ 0)%Z → (JS.double z ≤ 0)%Z.
Proof.
  intros Hz. unfold JS.double.
  destruct (Z.leb_spec (Z.log2 (Z.abs z) - 52) 0) as [He|He]; [done|].
  set (u := (2 ^ (Z.log2 (Z.abs z) - 52))%Z).
  assert (0 < u)%Z as Hu by (apply Z.pow_pos_nonneg; lia).
  assert (z ≠ 0%Z) as Hne by (intros ->; simpl in He; lia).
  assert (z / u < 0)%Z as Hq by (apply Z.div_lt_upper_bound; lia).
  repeat case_match; nia.
Qed.

Lemma double_nonneg (z : Z) : (0 ≤ z)%Z → (0 ≤ JS.double z)%Z.
Proof.
  intros Hz. destruct (Z.eq_dec z 0%Z) as [-> | Hne]; [done|].
  assert (0 < JS.double z)%Z by (apply double_pos; lia). lia.
Qed.

(** Counting one up is exact from [-2^53] to [2^53 - 1], and at [2^53] the
    count stays. *)
Lemma double_succ (c : Z) :
  (- 2 ^ 53 ≤ c ≤ 2 ^ 53)%Z → (c ≤ JS.double (c + 1) ≤ c + 1)%Z.
Proof.
  intros Hc. destruct (Z.eq_dec c (2 ^ 53)%Z) as [-> | Hne].
  - by vm_compute.
  - rewrite double_small; lia.
Qed.
End double_facts.

(** [toJSON] on an alias that resolves to a converted anchor. *)
Lemma toJSON_resolved (this : AliasT) (ctx : Alias.ToJSContext)
    (node : Tree) (data : Alias.AnchorData) :
  Alias.resolve this (Alias.doc ctx) = Some node →
  Alias.anchorsGet (Alias.anchors ctx) node = Some data →
  Alias.res data ≠ JS.undefined →
  Alias.toJSON this (Some ctx) =
    if (Alias.maxAliasCount ctx >=? 0)%Z then
      let count := JS.double (Alias.count data + 1) in
      let anchors1 :=
        Alias.anchorsPut (Alias.anchors ctx) node
          (Alias.mkData (Alias.aliasCount data) count (Alias.res data)) in
      let aliasCount :=
        if (Alias.aliasCount data =? 0)%Z
        then Alias.getAliasCount (Alias.doc ctx) node anchors1
        else Alias.aliasCount data in
      let ctx2 :=
        Alias.mkToJS
          (Alias.anchorsPut anchors1 node
             (Alias.mkData aliasCount count (Alias.res data)))
          (Alias.doc ctx) (Alias.maxAliasCount ctx) in
      if (JS.double (count * aliasCount) >? Alias.maxAliasCount ctx)%Z
      then (inl (JS.ReferenceError Alias.excessiveMsg), Some ctx2)
      else (inr (Alias.Res (Alias.res data)), Some ctx2)
    else (inr (Alias.Res (Alias.res data)), Some ctx).
Proof.
  intros Hres Hget Hdef. unfold Alias.toJSON. rewrite Hres, Hget.
  rewrite bool_decide_eq_false_2 by done.
  destruct (Alias.maxAliasCount ctx >=? 0)%Z; [|done]. simpl.
  by destruct (Alias.aliasCount data =? 0)%Z.
Qed.

(** The size that [getAliasCount] computes is the largest of the sizes of
    the leaves, and 0 when there is no leaf. *)
Lemma foldr_max_base (l : list Z) (b : Z) :
  (0 ≤ b)%Z → foldr Z.max b l = Z.max (foldr Z.max 0%Z l) b.
Proof. intros Hb. induction l as [|x l IH]; simpl; lia. Qed.

Lemma foldr_max_app (l1 l2 : list Z) :
  foldr Z.max 0%Z (l1 ++ l2) = Z.max (foldr Z.max 0%Z l1) (foldr Z.max 0%Z l2).
Proof.
  rewrite foldr_app. apply foldr_max_base.
  induction l2 as [|x l IH]; simpl; lia.
Qed.

Lemma each_leaves (f : Tree → Z) (g : Tree → list Z) (items : list Tree) :
  Forall (λ item, f item = foldr Z.max 0%Z (g item)) items →
  ∀ c, (0 ≤ c)%Z →
  (fix each (items : list Tree) (count : Z) : Z :=
     match items with
     | [] => count
     | item :: items' =>
         let c := f item in each items' (if (c >? count)%Z then c else count)
     end) items c
  = Z.max c (foldr Z.max 0%Z (flat_map g items)).
Proof.
  induction 1 as [|x l Hx _ IH]; intros c Hc; simpl.
  - lia.
  - rewrite Hx, foldr_max_app.
    destruct (Z.gtb_spec (foldr Z.max 0%Z (g x)) c); rewrite IH; lia.
Qed.

Lemma getAliasCount_leaves (doc : Document) (anchors : gmap nat Alias.AnchorData)
    (node : Tree) :
  (∀ k d, anchors !! k = Some d → (0 ≤ Alias.count d)%Z ∧ (0 ≤ Alias.aliasCount d)%Z) →
  Alias.getAliasCount doc node anchors
  = foldr Z.max 0%Z (Alias.leafSizes doc anchors node).
Proof.
  intros Hpos.
  induction node as [b a v|b a fl items IH|b a fl items IH|a|b k v IHk IHv|v]
    using Tree_nested_ind; simpl; try done.
  - rewrite (each_leaves (λ item, Alias.getAliasCount doc item anchors)
               (Alias.leafSizes doc anchors)) by done.
    apply Z.max_r. induction (flat_map _ _); simpl; lia.
  - rewrite (each_leaves (λ item, Alias.getAliasCount doc item anchors)
               (Alias.leafSizes doc anchors)) by done.
    apply Z.max_r. induction (flat_map _ _); simpl; lia.
  - destruct (Alias.resolve a doc) as [n|]; simpl; [|done].
    unfold Alias.anchorsGet. destruct (baseOf n) as [bn|]; simpl; [|done].
    destruct (anchors !! addr bn) as [d|] eqn:Hd; [|done].
    destruct (Hpos _ _ Hd).
    assert (0 ≤ JS.double (Alias.count d * Alias.aliasCount d))%Z
      by (apply double_nonneg; nia).
    lia.
  - by rewrite foldr_max_app, IHk, IHv.
Qed.

(** C1. With a non-negative [maxAliasCount], converting an alias counts the
    reference on the entry of its anchor and takes as alias-subtree size the
    [aliasCount] of that entry, which [getAliasCount] computes on the anchor
    node when the entry has none yet: the largest of the sizes of the leaves
    under the anchor, when no entry holds a negative number.  It throws the
    excessive-alias-count error exactly when the count multiplied by that
    size exceeds [maxAliasCount], and returns the value of the anchor
    otherwise.  The count is the earlier one plus one, and the product is
    exact, as long as they are integers of at most 53 bits.  With a negative
    [maxAliasCount] nothing is counted and that error is never thrown. *)
Theorem alias_count_guard (this : AliasT) (ctx : Alias.ToJSContext) :
  (∀ node data,
      (0 ≤ Alias.maxAliasCount ctx)%Z →
      Alias.resolve this (Alias.doc ctx) = Some node →
      Alias.anchorsGet (Alias.anchors ctx) node = Some data →
      Alias.res data ≠ JS.undefined →
      let count := JS.double (Alias.count data + 1) in
      let counted :=
        Alias.anchorsPut (Alias.anchors ctx) node
          (Alias.mkData 0 count (Alias.res data)) in
      let size :=
        if (Alias.aliasCount data =? 0)%Z
        then Alias.getAliasCount (Alias.doc ctx) node counted
        else Alias.aliasCount data in
      ((- 2 ^ 53 ≤ Alias.count data < 2 ^ 53)%Z → count = (Alias.count data + 1)%Z)
      ∧ (Alias.aliasCount data = 0%Z →
         (∀ k d, Alias.anchors ctx !! k = Some d →
                 (0 ≤ Alias.count d)%Z ∧ (0 ≤ Alias.aliasCount d)%Z) →
         size = foldr Z.max 0%Z (Alias.leafSizes (Alias.doc ctx) counted node))
      ∧ (∃ ctx',
           snd (Alias.toJSON this (Some ctx)) = Some ctx'
           ∧ Alias.anchorsGet (Alias.anchors ctx') node
             = Some (Alias.mkData size count (Alias.res data)))
      ∧ fst (Alias.toJSON this (Some ctx))
        = (if (Alias.maxAliasCount ctx <? JS.double (count * size))%Z
           then inl (JS.ReferenceError Alias.excessiveMsg)
           else inr (Alias.Res (Alias.res data)))
      ∧ ((Z.abs (count * size) ≤ 2 ^ 53)%Z →
         fst (Alias.toJSON this (Some ctx)) = inl (JS.ReferenceError Alias.excessiveMsg)
         ↔ (Alias.maxAliasCount ctx < count * size)%Z))
  ∧ ((Alias.maxAliasCount ctx < 0)%Z →
     fst (Alias.toJSON this (Some ctx)) ≠ inl (JS.ReferenceError Alias.excessiveMsg)
     ∧ snd (Alias.toJSON this (Some ctx)) = Some ctx).
Proof.
  split.
  - intros node data Hmax Hres Hget Hdef count counted size.
    rewrite (toJSON_resolved this ctx node data Hres Hget Hdef).
    rewrite Z.geb_leb. rewrite (proj2 (Z.leb_le _ _) Hmax). cbv zeta.
    fold count.
    assert ((if (Alias.aliasCount data =? 0)%Z
             then Alias.getAliasCount (Alias.doc ctx) node
                    (Alias.anchorsPut (Alias.anchors ctx) node
                       (Alias.mkData (Alias.aliasCount data) count (Alias.res data)))
             else Alias.aliasCount data) = size) as ->.
    { unfold size, counted. by destruct (Z.eqb_spec (Alias.aliasCount data) 0) as [-> | ?]. }
    rewrite Z.gtb_ltb.
    split; [intros Hc; apply double_small; lia|].
    split.
    { intros Hzero Hpos. unfold size. rewrite Hzero. simpl.
      apply getAliasCount_leaves. intros k d. unfold counted, Alias.anchorsPut.
      destruct (baseOf node) as [b|]; [|apply Hpos].
      destruct (decide (addr b = k)) as [<- | Hne].
      - rewrite lookup_insert_eq. intros [= <-]. simpl.
        revert Hget. unfold Alias.anchorsGet.
        destruct (baseOf node) as [b'|] eqn:Hb'; [|done]. simpl. intros Hget.
        split; [|done]. apply double_nonneg.
        assert (∃ k', Alias.anchors ctx !! k' = Some data) as [k' Hk'] by eauto.
        destruct (Hpos _ _ Hk'). lia.
      - rewrite lookup_insert_ne by done. apply Hpos. }
    split.
    { eexists. split; [by destruct (_ <? _)%Z|].
      simpl. eapply anchorsGet_put, anchorsGet_put, Hget. }
    split; [by destruct (_ <? _)%Z|].
    intros Hsmall. rewrite (double_small _ Hsmall).
    destruct (Z.ltb_spec (Alias.maxAliasCount ctx) (count * size)); simpl.
    + done.
    + split; [discriminate | lia].
  - intros Hneg. unfold Alias.toJSON.
    destruct (Alias.resolve this (Alias.doc ctx)) as [node|]; [|by split].
    destruct (Alias.anchorsGet _ node) as [data|]; [|by split].
    case_bool_decide; [by split|].
    rewrite Z.geb_leb. rewrite (proj2 (Z.leb_gt _ _) Hneg). by split.
Qed.

Lemma alias_count_guard_witness :
  fst (Alias.toJSON Sample.star (Some (Sample.ctx 0)))
    = inl (JS.ReferenceError Alias.excessiveMsg)
  ∧ fst (Alias.toJSON Sample.star (Some (Sample.ctx (-1))))
    ≠ inl (JS.ReferenceError Alias.excessiveMsg).
Proof.
  split.
  - destruct (proj1 (alias_count_guard Sample.star (Sample.ctx 0))
                Sample.two (Alias.mkData 0 0 (JS.str "two")))
      as (_ & _ & _ & Hfst & _).
    + simpl. lia.
    + reflexivity.
    + reflexivity.
    + discriminate.
    + exact Hfst.
  - apply (proj2 (alias_count_guard Sample.star (Sample.ctx (-1)))).
    simpl. lia.
Defined.
End alias_claims.

Section alias_zero_max.

(** C2, as stated, fails: in [[ &s text, *s ]] the one alias is well
    formed, and with [maxAliasCount = 0] its conversion throws the
    excessive-alias-count error. *)
Lemma zero_max_rejects_scalar_alias :
  Alias.maxAliasCount (Sample.ctxS 0) = 0%Z
  ∧ Alias.resolve Sample.starS (Alias.doc (Sample.ctxS 0)) = Some Sample.text
  ∧ fst (Alias.toJSON Sample.starS (Some (Sample.ctxS 0)))
    = inl (JS.ReferenceError Alias.excessiveMsg).
Proof. repeat split. Qed.

(** The alias-subtree size of a node without aliases: 0 when nothing but
    collections is under it, 1 otherwise. *)
Lemma each_flat (f : Tree → Z) (h : Tree → bool) (items : list Tree) :
  Forall (λ item, f item = if h item then 0%Z else 1%Z) items →
  ∀ c, c = 0%Z ∨ c = 1%Z →
  (fix each (items : list Tree) (count : Z) : Z :=
     match items with
     | [] => count
     | item :: items' =>
         let c := f item in each items' (if (c >? count)%Z then c else count)
     end) items c
  = if (c =? 0)%Z && forallb h items then 0%Z else 1%Z.
Proof.
  induction 1 as [|x l Hx _ IH]; intros c Hc; simpl.
  - destruct Hc as [-> | ->]; reflexivity.
  - rewrite Hx. destruct (h x), Hc as [-> | ->]; simpl; rewrite IH by auto; done.
Qed.

Lemma getAliasCount_hollow (doc : Document) (anchors : gmap nat Alias.AnchorData)
    (node : Tree) :
  More.aliasFree node = true →
  Alias.getAliasCount doc node anchors = if Alias.hollow node then 0%Z else 1%Z.
Proof.
  induction node as [b a v|b a fl items IH|b a fl items IH|a|b k v IHk IHv|v]
    using Tree_nested_ind; intros Hfree; simpl in *; try done.
  - rewrite (each_flat (λ item, Alias.getAliasCount doc item anchors) Alias.hollow);
      [done | | by left].
    induction IH as [|x l Hx _ IHl]; [done|].
    apply andb_true_iff in Hfree as [Hx' Hl'].
    constructor; [by apply Hx | by apply IHl].
  - rewrite (each_flat (λ item, Alias.getAliasCount doc item anchors) Alias.hollow);
      [done | | by left].
    induction IH as [|x l Hx _ IHl]; [done|].
    apply andb_true_iff in Hfree as [Hx' Hl'].
    constructor; [by apply Hx | by apply IHl].
  - apply andb_true_iff in Hfree as [Hk Hv].
    rewrite (IHk Hk), (IHv Hv). by destruct (Alias.hollow k), (Alias.hollow v).
Qed.

(** C2, amended. With [maxAliasCount = 0] the conversion of an alias
    succeeds exactly when the alias-subtree size of its anchor is 0, and
    throws the excessive-alias-count error exactly when that size is
    positive.  For an anchor without aliases inside whose size has not been
    computed yet, it succeeds exactly when nothing but collections is under
    the anchor; so it throws for an anchor on a scalar, whatever the number
    of earlier references, and succeeds for a collection without items. *)
Theorem zero_max_alias (this : AliasT) (ctx : Alias.ToJSContext)
    (node : Tree) (data : Alias.AnchorData) :
  Alias.maxAliasCount ctx = 0%Z →
  Alias.resolve this (Alias.doc ctx) = Some node →
  Alias.anchorsGet (Alias.anchors ctx) node = Some data →
  Alias.res data ≠ JS.undefined →
  (0 ≤ Alias.count data)%Z →
  let size :=
    if (Alias.aliasCount data =? 0)%Z
    then Alias.getAliasCount (Alias.doc ctx) node
           (Alias.anchorsPut (Alias.anchors ctx) node
              (Alias.mkData 0 (JS.double (Alias.count data + 1)) (Alias.res data)))
    else Alias.aliasCount data in
  (fst (Alias.toJSON this (Some ctx)) = inl (JS.ReferenceError Alias.excessiveMsg)
   ↔ (0 < size)%Z)
  ∧ (fst (Alias.toJSON this (Some ctx)) = inr (Alias.Res (Alias.res data))
     ↔ (size ≤ 0)%Z)
  ∧ (More.aliasFree node = true → Alias.aliasCount data = 0%Z →
     (fst (Alias.toJSON this (Some ctx)) = inr (Alias.Res (Alias.res data))
      ↔ Alias.hollow node = true)
     ∧ (size = if Alias.hollow node then 0%Z else 1%Z))
  ∧ (isScalar node = true → (0 ≤ Alias.aliasCount data)%Z →
     fst (Alias.toJSON this (Some ctx)) = inl (JS.ReferenceError Alias.excessiveMsg))
  ∧ (∀ b a fl, node = YAMLSeq b a fl [] ∨ node = YAMLMap b a fl [] →
     Alias.aliasCount data = 0%Z →
     fst (Alias.toJSON this (Some ctx)) = inr (Alias.Res (Alias.res data))).
Proof.
  intros Hmax Hres Hget Hdef Hcount size.
  rewrite (toJSON_resolved this ctx node data Hres Hget Hdef), Hmax. simpl.
  set (count := JS.double (Alias.count data + 1)).
  assert (0 < count)%Z as Hpos by (apply double_pos; lia).
  assert ((if (Alias.aliasCount data =? 0)%Z
           then Alias.getAliasCount (Alias.doc ctx) node
                  (Alias.anchorsPut (Alias.anchors ctx) node
                     (Alias.mkData (Alias.aliasCount data) count (Alias.res data)))
           else Alias.aliasCount data) = size) as ->.
  { unfold size. by destruct (Z.eqb_spec (Alias.aliasCount data) 0) as [-> | ?]. }
  assert ((JS.double (count * size) >? 0)%Z = (0 <? size)%Z) as Hgt.
  { rewrite Z.gtb_ltb. destruct (Z.ltb_spec 0 size) as [Hs|Hs].
    - apply Z.ltb_lt, double_pos. nia.
    - apply Z.ltb_ge, double_nonpos. nia. }
  rewrite Hgt.
  assert ((fst (if (0 <? size)%Z
                then (inl (JS.ReferenceError Alias.excessiveMsg),
                      Some (Alias.mkToJS
                              (Alias.anchorsPut
                                 (Alias.anchorsPut (Alias.anchors ctx) node
                                    (Alias.mkData (Alias.aliasCount data) count
                                       (Alias.res data)))
                                 node (Alias.mkData size count (Alias.res data)))
                              (Alias.doc ctx) 0))
                else (inr (Alias.Res (Alias.res data)),
                      Some (Alias.mkToJS
                              (Alias.anchorsPut
                                 (Alias.anchorsPut (Alias.anchors ctx) node
                                    (Alias.mkData (Alias.aliasCount data) count
                                       (Alias.res data)))
                                 node (Alias.mkData size count (Alias.res data)))
                              (Alias.doc ctx) 0)))
           : JS.thrown + Alias.Json)
          = if (0 <? size)%Z then inl (JS.ReferenceError Alias.excessiveMsg)
            else inr (Alias.Res (Alias.res data))) as ->
    by (by destruct (0 <? size)%Z).
  assert (More.aliasFree node = true → Alias.aliasCount data = 0%Z →
          size = if Alias.hollow node then 0%Z else 1%Z) as Hsize.
  { intros Hfree Hzero. unfold size. rewrite Hzero. simpl.
    by apply getAliasCount_hollow. }
  split; [|split; [|split; [|split]]].
  - destruct (Z.ltb_spec 0 size); split; (done || lia).
  - destruct (Z.ltb_spec 0 size); split; (done || lia).
  - intros Hfree Hzero. specialize (Hsize Hfree Hzero). split; [|done].
    rewrite Hsize. by destruct (Alias.hollow node).
  - intros Hscalar Halias.
    assert (1 ≤ size)%Z as Hge.
    { unfold size. destruct node; try discriminate. simpl.
      destruct (Z.eqb_spec (Alias.aliasCount data) 0); lia. }
    by destruct (Z.ltb_spec 0 size); [|lia].
  - intros b a fl Hnode Hzero.
    assert (size = 0%Z) as ->; [|done].
    unfold size. rewrite Hzero. simpl. by destruct Hnode as [-> | ->].
Qed.

Lemma zero_max_alias_witness :
  fst (Alias.toJSON Sample.star (Some (Sample.ctx 0)))
    = inl (JS.ReferenceError Alias.excessiveMsg)
  ∧ fst (Alias.toJSON Sample.starE (Some (Sample.ctxE 0)))
    = inr (Alias.Res (JS.object 7)).
Proof.
  split.
  - apply (proj1 (proj2 (proj2 (proj2
             (zero_max_alias Sample.star (Sample.ctx 0) Sample.two
                (Alias.mkData 0 0 (JS.str "two"))
                eq_refl eq_refl eq_refl ltac:(discriminate) ltac:(simpl; lia))))));
      [reflexivity | simpl; lia].
  - apply (proj2 (proj1 (proj1 (proj2 (proj2
             (zero_max_alias Sample.starE (Sample.ctxE 0) Sample.empty
                (Alias.mkData 0 0 (JS.object 7))
                eq_refl eq_refl eq_refl ltac:(discriminate) ltac:(simpl; lia))))
             eq_refl eq_refl))).
    reflexivity.
Defined.
End alias_zero_max.

Section alias_unresolved.
Import Order.
Variable anchorIsValid : string → option JS.thrown.

(** C4. An alias whose [source] is the anchor of no earlier node of the
    document: [toJSON] with a context throws a [ReferenceError].  In
    [toString], for a label that [anchorIsValid] accepts, the unresolved
    alias error is thrown exactly when [verifyAliasOrder] is on and the
    label is not among the anchors emitted so far; with the check off the
    text [*label] is returned (followed by a space in an implicit key). *)
Theorem unresolved_alias (this : AliasT) :
  (∀ ctx,
      (∀ n, n ∈ preceding this (Alias.doc ctx) → ¬ anchored (source this) n) →
      fst (Alias.toJSON this (Some ctx))
        = inl (JS.ReferenceError (Alias.unresolvedMsg (source this))))
  ∧ (∀ sctx,
      anchorIsValid (source this) = None →
      (Alias.toString anchorIsValid this (Some sctx)
         = inl (JS.Error (Alias.unresolvedMsg (source this)))
       ↔ StringifyTypes.verifyAliasOrder sctx = true
         ∧ source this ∉ StringifyTypes.anchors sctx)
      ∧ (StringifyTypes.verifyAliasOrder sctx = false →
         Alias.toString anchorIsValid this (Some sctx)
           = inr (if StringifyTypes.implicitKey sctx
                  then "*" +:+ source this +:+ " "
                  else "*" +:+ source this))).
Proof.
  split.
  - intros ctx Hnone. unfold Alias.toJSON.
    by rewrite resolve_lastAnchored, lastAnchored_None.
  - intros sctx Hvalid. unfold Alias.toString. rewrite Hvalid.
    destruct (StringifyTypes.verifyAliasOrder sctx); simpl.
    + case_bool_decide as Hin; simpl.
      * split; [|done].
        split; [|by intros [_ ?]].
        by destruct (StringifyTypes.implicitKey sctx).
      * split; [|done]. by split.
    + split; [|by destruct (StringifyTypes.implicitKey sctx)].
      split; [|by intros [? _]].
      by destruct (StringifyTypes.implicitKey sctx).
Qed.
End alias_unresolved.

Lemma unresolved_alias_witness :
  fst (Alias.toJSON Sample.dangling (Some (Alias.mkToJS ∅ Sample.docD 100)))
    = inl (JS.ReferenceError (Alias.unresolvedMsg "b"))
  ∧ Alias.toString (λ _, None) Sample.dangling
      (Some (StringifyTypes.mkSCtx ∅ false "" "  " false None false))
    = inr "*b".
Proof.
  split.
  - apply (proj1 (unresolved_alias (λ _, None) Sample.dangling)
             (Alias.mkToJS ∅ Sample.docD 100)).
    intros n Hn. vm_compute in Hn.
    apply list_elem_of_singleton in Hn as ->. discriminate.
  - apply (proj2 (unresolved_alias (λ _, None) Sample.dangling)
             (StringifyTypes.mkSCtx ∅ false "" "  " false None false) eq_refl).
    reflexivity.
Defined.

(** ** nodes/YAMLSeq.ts *)

Section seq_claims.
Variable Number : string → JS.number.
Variable isScalarValue : Tree → bool.
Variable keyText : Tree → string.

#[local] Abbreviation asItemIndex := (YAMLSeq.asItemIndex Number).
#[local] Abbreviation representsIndex := (YAMLSeq.representsIndex Number).

Lemma asItemIndex_value (v : JS.value) (z : Z) :
  asItemIndex (Value v) = Some z ↔ representsIndex (Value v) z.
Proof.
  split.
  - unfold YAMLSeq.asItemIndex.
    destruct v as [| |b|[x| | |]|s|r]; simpl; try discriminate.
    + destruct (Z.geb_spec x 0); [|discriminate].
      intros [= ->]. constructor. lia.
    + destruct (String.eqb_spec s ""); simpl; [discriminate|].
      destruct (Number s) as [x| | |] eqn:Hs; try discriminate.
      destruct (Z.geb_spec x 0); [|discriminate].
      intros [= ->]. constructor; [done | done | lia].
  - unfold YAMLSeq.asItemIndex.
    inversion 1 as [z' Hz|s z' Hs Hnum Hz|]; subst; simpl.
    + destruct (Z.geb_spec z 0); [done | lia].
    + destruct (String.eqb_spec s ""); [done|]. simpl. rewrite Hnum.
      destruct (Z.geb_spec z 0); [done | lia].
Qed.

(** [asItemIndex] finds an index exactly for the keys that stand for one. *)
Lemma asItemIndex_represents (key : Tree) (z : Z) :
  asItemIndex key = Some z ↔ representsIndex key z.
Proof.
  destruct key as [b a v|b a fl l|b a fl l|a|b k v|v];
    try (split; [discriminate | by inversion 1]).
  - change (asItemIndex (Scalar b a v)) with (asItemIndex (Value v)).
    rewrite asItemIndex_value. split; [by constructor | by inversion 1].
  - apply asItemIndex_value.
Qed.

Lemma asItemIndex_None (key : Tree) :
  (∀ z, ¬ representsIndex key z) → asItemIndex key = None.
Proof.
  intros H. destruct (asItemIndex key) as [z|] eqn:Hz; [|done].
  by apply asItemIndex_represents, H in Hz.
Qed.

(** C8. For a key that, unwrapped from a scalar, stands for no
    non-negative integer, [get] returns [undefined], [has] and [delete]
    return [false] and [set] throws; for a key that stands for the index
    [z], [get] returns the item at [z], and the value of that item when it
    is a scalar and [keepScalar] is not truthy. *)
Theorem seq_key_contract (items : list Tree) (key : Tree) (keepScalar : bool)
    (value : Tree) :
  ((∀ z, ¬ representsIndex key z) →
     YAMLSeq.get Number items key keepScalar = Value JS.undefined
     ∧ YAMLSeq.has Number items key = false
     ∧ YAMLSeq.delete Number items key = (false, items)
     ∧ ∃ msg, YAMLSeq.set Number isScalarValue keyText items key value
              = inl (JS.Error msg))
  ∧ (∀ z, representsIndex key z →
     YAMLSeq.get Number items key keepScalar =
       match items !! Z.to_nat z with
       | Some (Scalar b a v) => if keepScalar then Scalar b a v else Value v
       | Some item => item
       | None => Value JS.undefined
       end).
Proof.
  split.
  - intros Hnone. apply asItemIndex_None in Hnone.
    unfold YAMLSeq.get, YAMLSeq.has, YAMLSeq.delete, YAMLSeq.set.
    rewrite Hnone. repeat split. by eexists.
  - intros z Hz. apply asItemIndex_represents in Hz.
    unfold YAMLSeq.get, YAMLSeq.itemAt. rewrite Hz.
    destruct (items !! Z.to_nat z) as [[]|]; simpl; try done.
    by destruct keepScalar.
Qed.
End seq_claims.

Lemma seq_key_contract_witness :
  YAMLSeq.get Sample.Number [Sample.one; Sample.two] (Value (JS.str "x")) false
    = Value JS.undefined
  ∧ YAMLSeq.get Sample.Number [Sample.one; Sample.two]
      (Scalar (Sample.base 9) None (JS.str "1")) false
    = Value (JS.str "two").
Proof.
  split.
  - apply (proj1 (seq_key_contract Sample.Number (λ _, false) (λ _, "x")
                    [Sample.one; Sample.two] (Value (JS.str "x")) false
                    (Value JS.null))).
    intros z Hz. inversion Hz. discriminate.
  - apply (proj2 (seq_key_contract Sample.Number (λ _, false) (λ _, "x")
                    [Sample.one; Sample.two]
                    (Scalar (Sample.base 9) None (JS.str "1")) false
                    (Value JS.null)) 1%Z).
    constructor. by constructor.
Defined.

(** ** public-api.ts *)

Section parse_claims.
Variable LineCounter : Type.
Variable newLineCounter : LineCounter.
Variable composeStream :
  string → option (PublicApi.ParseOptions LineCounter) → option LineCounter →
  list Document * option LineCounter.
Variable prettifyError : string → LineCounter → YAMLParseError → YAMLParseError.
(** [prettifyError] adds a line position and extends the message. *)
Hypothesis prettifyError_keeps :
  ∀ src lc e, pos (prettifyError src lc e) = pos e
              ∧ code (prettifyError src lc e) = code e.

#[local] Abbreviation parseDocument :=
  (PublicApi.parseDocument LineCounter newLineCounter composeStream prettifyError).
#[local] Abbreviation parseOptions :=
  (PublicApi.parseOptions LineCounter newLineCounter).

Lemma foldl_onDocument (d : Document) (rest : list Document) :
  foldl PublicApi.onDocument (Some d) rest =
  Some (if PublicApi.silent d then d
        else mkDocument (contents d) (errors d ++ (PublicApi.multipleDocs <$> rest))
                        (warnings d) (doc_range d) (Nodes.options d)).
Proof.
  revert d. induction rest as [|d' rest IH]; intros d; simpl.
  - destruct (PublicApi.silent d); [done|]. rewrite app_nil_r. by destruct d.
  - unfold PublicApi.silent in *. destruct (String.eqb _ _) eqn:Hs; simpl.
    + by rewrite IH, Hs.
    + rewrite IH. simpl. rewrite Hs. by rewrite <- app_assoc.
Qed.

Lemma prettified_keys (src : string) (lc : LineCounter) (es : list YAMLParseError) :
  (λ e, (pos e, code e)) <$> (prettifyError src lc <$> es)
  = (λ e, (pos e, code e)) <$> es.
Proof.
  rewrite <- list_fmap_compose. apply list_fmap_ext. intros _ e _. simpl.
  by destruct (prettifyError_keeps src lc e) as [-> ->].
Qed.

(** C6, amended. When the source holds the documents [d0 :: rest],
    [parseDocument] returns the first one, [d0]; unless the [logLevel] of
    [d0] is ['silent'], its errors are followed by one [MULTIPLE_DOCS]
    error for each additional document, at the start of that document;
    with [logLevel: 'silent'] no error is added. *)
Theorem parseDocument_multiple_docs (source : string)
    (options : option (PublicApi.ParseOptions LineCounter))
    (d0 : Document) (rest : list Document) (lc : option LineCounter) :
  composeStream source options (fst (parseOptions options)) = (d0 :: rest, lc) →
  ∃ d,
    parseDocument source options = Some d
    ∧ contents d = contents d0
    ∧ doc_range d = doc_range d0
    ∧ (λ e, (pos e, code e)) <$> errors d
      = ((λ e, (pos e, code e)) <$> errors d0)
        ++ if PublicApi.silent d0 then []
           else (λ d', (fst (doc_range d'), MULTIPLE_DOCS)) <$> rest.
Proof.
  intros Hdocs. unfold PublicApi.parseDocument.
  destruct (parseOptions options) as [lc0 pretty]. simpl in Hdocs. rewrite Hdocs.
  change (foldl _ None (d0 :: rest)) with (foldl PublicApi.onDocument (Some d0) rest).
  rewrite foldl_onDocument.
  assert ((λ e, (pos e, code e)) <$>
            errors (if PublicApi.silent d0 then d0
                    else mkDocument (contents d0) (errors d0 ++ (PublicApi.multipleDocs <$> rest))
                           (warnings d0) (doc_range d0) (Nodes.options d0))
          = ((λ e, (pos e, code e)) <$> errors d0)
            ++ if PublicApi.silent d0 then []
               else (λ d', (fst (doc_range d'), MULTIPLE_DOCS)) <$> rest) as Herr.
  { destruct (PublicApi.silent d0); simpl; [by rewrite app_nil_r|].
    by rewrite fmap_app, <- list_fmap_compose. }
  destruct pretty, lc as [lc|]; simpl; eexists; (split; [reflexivity|]);
    (split; [by destruct (PublicApi.silent d0)|]); (split; [by destruct (PublicApi.silent d0)|]);
    simpl; rewrite ?prettified_keys; exact Herr.
Qed.
End parse_claims.

(** ** compose/resolve-flow-collection.ts *)

Section compose_facts.
Import Compose.
Variable composeNode : ComposeContext → Token.t → Props → Tree * list YAMLParseError.
Variable composeEmptyNode :
  ComposeContext → Z → list Token.t → nat → Props → Tree * list YAMLParseError.
Variable directivesTagName : string → option string * list string.
Variable containsNewline : Token.t → bool.
Variable resolveEnd : list Token.t → Z → bool → (string * Z) * list YAMLParseError.
Variable ctx : ComposeContext.
Variable fc : FlowCollection.

#[local] Abbreviation addItem := (Compose.addItem composeEmptyNode ctx fc).
#[local] Abbreviation composeValue := (Compose.composeValue composeNode ctx fc).
#[local] Abbreviation mapValueInd :=
  (Compose.mapValueInd composeEmptyNode containsNewline ctx fc).
#[local] Abbreviation step :=
  (Compose.step composeNode composeEmptyNode directivesTagName containsNewline ctx fc).
#[local] Abbreviation loop :=
  (Compose.loop composeNode composeEmptyNode directivesTagName containsNewline ctx fc).
#[local] Abbreviation finish := (Compose.finish composeEmptyNode ctx fc).
#[local] Abbreviation resolveFlowCollection :=
  (Compose.resolveFlowCollection composeNode composeEmptyNode directivesTagName
     containsNewline resolveEnd ctx fc).


Ltac keeps_tac :=
  intros st Hin;
  repeat (first [ progress (simplify_eq/=) | case_match
                | progress unfold onError, report, push, getProps, new in * ]);
  rewrite ?elem_of_app; auto.

Lemma keeps_commentLastItem e : keeps e commentLastItem.
Proof. unfold commentLastItem. keeps_tac. Qed.

Lemma keeps_addItem e pos : keeps e (addItem pos).
Proof. unfold Compose.addItem. keeps_tac. Qed.

Lemma keeps_composeValue e token : keeps e (composeValue token).
Proof. unfold Compose.composeValue. keeps_tac. Qed.

Lemma keeps_mapValueInd e i : keeps e (mapValueInd i).
Proof. unfold Compose.mapValueInd. keeps_tac. Qed.

Lemma keeps_step e i token : keeps e (step i token).
Proof.
  intros st Hin. unfold Compose.step.
  destruct (Token.type token);
    repeat (first [ progress simpl | case_match
                  | apply keeps_commentLastItem | apply keeps_addItem
                  | apply keeps_mapValueInd | apply keeps_composeValue
                  | rewrite elem_of_app; left ]); auto.
Qed.

Lemma keeps_loop e tokens : ∀ i, keeps e (loop i tokens).
Proof.
  induction tokens as [|t tokens IH]; intros i st Hin; simpl; [done|].
  by apply IH, keeps_step.
Qed.

Lemma keeps_finish e : keeps e finish.
Proof.
  intros st Hin. unfold Compose.finish.
  case_match; [by apply keeps_addItem | done].
Qed.

(** Whatever the loop has reported is in the result. *)
Lemma resolveFlowCollection_errors e top :
  e ∈ errors (finish (loop 0 (fc_items fc) (init fc top))) →
  e ∈ snd (resolveFlowCollection top).
Proof.
  intros Hin. unfold Compose.resolveFlowCollection.
  repeat (first [ progress (simplify_eq/=) | case_match
                | progress unfold onError, report in * ]);
    rewrite ?elem_of_app; auto.
Qed.

Lemma loop_app (l1 l2 : list Token.t) (i : nat) (st : State) :
  loop i (l1 ++ l2) st = loop (i + length l1) l2 (loop i l1 st).
Proof.
  revert i st. induction l1 as [|t l1 IH]; intros i st; simpl.
  - by rewrite Nat.add_0_r.
  - rewrite IH. f_equal. lia.
Qed.

(** *** The key of an implicit pair *)





(** *** The items of a flow sequence *)


Hypothesis composeNode_node :
  ∀ c t p, isNode (fst (composeNode c t p)) = true.
Hypothesis composeEmptyNode_node :
  ∀ c o l i p, isNode (fst (composeEmptyNode c o l i p)) = true.
Hypothesis flow_seq : isMap fc = false.











(** *** Runs of spaces, and the start of an item *)







(** *** A pair among the tokens of a flow sequence *)


















End compose_facts.




(** Outside the scope of C9: after an explicit-key indicator, as in
    [[ ? a ]], the pair itself is pushed. *)
Example explicit_key_pushes_pair :
  ∃ base b k,
    fst (Sample.resolveFlowCollection true Sample.explicitSeq)
    = YAMLSeq base None true [Pair b k (Value JS.null)].
Proof. eexists _, _, _. vm_compute. reflexivity. Qed.

(** C6, as stated, fails: when the first of two documents has
    [logLevel: 'silent'], [parseDocument] returns it with no
    [MULTIPLE_DOCS] error. *)
Lemma multiple_docs_silent_no_error :
  length (fst (Sample.composeStream "silent" Sample.twoDocs None None)) = 2
  ∧ ∃ d, PublicApi.parseDocument () () (Sample.composeStream "silent") (λ _ _ e, e)
           Sample.twoDocs None = Some d
         ∧ contents d = contents (Sample.first "silent")
         ∧ errors d = [].
Proof. split; [reflexivity|]. eexists. vm_compute. repeat split. Qed.

Lemma parseDocument_multiple_docs_witness :
  ∃ d, PublicApi.parseDocument () () (Sample.composeStream "warn") (λ _ _ e, e)
         Sample.twoDocs None = Some d
       ∧ contents d = Sample.one
       ∧ doc_range d = (0, 2)%Z
       ∧ (λ e, (pos e, code e)) <$> errors d = [(6%Z, MULTIPLE_DOCS)].
Proof.
  apply (parseDocument_multiple_docs () () (Sample.composeStream "warn") (λ _ _ e, e)
           (λ _ _ _, conj eq_refl eq_refl) Sample.twoDocs None
           (Sample.first "warn") [Sample.second] (Some ())).
  reflexivity.
Defined.

(** ** stringify/stringifyCollection.ts *)

Lemma append_cons (x : ascii) (a b : string) : String x a +:+ b = String x (a +:+ b).
Proof. reflexivity. Qed.

Lemma append_assoc (a b c : string) : (a +:+ b) +:+ c = a +:+ (b +:+ c).
Proof. induction a as [|x a IH]; [done|]. by rewrite !append_cons, IH. Qed.

Lemma append_nil_r (a : string) : a +:+ "" = a.
Proof. induction a as [|x a IH]; [done|]. by rewrite append_cons, IH. Qed.

Lemma foldl_append (g : string → string) (l : list string) (a b : string) :
  foldl (λ str s, str +:+ g s) (a +:+ b) l = a +:+ foldl (λ str s, str +:+ g s) b l.
Proof.
  revert b. induction l as [|s l IH]; intros b; cbn [foldl]; [done|].
  by rewrite append_assoc, IH.
Qed.

Section stringify_claims.
Import StringifyTypes Stringify.
Variable stringify : Tree → StringifyContext → JS.thrown + Rendered.
Variable addComment : string → string → option string → string.
Variable matchLines : string → list string.
Variable replaceLineStarts : string → string → string.
Variable maxFlowStringSingleLineLength : Z.

#[local] Abbreviation reduceItem := (Stringify.reduceItem stringify addComment matchLines).
#[local] Abbreviation reduce := (Stringify.reduce stringify addComment matchLines).
#[local] Abbreviation stringifyCollection :=
  (Stringify.stringifyCollection stringify addComment matchLines replaceLineStarts
     maxFlowStringSingleLineLength).

Lemma reduceItem_flow ctx itemIndent n acc i item acc' :
  chompKeep acc = false →
  reduceItem ctx itemIndent true n acc i item = inr acc' →
  chompKeep acc' = false
  ∧ hasItemWithNewLine acc'
    = hasItemWithNewLine acc || breaksLine stringify ctx item
  ∧ nodes acc' ≠ [].
Proof.
  intros Hck. unfold Stringify.reduceItem, breaksLine, hasSpaceBefore, hasComment,
    rendersNewline.
  rewrite Hck. simpl.
  destruct (isNode item || isPair item); simpl;
    destruct (stringify item ctx) as [e|r]; try discriminate;
    intros [= <-]; simpl.
  - split; [destruct (r_onChompKeep r); by rewrite ?orb_true_r|].
    split; [|by intros [_ ?]%app_eq_nil].
    destruct (hasItemWithNewLine acc), (spaceBeforeOf item),
      (truthyStr (commentBeforeOf item)), (truthyStr (commentOf item)),
      (keyOrValueHasComment item), (includesNewline (r_str r)); reflexivity.
  - split; [destruct (r_onChompKeep r); by rewrite ?orb_true_r|].
    split; [|by intros [_ ?]%app_eq_nil].
    by destruct (hasItemWithNewLine acc), (includesNewline (r_str r)).
Qed.

Lemma reduce_flow ctx itemIndent n items : ∀ acc i acc',
  chompKeep acc = false →
  reduce ctx itemIndent true n acc i items = inr acc' →
  hasItemWithNewLine acc'
    = hasItemWithNewLine acc || existsb (breaksLine stringify ctx) items
  ∧ (items ≠ [] → nodes acc' ≠ []).
Proof.
  induction items as [|item items IH]; intros acc i acc' Hck; simpl.
  - intros [= <-]. by rewrite orb_false_r.
  - destruct (reduceItem ctx itemIndent true n acc i item) as [e|acc1] eqn:Hitem;
      [discriminate|].
    destruct (reduceItem_flow _ _ _ _ _ _ _ Hck Hitem) as (Hck1 & Hnl1 & Hnodes1).
    clear Hitem. revert acc1 Hck1 Hnl1 Hnodes1.
    destruct items as [|item' items]; intros acc1 Hck1 Hnl1 Hnodes1 Hred.
    + simpl in Hred. injection Hred as <-. by rewrite Hnl1, orb_false_r.
    + destruct (IH _ _ _ Hck1 Hred) as [Hnl Hnodes].
      split; [|by intros _; apply Hnodes].
      by rewrite Hnl, Hnl1, orb_assoc.
Qed.

Lemma flowBroken_newline fc indentStep indent s strings :
  ∃ rest, flowBroken fc indentStep indent (s :: strings)
          = start fc +:+ String "010" rest.
Proof.
  unfold flowBroken. cbn [foldl].
  assert (∃ y, flowLine indentStep indent s = String "010" "" +:+ y) as [y ->]
    by (unfold flowLine; destruct (truthyS s); by eexists).
  rewrite !foldl_append, !append_assoc. by eexists.
Qed.

Lemma flow_layouts_differ fc indentStep indent strings :
  strings ≠ [] → flowInline fc strings ≠ flowBroken fc indentStep indent strings.
Proof.
  destruct strings as [|s strings]; [done|]. intros _.
  destruct (flowBroken_newline fc indentStep indent s strings) as [rest ->].
  unfold flowInline. by destruct fc.
Qed.

Lemma reduce_total ctx itemIndent inFlow n items : ∀ acc i,
  Forall (λ item, ∃ r, stringify item ctx = inr r) items →
  ∃ acc', reduce ctx itemIndent inFlow n acc i items = inr acc'.
Proof.
  induction items as [|item items IH]; intros acc i Hall; simpl; [by eexists|].
  apply Forall_cons in Hall as [[r Hr] Hall].
  unfold Stringify.reduceItem. rewrite Hr.
  destruct (isNode item || isPair item); apply IH, Hall.
Qed.

(** C7, amended. A non-empty collection whose items [stringify] can render
    is stringified in flow context on a single line, as [[ items ]] or
    [{ items }], exactly when no item has a blank line before it, no item
    has a comment or a rendering with a newline, and the summed inline
    length does not exceed [maxFlowStringSingleLineLength]; otherwise every
    string goes on a line of its own, one indentation step further in (an
    empty string as an empty line), and the closing bracket on a line of its
    own at the indent of the collection.  The comment of the collection, if
    any, follows on further lines. *)
Theorem flow_collection_layout (coll : Collection) (ctx : StringifyContext)
    (opts : StringifyCollectionOptions) :
  c_items coll ≠ [] →
  c_flow coll || inFlow ctx = true →
  Forall (λ item, ∃ r, stringify item (itemContext coll ctx opts) = inr r)
         (c_items coll) →
  ∃ r acc body,
    stringifyCollection coll ctx opts = inr r
    ∧ reduce (itemContext coll ctx opts) (itemIndentOf coll ctx opts) true
             (length (c_items coll)) (mkAcc [] false false) 0 (c_items coll) = inr acc
    ∧ r_str r = body +:+ trailer replaceLineStarts coll ctx
    ∧ (body = flowInline (flowChars opts) (str <$> nodes acc)
       ↔ existsb (breaksLine stringify (itemContext coll ctx opts)) (c_items coll) = false
         ∧ (inlineLength (str <$> nodes acc) ≤ maxFlowStringSingleLineLength)%Z)
    ∧ (body = flowInline (flowChars opts) (str <$> nodes acc)
       ∨ body = flowBroken (flowChars opts) (indentStep ctx) (indent ctx)
                  (str <$> nodes acc)).
Proof.
  intros Hitems Hflow Hall.
  destruct (reduce_total _ (itemIndentOf coll ctx opts) true (length (c_items coll))
              _ (mkAcc [] false false) 0 Hall) as [acc Hred].
  revert Hred.
  unfold Stringify.stringifyCollection, itemContext, itemIndentOf, trailer.
  rewrite Hflow. intros Hred. rewrite Hred.
  destruct (reduce_flow _ _ _ _ (mkAcc [] false false) _ _ eq_refl Hred) as [Hnl Hnodes].
  specialize (Hnodes Hitems). simpl in Hnl.
  destruct (nodes acc) as [|nd nds] eqn:Hnds; [done|]. clear Hnodes.
  cbn [length Nat.eqb]. rewrite Hnl.
  set (strings := str <$> nd :: nds).
  assert (strings ≠ []) as Hne by done.
  set (body := if _ || _ then flowBroken _ _ _ strings else flowInline _ strings).
  assert ((body = flowInline (flowChars opts) strings
           ↔ existsb (breaksLine stringify
                        (mkSCtx (anchors ctx) (implicitKey ctx)
                           (itemIndent opts +:+ indentStep ctx) (indentStep ctx)
                           true None (verifyAliasOrder ctx)))
               (c_items coll) = false
             ∧ (inlineLength strings ≤ maxFlowStringSingleLineLength)%Z)
          ∧ (body = flowInline (flowChars opts) strings
             ∨ body = flowBroken (flowChars opts) (indentStep ctx) (indent ctx) strings))
    as Hbody.
  { unfold body. destruct (existsb _ _); simpl.
    - split; [|by right]. split; [|by intros [? _]].
      intros Heq. symmetry in Heq. by apply flow_layouts_differ in Heq.
    - destruct (Z.gtb_spec (inlineLength strings) maxFlowStringSingleLineLength).
      + split; [|by right]. split; [|lia].
        intros Heq. symmetry in Heq. by apply flow_layouts_differ in Heq.
      + split; [|by left]. split; [|done]. intros _. split; [done | lia]. }
  destruct (truthyStr (c_comment coll)); eexists _, acc, body;
    (split; [reflexivity|]); (split; [reflexivity|]);
    (split; [simpl; by rewrite ?append_nil_r|]); rewrite Hnds; exact Hbody.
Qed.

(** C10. A collection without items is stringified as [{}] or [[]], the
    brackets with nothing between them, whether or not it is marked as
    flow or emitted in flow context; only the comment of the collection,
    if any, follows it. *)
Theorem empty_collection_flow_form (coll : Collection) (ctx : StringifyContext)
    (opts : StringifyCollectionOptions) :
  c_items coll = [] →
  ∃ r, stringifyCollection coll ctx opts = inr r
       ∧ r_str r = match flowChars opts with Braces => "{}" | Brackets => "[]" end
                   +:+ trailer replaceLineStarts coll ctx
       ∧ (truthyStr (c_comment coll) = false →
          r_str r = match flowChars opts with Braces => "{}" | Brackets => "[]" end).
Proof.
  intros Hitems. unfold Stringify.stringifyCollection, trailer. rewrite Hitems. simpl.
  destruct (truthyStr (c_comment coll)); eexists; (split; [reflexivity|]); simpl;
    by destruct (flowChars opts).
Qed.
End stringify_claims.

(** C7, as stated, fails: the flow sequence [[ a ]] whose item has a blank
    line before it has no comment, no newline in the rendering of its item
    and an inline length of 5, and is broken over lines all the same. *)
Lemma blank_line_breaks_flow_collection :
  Forall (λ item, Stringify.hasComment item = false
                  ∧ Stringify.rendersNewline Sample.stringify
                      (Stringify.itemContext Sample.spacedSeq Sample.sctx Sample.seqOptions)
                      item = false)
         (Stringify.c_items Sample.spacedSeq)
  ∧ (Stringify.inlineLength ["a"] ≤ 60)%Z
  ∧ ∃ r, Sample.stringifyCollection Sample.spacedSeq = inr r
         ∧ Stringify.r_str r
           = "[" +:+ String "010" (String "010" ("  a" +:+ String "010" "]"))
         ∧ Stringify.r_str r ≠ Stringify.flowInline Stringify.Brackets ["a"].
Proof.
  split; [by repeat constructor|]. split; [done|].
  eexists. split; [reflexivity|]. by split.
Qed.

Lemma flow_collection_layout_witness :
  ∃ r, Sample.stringifyCollection (Stringify.mkCollection None true [Sample.one])
       = inr r
       ∧ Stringify.r_str r = "[ a ]".
Proof.
  destruct (flow_collection_layout Sample.stringify Sample.addComment (λ s, [s])
              (λ s p, p +:+ s) 60
              (Stringify.mkCollection None true [Sample.one]) Sample.sctx Sample.seqOptions)
    as (r & acc & body & Hr & Hacc & Hstr & _ & _).
  - discriminate.
  - reflexivity.
  - repeat constructor. by eexists.
  - exists r. split; [exact Hr|].
    vm_compute in Hr. injection Hr as <-. reflexivity.
Defined.

Lemma empty_collection_flow_form_witness :
  ∃ r, Sample.stringifyCollection Sample.emptySeq = inr r ∧ Stringify.r_str r = "[]".
Proof.
  destruct (empty_collection_flow_form Sample.stringify Sample.addComment (λ s, [s])
              (λ s p, p +:+ s) 60 Sample.emptySeq Sample.sctx Sample.seqOptions eq_refl)
    as (r & Hr & _ & Hstr).
  exists r. split; [exact Hr|]. by apply Hstr.
Defined.

(** * Further properties *)

(** ** nodes/Alias.ts *)

Section alias_more.
Import Order More.

Lemma lastAnchored_None_iff (label : string) (l : list Tree) :
  lastAnchored label l = None ↔ ∀ n, n ∈ l → ¬ anchored label n.
Proof.
  split; [|apply lastAnchored_None].
  unfold lastAnchored. rewrite last_None. intros Hnil n Hn Hanch.
  by apply (filter_nil_not_elem_of _ _ n Hnil Hanch).
Qed.

Lemma before_elem (b : NodeBase) (l : list Tree) (n : Tree) :
  n ∈ before b l → n ∈ l ∧ sameObject n b = false.
Proof.
  induction l as [|m l IH]; simpl; [by inversion 1|].
  destruct (sameObject m b) eqn:Hm; [by inversion 1|].
  intros [->|Hin]%elem_of_cons.
  - split; [by left | done].
  - destruct (IH Hin). split; [by right | done].
Qed.

(** X1. [resolve] finds nothing exactly when no node before the alias
    carries its label. *)
Theorem resolve_none_iff (this : AliasT) (doc : Document) :
  Alias.resolve this doc = None
  ↔ ∀ n, n ∈ preceding this doc → ¬ anchored (source this) n.
Proof. rewrite resolve_lastAnchored. apply lastAnchored_None_iff. Qed.

(** X2. What [resolve] returns is a node of the document that carries the
    label; it is a scalar or a collection, never an alias, and never the
    alias object that is being resolved. *)
Theorem resolve_sound (this : AliasT) (doc : Document) (n : Tree) :
  Alias.resolve this doc = Some n →
  n ∈ Visit.nodesOf (contents doc)
  ∧ anchorOf n = Some (source this)
  ∧ isScalar n || isCollection n = true
  ∧ sameObject n (alias_base this) = false.
Proof.
  rewrite resolve_lastAnchored. unfold lastAnchored.
  intros Hlast%last_Some_elem_of. apply list_elem_of_filter in Hlast as [Hanch Hin].
  apply before_elem in Hin as [Hin Hsame].
  repeat split; try done.
  unfold anchored in Hanch. by destruct n.
Qed.

Lemma resolve_sound_witness :
  Sample.two ∈ Visit.nodesOf (contents Sample.doc)
  ∧ anchorOf Sample.two = Some "a"
  ∧ isScalar Sample.two || isCollection Sample.two = true
  ∧ sameObject Sample.two (alias_base Sample.star) = false.
Proof. apply (resolve_sound Sample.star Sample.doc Sample.two). reflexivity. Defined.

(** X3. [toJSON] with a context changes nothing but the entry of the anchor
    it resolves to: the document, [maxAliasCount] and every other entry of
    [anchors] stay as they are, and in that entry [res] is kept and [count]
    is left as it is or counted up once, which makes it grow by at most one
    from [-2^53] to [2^53] (beyond, a double has no room for odd numbers,
    and counting on from [2^53 + 2] gives [2^53 + 4]). *)
Theorem toJSON_frame (this : AliasT) (ctx : Alias.ToJSContext) :
  ∃ ctx',
    snd (Alias.toJSON this (Some ctx)) = Some ctx'
    ∧ Alias.doc ctx' = Alias.doc ctx
    ∧ Alias.maxAliasCount ctx' = Alias.maxAliasCount ctx
    ∧ (∀ k, (∀ node b, Alias.resolve this (Alias.doc ctx) = Some node →
                       baseOf node = Some b → addr b ≠ k) →
            Alias.anchors ctx' !! k = Alias.anchors ctx !! k)
    ∧ (∀ node data,
         Alias.resolve this (Alias.doc ctx) = Some node →
         Alias.anchorsGet (Alias.anchors ctx) node = Some data →
         ∃ data', Alias.anchorsGet (Alias.anchors ctx') node = Some data'
                  ∧ Alias.res data' = Alias.res data
                  ∧ (Alias.count data' = Alias.count data
                     ∨ Alias.count data' = JS.double (Alias.count data + 1))
                  ∧ ((- 2 ^ 53 ≤ Alias.count data ≤ 2 ^ 53)%Z →
                     (Alias.count data ≤ Alias.count data'
                      ≤ Alias.count data + 1)%Z)).
Proof.
  unfold Alias.toJSON.
  destruct (Alias.resolve this (Alias.doc ctx)) as [node|] eqn:Hres.
  2: { exists ctx. repeat split; try done. }
  destruct (Alias.anchorsGet (Alias.anchors ctx) node) as [data|] eqn:Hget.
  2: { exists ctx. repeat split; try done. intros ? ? [= <-] ?. congruence. }
  case_bool_decide as Hundef.
  { exists ctx. repeat split; try done.
    intros ? ? [= <-] Hd. rewrite Hget in Hd. injection Hd as <-. exists data.
    split; [done|]. split; [done|]. split; [by left | lia]. }
  destruct (Alias.maxAliasCount ctx >=? 0)%Z.
  2: { exists ctx. repeat split; try done.
       intros ? ? [= <-] Hd. rewrite Hget in Hd. injection Hd as <-. exists data.
       split; [done|]. split; [done|]. split; [by left | lia]. }
  cbv zeta.
  set (data1 := Alias.mkData _ _ _).
  set (anchors1 := Alias.anchorsPut _ _ data1).
  set (data2 := if (Alias.aliasCount data1 =? 0)%Z then _ else _).
  eexists (Alias.mkToJS (Alias.anchorsPut anchors1 node data2) (Alias.doc ctx)
             (Alias.maxAliasCount ctx)).
  split; [by destruct (_ >? _)%Z|].
  split; [done|]. split; [done|]. split.
  - intros k Hk. simpl. unfold anchors1, Alias.anchorsPut.
    destruct (baseOf node) as [b|] eqn:Hb; [|done].
    specialize (Hk node b eq_refl Hb). by rewrite !lookup_insert_ne.
  - intros ? ? [= <-] Hd. rewrite Hget in Hd. injection Hd as <-. exists data2. simpl.
    split; [eapply anchorsGet_put, anchorsGet_put, Hget|].
    assert (Alias.res data2 = Alias.res data
            ∧ Alias.count data2 = JS.double (Alias.count data + 1)) as [Hr Hc].
    { unfold data2, data1. simpl. by destruct (_ =? _)%Z. }
    split; [done|]. split; [by right|].
    intros Hrange. rewrite Hc. by apply double_succ.
Qed.

(** Beyond [2^53] a count does not grow by one: at [2^53] it stays, and
    from [2^53 + 2] it goes to [2^53 + 4]. *)
Example count_beyond_2_53 :
  JS.double (2 ^ 53 + 1) = (2 ^ 53)%Z ∧ JS.double (2 ^ 53 + 2 + 1) = (2 ^ 53 + 4)%Z.
Proof. split; reflexivity. Qed.

Lemma each_ge (f : Tree → Z) (items : list Tree) : ∀ c,
  (c ≤ (fix each (items : list Tree) (count : Z) : Z :=
          match items with
          | [] => count
          | item :: items' =>
              let c := f item in each items' (if (c >? count)%Z then c else count)
          end) items c)%Z.
Proof.
  induction items as [|item items IH]; intros c; simpl; [lia|].
  etrans; [|apply IH]. destruct (Z.gtb_spec (f item) c); lia.
Qed.

Lemma each_le (f : Tree → Z) (items : list Tree) (hi : Z) : ∀ c,
  (c ≤ hi)%Z → Forall (λ item, (f item ≤ hi)%Z) items →
  ((fix each (items : list Tree) (count : Z) : Z :=
      match items with
      | [] => count
      | item :: items' =>
          let c := f item in each items' (if (c >? count)%Z then c else count)
      end) items c ≤ hi)%Z.
Proof.
  induction items as [|item items IH]; intros c Hc Hall; simpl; [lia|].
  apply Forall_cons in Hall as [Hitem Hall].
  apply IH; [|done]. destruct (Z.gtb_spec (f item) c); lia.
Qed.

(** X4. When no entry of [anchors] has a negative [count] or [aliasCount],
    [getAliasCount] is never negative. *)
Theorem getAliasCount_nonneg (doc : Document) (anchors : gmap nat Alias.AnchorData)
    (node : Tree) :
  (∀ k d, anchors !! k = Some d → (0 ≤ Alias.count d)%Z ∧ (0 ≤ Alias.aliasCount d)%Z) →
  (0 ≤ Alias.getAliasCount doc node anchors)%Z.
Proof.
  intros Hpos.
  induction node as [b a v|b a fl items IH|b a fl items IH|a|b k v IHk IHv|v]
    using Tree_nested_ind; simpl; try lia.
  - apply (each_ge (λ item, Alias.getAliasCount doc item anchors)).
  - apply (each_ge (λ item, Alias.getAliasCount doc item anchors)).
  - destruct (Alias.resolve a doc) as [n|]; simpl; [|lia].
    unfold Alias.anchorsGet. destruct (baseOf n) as [bn|]; simpl; [|lia].
    destruct (anchors !! addr bn) as [d|] eqn:Hd; [|lia].
    destruct (Hpos _ _ Hd). apply double_nonneg. nia.
Qed.

Lemma getAliasCount_nonneg_witness :
  (0 ≤ Alias.getAliasCount Sample.doc Sample.seq (Sample.entry 2 3 (JS.str "two")))%Z.
Proof.
  apply getAliasCount_nonneg. intros k d Hd. unfold Sample.entry in Hd.
  apply lookup_singleton_Some in Hd as [_ <-]. simpl. lia.
Defined.

(** X5. For a node without an alias inside, [getAliasCount] is 0 or 1
    whatever the context holds, and it is 1 for a scalar. *)
Theorem getAliasCount_aliasFree (doc : Document) (anchors : gmap nat Alias.AnchorData)
    (node : Tree) :
  aliasFree node = true →
  (0 ≤ Alias.getAliasCount doc node anchors ≤ 1)%Z
  ∧ (isScalar node = true → Alias.getAliasCount doc node anchors = 1%Z).
Proof.
  intros Hfree. split; [|by destruct node].
  induction node as [b a v|b a fl items IH|b a fl items IH|a|b k v IHk IHv|v]
    using Tree_nested_ind; simpl in *; try lia; try discriminate.
  - split; [apply (each_ge (λ item, Alias.getAliasCount doc item anchors))|].
    apply (each_le (λ item, Alias.getAliasCount doc item anchors)); [lia|].
    induction IH as [|x l Hx _ IHl]; [done|].
    apply andb_true_iff in Hfree as [Hx' Hl'].
    constructor; [by apply Hx | by apply IHl].
  - split; [apply (each_ge (λ item, Alias.getAliasCount doc item anchors))|].
    apply (each_le (λ item, Alias.getAliasCount doc item anchors)); [lia|].
    induction IH as [|x l Hx _ IHl]; [done|].
    apply andb_true_iff in Hfree as [Hx' Hl'].
    constructor; [by apply Hx | by apply IHl].
  - apply andb_true_iff in Hfree as [Hk Hv].
    specialize (IHk Hk). specialize (IHv Hv). lia.
Qed.

Lemma getAliasCount_aliasFree_witness :
  (0 ≤ Alias.getAliasCount Sample.docE Sample.empty ∅ ≤ 1)%Z
  ∧ (isScalar Sample.one = true → Alias.getAliasCount Sample.doc Sample.one ∅ = 1%Z).
Proof.
  split.
  - apply (getAliasCount_aliasFree Sample.docE ∅ Sample.empty). reflexivity.
  - apply (getAliasCount_aliasFree Sample.doc ∅ Sample.one). reflexivity.
Defined.
End alias_more.

Section alias_repeated.
Import More.

Lemma counted_small (c : Z) (n : nat) :
  (- 2 ^ 53 ≤ c)%Z → (c + Z.of_nat n ≤ 2 ^ 53)%Z →
  Nat.iter n (λ c, JS.double (c + 1)) c = (c + Z.of_nat n)%Z.
Proof.
  intros Hlo. induction n as [|n IH]; intros Hhi; simpl; [lia|].
  rewrite IH by lia. rewrite double_small; lia.
Qed.

Lemma counted_top (n : nat) :
  Nat.iter n (λ c, JS.double (c + 1)) (2 ^ 53)%Z = (2 ^ 53)%Z.
Proof. induction n as [|n IH]; simpl; [done|]. by rewrite IH. Qed.

Lemma toJSONs_scalar_state (this : AliasT) (ctx : Alias.ToJSContext)
    (node : Tree) (data : Alias.AnchorData) (n : nat) :
  isScalar node = true →
  Alias.anchorsGet (Alias.anchors ctx) node = Some data →
  Alias.resolve this (Alias.doc ctx) = Some node →
  Alias.res data ≠ JS.undefined →
  (0 ≤ Alias.maxAliasCount ctx)%Z →
  Alias.aliasCount data = 0%Z ∨ Alias.aliasCount data = 1%Z →
  ∃ ctx' d,
    snd (toJSONs n this ctx) = Some ctx'
    ∧ Alias.doc ctx' = Alias.doc ctx
    ∧ Alias.maxAliasCount ctx' = Alias.maxAliasCount ctx
    ∧ Alias.anchorsGet (Alias.anchors ctx') node = Some d
    ∧ Alias.count d = Nat.iter n (λ c, JS.double (c + 1)) (Alias.count data)
    ∧ Alias.res d = Alias.res data
    ∧ (Alias.aliasCount d = 0%Z ∨ Alias.aliasCount d = 1%Z).
Proof.
  intros Hscalar Hget Hres Hdef Hmax Halias.
  induction n as [|n (ctx' & d & Hctx & Hdoc & Hmax' & Hget' & Hcount & Hres' & Halias')].
  - exists ctx, data. by repeat split.
  - cbn [toJSONs]. destruct (toJSONs n this ctx) as [r o]. simpl in Hctx. subst o.
    rewrite <- Hdoc in Hres. rewrite <- Hres' in Hdef.
    rewrite (toJSON_resolved this ctx' node d Hres Hget' Hdef).
    rewrite Hmax', Z.geb_leb, (proj2 (Z.leb_le _ _) Hmax). cbv zeta.
    set (anchors1 := Alias.anchorsPut _ _ _).
    set (ac := if (Alias.aliasCount d =? 0)%Z then _ else _).
    assert (ac = 1%Z) as Hac.
    { unfold ac. destruct Halias' as [-> | ->]; simpl; [|done]. by destruct node. }
    eexists _, (Alias.mkData ac (JS.double (Alias.count d + 1)) (Alias.res d)).
    split; [by destruct (_ >? _)%Z|]. simpl.
    repeat split; try done.
    + eapply anchorsGet_put, anchorsGet_put, Hget'.
    + by rewrite Hcount.
    + by right.
Qed.

Lemma toJSONs_scalar_counted (this : AliasT) (ctx : Alias.ToJSContext)
    (node : Tree) (data : Alias.AnchorData) (n : nat) :
  isScalar node = true →
  Alias.anchorsGet (Alias.anchors ctx) node = Some data →
  Alias.resolve this (Alias.doc ctx) = Some node →
  Alias.res data ≠ JS.undefined →
  (0 ≤ Alias.maxAliasCount ctx)%Z →
  Alias.aliasCount data = 0%Z ∨ Alias.aliasCount data = 1%Z →
  fst (toJSONs (S n) this ctx)
  = Some (if (Alias.maxAliasCount ctx
              <? JS.double (Nat.iter (S n) (λ c, JS.double (c + 1)) (Alias.count data)))%Z
          then inl (JS.ReferenceError Alias.excessiveMsg)
          else inr (Alias.Res (Alias.res data))).
Proof.
  intros Hscalar Hget Hres Hdef Hmax Halias.
  destruct (toJSONs_scalar_state this ctx node data n Hscalar Hget Hres Hdef Hmax Halias)
    as (ctx' & d & Hctx & Hdoc & Hmax' & Hget' & Hcount & Hres' & Halias').
  cbn [toJSONs]. destruct (toJSONs n this ctx) as [r o]. simpl in Hctx. subst o.
  rewrite <- Hdoc in Hres. rewrite <- Hres' in Hdef.
  rewrite (toJSON_resolved this ctx' node d Hres Hget' Hdef).
  rewrite Hmax', Z.geb_leb, (proj2 (Z.leb_le _ _) Hmax). cbv zeta.
  set (ac := if (Alias.aliasCount d =? 0)%Z then _ else _).
  assert (ac = 1%Z) as ->.
  { unfold ac. destruct Halias' as [-> | ->]; simpl; [|done]. by destruct node. }
  rewrite Z.mul_1_r, Hcount, Hres', Z.gtb_ltb. simpl.
  by destruct (_ <? _)%Z.
Qed.

(** X6. With a non-negative [maxAliasCount], successive conversions of an
    alias to an anchored scalar count up: starting from an entry with
    [count = c], the [n]-th conversion returns the value of the anchor when
    [c + n <= maxAliasCount] and throws the excessive-alias-count error
    otherwise, as long as the count stays an integer of at most 53 bits
    ([-2^53 <= c] and [c + n <= 2^53]).  A count that has reached [2^53]
    stays there: every further conversion returns the value of the anchor
    when [2^53 <= maxAliasCount] and throws otherwise. *)
Theorem toJSONs_scalar (this : AliasT) (ctx : Alias.ToJSContext)
    (node : Tree) (data : Alias.AnchorData) (n : nat) :
  isScalar node = true →
  Alias.anchorsGet (Alias.anchors ctx) node = Some data →
  Alias.resolve this (Alias.doc ctx) = Some node →
  Alias.res data ≠ JS.undefined →
  (0 ≤ Alias.maxAliasCount ctx)%Z →
  Alias.aliasCount data = 0%Z ∨ Alias.aliasCount data = 1%Z →
  ((- 2 ^ 53 ≤ Alias.count data)%Z →
   (Alias.count data + Z.of_nat (S n) ≤ 2 ^ 53)%Z →
   fst (toJSONs (S n) this ctx)
   = Some (if (Alias.count data + Z.of_nat (S n) <=? Alias.maxAliasCount ctx)%Z
           then inr (Alias.Res (Alias.res data))
           else inl (JS.ReferenceError Alias.excessiveMsg)))
  ∧ (Alias.count data = (2 ^ 53)%Z →
     fst (toJSONs (S n) this ctx)
     = Some (if (2 ^ 53 <=? Alias.maxAliasCount ctx)%Z
             then inr (Alias.Res (Alias.res data))
             else inl (JS.ReferenceError Alias.excessiveMsg))).
Proof.
  intros Hscalar Hget Hres Hdef Hmax Halias.
  rewrite (toJSONs_scalar_counted this ctx node data n Hscalar Hget Hres Hdef Hmax Halias).
  split.
  - intros Hlo Hhi. rewrite (counted_small _ (S n) Hlo Hhi).
    rewrite double_small by lia.
    destruct (Z.ltb_spec (Alias.maxAliasCount ctx) (Alias.count data + Z.of_nat (S n)));
      destruct (Z.leb_spec (Alias.count data + Z.of_nat (S n)) (Alias.maxAliasCount ctx));
      (done || lia).
  - intros ->. rewrite counted_top. rewrite double_small by done.
    destruct (Z.ltb_spec (Alias.maxAliasCount ctx) (2 ^ 53));
      destruct (Z.leb_spec (2 ^ 53) (Alias.maxAliasCount ctx)); (done || lia).
Qed.

Lemma toJSONs_scalar_witness :
  fst (toJSONs 2 Sample.starS (Sample.ctxS 2)) = Some (inr (Alias.Res (JS.str "text")))
  ∧ fst (toJSONs 3 Sample.starS (Sample.ctxS 2))
    = Some (inl (JS.ReferenceError Alias.excessiveMsg)).
Proof.
  split.
  - apply (proj1 (toJSONs_scalar Sample.starS (Sample.ctxS 2) Sample.text
                    (Alias.mkData 0 0 (JS.str "text")) 1
                    eq_refl eq_refl eq_refl ltac:(discriminate) ltac:(simpl; lia)
                    ltac:(by left))); simpl; lia.
  - apply (proj1 (toJSONs_scalar Sample.starS (Sample.ctxS 2) Sample.text
                    (Alias.mkData 0 0 (JS.str "text")) 2
                    eq_refl eq_refl eq_refl ltac:(discriminate) ltac:(simpl; lia)
                    ltac:(by left))); simpl; lia.
Defined.
End alias_repeated.

(** ** nodes/YAMLSeq.ts *)

Section seq_more.
Variable Number : string → JS.number.
Variable isScalarValue : Tree → bool.
Variable keyText : Tree → string.

#[local] Abbreviation asItemIndex' := (YAMLSeq.asItemIndex Number).
#[local] Abbreviation representsIndex' := (YAMLSeq.representsIndex Number).
#[local] Abbreviation seq_get := (YAMLSeq.get Number).
#[local] Abbreviation seq_has := (YAMLSeq.has Number).
#[local] Abbreviation seq_delete := (YAMLSeq.delete Number).
#[local] Abbreviation seq_set := (YAMLSeq.set Number isScalarValue keyText).

Lemma represents_nonneg (key : Tree) (z : Z) : representsIndex' key z → (0 ≤ z)%Z.
Proof. induction 1; done. Qed.

Lemma assign_elements (items : list Tree) (z : Z) (value : Tree) :
  (0 ≤ z < 2 ^ 32 - 1)%Z →
  ∃ items',
    YAMLSeq.assign items z value = YAMLSeq.mkAssigned items' None
    ∧ items' !! Z.to_nat z = Some value
    ∧ length items' = Nat.max (length items) (S (Z.to_nat z))
    ∧ (∀ j, j ≠ Z.to_nat z → j < length items → items' !! j = items !! j)
    ∧ (∀ j, length items ≤ j → j < Z.to_nat z → items' !! j = Some (Value JS.undefined)).
Proof.
  intros Hz. unfold YAMLSeq.assign, YAMLSeq.arrayIndex.
  rewrite (proj2 (Z.ltb_lt _ _)) by lia.
  eexists. split; [reflexivity|].
  destruct (Nat.ltb_spec (Z.to_nat z) (length items)).
  - split; [by apply list_lookup_insert_eq|].
    split; [rewrite length_insert; lia|].
    split; [intros; by apply list_lookup_insert_ne | lia].
  - split.
    { rewrite lookup_app_r by done.
      rewrite lookup_app_r by (rewrite length_replicate; lia).
      rewrite length_replicate. by rewrite Nat.sub_diag. }
    split; [rewrite !length_app, length_replicate; simpl; lia|].
    split; [intros; by apply lookup_app_l|].
    intros j Hge Hlt. rewrite lookup_app_r by done.
    rewrite lookup_app_l by (rewrite length_replicate; lia).
    apply lookup_replicate_2. lia.
Qed.

Lemma assignValue_fresh (a : nat) (v : JS.value) (t : Tree) :
  YAMLSeq.holds a t = false → YAMLSeq.assignValue a v t = t.
Proof.
  induction t as [b an old|b an fl items IH|b an fl items IH|al|b k val IHk IHv|val]
    using Tree_nested_ind; simpl; intros Hfresh; try done.
  - by rewrite Hfresh.
  - f_equal. induction IH as [|x l Hx _ IHl]; [done|]. simpl in *.
    apply orb_false_iff in Hfresh as [Hx' Hl']. by rewrite Hx, IHl.
  - f_equal. induction IH as [|x l Hx _ IHl]; [done|]. simpl in *.
    apply orb_false_iff in Hfresh as [Hx' Hl']. by rewrite Hx, IHl.
  - apply orb_false_iff in Hfresh as [Hk Hv]. by rewrite IHk, IHv.
Qed.

Lemma set_index (items : list Tree) (key value : Tree) (z : Z) :
  representsIndex' key z → (z < 2 ^ 32 - 1)%Z →
  ∃ items', seq_set items key value = inr (YAMLSeq.mkAssigned items' None)
            ∧ items' !! Z.to_nat z = Some (More.stored isScalarValue items z value)
            ∧ length items' = Nat.max (length items) (S (Z.to_nat z))
            ∧ (∀ j, length items ≤ j → j < Z.to_nat z →
                 items' !! j = Some (Value JS.undefined))
            ∧ (∀ b a v, items !! Z.to_nat z = Some (Scalar b a v) →
                 isScalarValue value = true →
                 items' = map (YAMLSeq.assignValue (addr b) (YAMLSeq.asValue value)) items)
            ∧ (isScalar (YAMLSeq.itemAt items z) && isScalarValue value = false →
               ∀ j, j ≠ Z.to_nat z → j < length items → items' !! j = items !! j).
Proof.
  intros Hz Hidx. pose proof (represents_nonneg _ _ Hz) as Hpos.
  apply asItemIndex_represents in Hz.
  destruct (assign_elements items z value ltac:(lia))
    as (assigned & Hassign & Hat & Hlen & Hother & Hholes).
  unfold YAMLSeq.set, More.stored. rewrite Hz. unfold YAMLSeq.itemAt.
  destruct (items !! Z.to_nat z) as [prev|] eqn:Hprev; simpl.
  - assert (Z.to_nat z < length items) as Hlt by (by eapply lookup_lt_Some).
    destruct prev as [b a v| | | | |];
      try (exists assigned; rewrite Hassign; by repeat split).
    destruct (isScalarValue value).
    + eexists. split; [reflexivity|].
      split; [rewrite list_lookup_fmap, Hprev; simpl; by rewrite Nat.eqb_refl|].
      split; [rewrite length_map; lia|].
      split; [lia|]. split; [|done].
      intros b' a' v' [= -> -> ->] _. done.
    + exists assigned. rewrite Hassign. by repeat split.
  - exists assigned. rewrite Hassign. by repeat split.
Qed.


(** X8. [set] with a key that stands for an array index never shortens the
    sequence: the length becomes the larger of the old length and the index
    plus one, and holes reading [undefined] fill the gap.  When the value
    replaces the item at the index, every other index below the old length
    keeps its item.  When a scalar node at the index takes the value, it is
    that object which changes: every place of the items that holds it shows
    the new value, and an item that does not hold it is kept.  With a number
    from [2^32 - 1] on, which is no array index, the elements stay as they
    are and the array object gets a plain property. *)
Theorem set_frame (items : list Tree) (key value : Tree) (z : Z) :
  representsIndex' key z →
  ((z < 2 ^ 32 - 1)%Z →
   ∃ items',
     seq_set items key value = inr (YAMLSeq.mkAssigned items' None)
     ∧ length items' = Nat.max (length items) (S (Z.to_nat z))
     ∧ (∀ j, length items ≤ j → j < Z.to_nat z → items' !! j = Some (Value JS.undefined))
     ∧ (isScalar (YAMLSeq.itemAt items z) && isScalarValue value = false →
        ∀ j, j ≠ Z.to_nat z → j < length items → items' !! j = items !! j)
     ∧ (∀ b a v, items !! Z.to_nat z = Some (Scalar b a v) →
          isScalarValue value = true →
          items' = map (YAMLSeq.assignValue (addr b) (YAMLSeq.asValue value)) items
          ∧ ∀ j item, items !! j = Some item → YAMLSeq.holds (addr b) item = false →
              items' !! j = Some item))
  ∧ ((2 ^ 32 - 1 ≤ z)%Z → length items ≤ Z.to_nat z →
     seq_set items key value = inr (YAMLSeq.mkAssigned items (Some (z, value)))).
Proof.
  intros Hz. split.
  - intros Hidx.
    destruct (set_index items key value z Hz Hidx)
      as (items' & Hset & Hat & Hlen & Hholes & Hshared & Hother).
    exists items'. repeat split; try done.
    + by eapply Hshared.
    + intros j item Hj Hfresh. rewrite (Hshared b a v) by done.
      rewrite list_lookup_fmap, Hj. simpl. by rewrite assignValue_fresh.
  - intros Hbig Hlen. apply asItemIndex_represents in Hz.
    unfold YAMLSeq.set, YAMLSeq.itemAt. rewrite Hz.
    rewrite (lookup_ge_None_2 items (Z.to_nat z)) by lia. simpl.
    unfold YAMLSeq.assign, YAMLSeq.arrayIndex.
    by rewrite (proj2 (Z.ltb_ge _ _)) by lia.
Qed.


(** X9. [delete] returns [true] exactly when [has] holds for the key; it
    then removes the one item at the index and keeps the others in order,
    and otherwise leaves the items as they are. *)
Theorem delete_spec (items : list Tree) (key : Tree) :
  fst (seq_delete items key) = seq_has items key
  ∧ (seq_has items key = false → snd (seq_delete items key) = items)
  ∧ (∀ z, representsIndex' key z → seq_has items key = true →
       snd (seq_delete items key)
         = take (Z.to_nat z) items ++ drop (S (Z.to_nat z)) items
       ∧ length (snd (seq_delete items key)) = length items - 1).
Proof.
  unfold YAMLSeq.delete, YAMLSeq.has.
  destruct (asItemIndex' key) as [idx|] eqn:Hidx.
  2: by repeat split.
  pose proof (represents_nonneg _ _ (proj1 (asItemIndex_represents _ _ _) Hidx)) as Hpos.
  simpl. destruct (Z.ltb_spec idx (Z.of_nat (length items))) as [Hlt|Hge].
  - assert (Z.to_nat idx < length items) as Hlt' by lia.
    split.
    { destruct (drop (Z.to_nat idx) items) eqn:Hdrop; [|done].
      apply (f_equal length) in Hdrop. rewrite length_drop in Hdrop. simpl in Hdrop. lia. }
    split; [done|].
    intros z Hz%asItemIndex_represents _. assert (z = idx) as -> by congruence.
    split; [apply delete_take_drop|].
    apply length_delete. by apply lookup_lt_is_Some.
  - assert (length items ≤ Z.to_nat idx) as Hge' by lia.
    split; [by rewrite drop_ge|].
    split; [|done]. intros _.
    rewrite delete_take_drop, take_ge, drop_ge by lia. by rewrite app_nil_r.
Qed.


(** X10. [has] answers [true] exactly for the keys with which [get] can
    reach an item of the sequence: those that stand for an index below its
    length. *)
Theorem has_iff (items : list Tree) (key : Tree) :
  seq_has items key = true
  ↔ ∃ z item, representsIndex' key z ∧ items !! Z.to_nat z = Some item.
Proof.
  unfold YAMLSeq.has. split.
  - destruct (asItemIndex' key) as [idx|] eqn:Hidx; [|discriminate].
    apply asItemIndex_represents in Hidx. pose proof (represents_nonneg _ _ Hidx).
    intros Hlt%Z.ltb_lt.
    destruct (lookup_lt_is_Some_2 items (Z.to_nat idx)) as [item Hitem]; [lia|].
    by exists idx, item.
  - intros (z & item & Hz & Hitem).
    pose proof (represents_nonneg _ _ Hz). apply asItemIndex_represents in Hz.
    rewrite Hz. apply lookup_lt_Some in Hitem. apply Z.ltb_lt. lia.
Qed.

(** X11. [add] appends: the added value is the item at the old length, the
    items before it are unchanged, and [get] with a key for that index and
    [keepScalar] returns it. *)
Theorem add_get (items : list Tree) (value key : Tree) :
  representsIndex' key (Z.of_nat (length items)) →
  seq_has (YAMLSeqMore.add items value) key = true
  ∧ seq_get (YAMLSeqMore.add items value) key true = value
  ∧ (∀ j, j < length items → YAMLSeqMore.add items value !! j = items !! j).
Proof.
  intros Hz%asItemIndex_represents.
  unfold YAMLSeq.has, YAMLSeq.get, YAMLSeq.itemAt, YAMLSeqMore.add. rewrite Hz.
  rewrite Nat2Z.id, length_app. simpl.
  split; [apply Z.ltb_lt; lia|].
  split; [|intros; by apply lookup_app_l].
  rewrite list_lookup_middle by done. simpl. by destruct value.
Qed.

End seq_more.


Lemma set_frame_witness :
  (∃ items',
     YAMLSeq.set Sample.Number (λ _, true) (λ _, "k") [Sample.one]
       (Value (JS.num (JS.Int 3))) Sample.two = inr (YAMLSeq.mkAssigned items' None)
     ∧ length items' = 4
     ∧ items' !! 2 = Some (Value JS.undefined))
  ∧ YAMLSeq.set Sample.Number (λ _, true) (λ _, "k") [Sample.one; Sample.two; Sample.one]
      (Value (JS.num (JS.Int 0))) (Value (JS.str "new"))
    = inr (YAMLSeq.mkAssigned
             [Scalar (Sample.base 1) (Some "a") (JS.str "new"); Sample.two;
              Scalar (Sample.base 1) (Some "a") (JS.str "new")] None)
  ∧ YAMLSeq.set Sample.Number (λ _, true) (λ _, "k") [Sample.one]
      (Value (JS.num (JS.Int 4294967295))) Sample.two
    = inr (YAMLSeq.mkAssigned [Sample.one] (Some (4294967295%Z, Sample.two))).
Proof.
  split; [|split].
  - destruct (proj1 (set_frame Sample.Number (λ _, true) (λ _, "k") [Sample.one]
                       (Value (JS.num (JS.Int 3))) Sample.two 3%Z
                       ltac:(by constructor)))
      as (items' & Hset & Hlen & Hholes & _); [reflexivity|].
    exists items'. split; [exact Hset|]. split; [exact Hlen|].
    apply Hholes; simpl; lia.
  - destruct (proj1 (set_frame Sample.Number (λ _, true) (λ _, "k")
                       [Sample.one; Sample.two; Sample.one]
                       (Value (JS.num (JS.Int 0))) (Value (JS.str "new")) 0%Z
                       ltac:(by constructor)))
      as (items' & Hset & _ & _ & _ & Hshared); [reflexivity|].
    rewrite Hset.
    by rewrite (proj1 (Hshared (Sample.base 1) (Some "a") (JS.str "one") eq_refl eq_refl)).
  - apply (proj2 (set_frame Sample.Number (λ _, true) (λ _, "k") [Sample.one]
                    (Value (JS.num (JS.Int 4294967295))) Sample.two 4294967295%Z
                    ltac:(by constructor))).
    + reflexivity.
    + simpl. lia.
Defined.

Lemma delete_spec_witness :
  snd (YAMLSeq.delete Sample.Number [Sample.one; Sample.two; Sample.text]
         (Value (JS.str "1")))
  = [Sample.one; Sample.text]
  ∧ fst (YAMLSeq.delete Sample.Number [Sample.one] (Value (JS.str "1"))) = false.
Proof.
  split.
  - apply (proj2 (proj2 (delete_spec Sample.Number [Sample.one; Sample.two; Sample.text]
                           (Value (JS.str "1")))) 1%Z); [by constructor | reflexivity].
  - rewrite (proj1 (delete_spec Sample.Number [Sample.one] (Value (JS.str "1")))).
    reflexivity.
Defined.

Lemma add_get_witness :
  YAMLSeq.get Sample.Number (YAMLSeqMore.add [Sample.one] Sample.two)
    (Value (JS.num (JS.Int 1))) true = Sample.two.
Proof.
  apply (add_get Sample.Number [Sample.one] Sample.two (Value (JS.num (JS.Int 1)))).
  by constructor.
Defined.

(** ** compose/resolve-flow-collection.ts *)

Section compose_more.
Import Compose More.
Variable composeNode : ComposeContext → Token.t → Props → Tree * list YAMLParseError.
Variable composeEmptyNode :
  ComposeContext → Z → list Token.t → nat → Props → Tree * list YAMLParseError.
Variable directivesTagName : string → option string * list string.
Variable containsNewline : Token.t → bool.
Variable resolveEnd : list Token.t → Z → bool → (string * Z) * list YAMLParseError.
Variable ctx : ComposeContext.
Variable fc : FlowCollection.

#[local] Abbreviation addItem' := (Compose.addItem composeEmptyNode ctx fc).
#[local] Abbreviation composeValue' := (Compose.composeValue composeNode ctx fc).
#[local] Abbreviation mapValueInd' :=
  (Compose.mapValueInd composeEmptyNode containsNewline ctx fc).
#[local] Abbreviation step' :=
  (Compose.step composeNode composeEmptyNode directivesTagName containsNewline ctx fc).
#[local] Abbreviation loop' :=
  (Compose.loop composeNode composeEmptyNode directivesTagName containsNewline ctx fc).
#[local] Abbreviation finish' := (Compose.finish composeEmptyNode ctx fc).
#[local] Abbreviation resolveFlowCollection' :=
  (Compose.resolveFlowCollection composeNode composeEmptyNode directivesTagName
     containsNewline resolveEnd ctx fc).

(** *** Errors that are always reported *)

(** An error reported while the tokens [pre ++ t :: post] are scanned is in
    the result. *)
Lemma reported_at_token (e : YAMLParseError) (top : nat) (pre post : list Token.t)
    (t : Token.t) :
  fc_items fc = pre ++ t :: post →
  e ∈ errors (step' (length pre) t (loop' 0 pre (init fc top))) →
  e ∈ snd (resolveFlowCollection' top).
Proof.
  intros Hitems Hin. apply resolveFlowCollection_errors, keeps_finish.
  rewrite Hitems, loop_app. simpl. by apply keeps_loop.
Qed.

(** X12. A block collection inside a flow collection is always reported:
    for a [block-map] or [block-seq] token among the items, the result has a
    [BLOCK_IN_FLOW] error at the offset reached before that token. *)
Theorem block_in_flow_reported (top : nat) (pre post : list Token.t) (t : Token.t) :
  fc_items fc = pre ++ t :: post →
  Token.type t = TokenType.block_map ∨ Token.type t = TokenType.block_seq →
  mkError (offset (loop' 0 pre (init fc top))) BLOCK_IN_FLOW
    "Block collections are not allowed within flow collections"
    ∈ snd (resolveFlowCollection' top).
Proof.
  intros Hitems Htype. apply (reported_at_token _ top pre post t Hitems).
  unfold Compose.step.
  destruct Htype as [-> | ->]; apply keeps_composeValue; simpl;
    rewrite elem_of_app, list_elem_of_singleton; auto.
Qed.

Lemma value_composeValue (t : Token.t) (st : State) :
  ∃ v, value (composeValue' t st) = Some v ∧ key (composeValue' t st) = key st.
Proof.
  unfold Compose.composeValue.
  repeat (first [ progress (simplify_eq/=) | case_match ]); by eexists.
Qed.

Lemma value_step_token (i : nat) (t : Token.t) (st : State) :
  isValueToken t = true →
  ∃ v, value (step' i t st) = Some v.
Proof.
  unfold isValueToken, Compose.step.
  destruct (Token.type t); try discriminate; intros _;
    edestruct value_composeValue as (v & Hv & _); eauto.
Qed.

Lemma value_spaces (gap : list Token.t) (v : Tree) :
  Forall (λ t, Token.type t = TokenType.space) gap →
  ∀ i st, value st = Some v → value (loop' i gap st) = Some v.
Proof.
  induction 1 as [|t gap Ht _ IH]; intros i st Hst; simpl; [done|].
  apply IH. unfold Compose.step. by rewrite Ht.
Qed.

Lemma missing_char_step (i : nat) (t : Token.t) (st : State) (v : Tree) :
  isValueToken t = true → value st = Some v →
  ∃ e, e ∈ errors (step' i t st)
       ∧ code e = MISSING_CHAR
       ∧ message e = "Missing , between flow collection items".
Proof.
  intros Ht Hv.
  exists (mkError (offset st) MISSING_CHAR "Missing , between flow collection items").
  split; [|done].
  unfold isValueToken in Ht. unfold Compose.step.
  destruct (Token.type t); try discriminate; unfold Compose.composeValue; simpl;
    rewrite Hv; simpl;
    repeat (first [ progress (simplify_eq/=) | case_match ]);
    unfold report; simpl; rewrite !elem_of_app, !list_elem_of_singleton; naive_solver.
Qed.

(** X13. A missing comma is always reported: when two tokens that are
    composed as values follow each other with only spaces between them, the
    result has a [MISSING_CHAR] error for the missing comma. *)
Theorem missing_comma_reported (top : nat) (pre gap post : list Token.t)
    (a b : Token.t) :
  fc_items fc = pre ++ a :: gap ++ b :: post →
  isValueToken a = true → isValueToken b = true →
  Forall (λ t, Token.type t = TokenType.space) gap →
  ∃ e, e ∈ snd (resolveFlowCollection' top)
       ∧ code e = MISSING_CHAR
       ∧ message e = "Missing , between flow collection items".
Proof.
  intros Hitems Ha Hb Hgap.
  destruct (value_step_token (length pre) a (loop' 0 pre (init fc top)) Ha) as [v Hv].
  apply (value_spaces gap v Hgap (S (length pre))) in Hv.
  destruct (missing_char_step (length (pre ++ a :: gap)) b _ v Hb Hv) as (e & Hin & Hcode & Hmsg).
  exists e. split; [|done].
  apply (reported_at_token e top (pre ++ a :: gap) post b).
  - by rewrite Hitems, <- app_assoc.
  - by rewrite loop_app.
Qed.

(** The state reached from the start over spaces only. *)
Lemma init_spaces (gap : list Token.t) :
  Forall (λ t, Token.type t = TokenType.space) gap →
  ∀ i st,
    key st = None → value st = None → anchor st = "" → tagName st = "" →
    atExplicitKey st = false →
    key (loop' i gap st) = None ∧ value (loop' i gap st) = None
    ∧ anchor (loop' i gap st) = "" ∧ tagName (loop' i gap st) = ""
    ∧ atExplicitKey (loop' i gap st) = false
    ∧ offset (loop' i gap st) = (offset st + width gap)%Z.
Proof.
  induction 1 as [|t gap Ht _ IH]; intros i st Hk Hv Ha Htn He.
  - simpl. repeat split; try done. lia.
  - cbn [Compose.loop].
    assert (step' i t st
            = set_offset (offset (set_hasSpace true st) + len (Token.source t))
                         (set_hasSpace true st)) as ->
      by (unfold Compose.step; by rewrite Ht).
    destruct (IH (S i) (set_offset (offset (set_hasSpace true st)
                                    + len (Token.source t)) (set_hasSpace true st)))
      as (? & ? & ? & ? & ? & Hoff); try done.
    repeat split; try done. rewrite Hoff. simpl. lia.
Qed.

(** X14. A comma before any item is always reported: when a comma follows
    the opening bracket, with at most spaces before it, the result has an
    [UNEXPECTED_TOKEN] error at the position of that comma. *)
Theorem leading_comma_reported (top : nat) (gap post : list Token.t) (comma : Token.t) :
  fc_items fc = gap ++ comma :: post →
  Forall (λ t, Token.type t = TokenType.space) gap →
  Token.type comma = TokenType.comma →
  mkError (fc_offset fc + 1 + width gap) UNEXPECTED_TOKEN
    ("Unexpected , in flow " +:+ (if isMap fc then "map" else "sequence"))
    ∈ snd (resolveFlowCollection' top).
Proof.
  intros Hitems Hgap Hcomma. apply (reported_at_token _ top gap post comma Hitems).
  destruct (init_spaces gap Hgap 0 (init fc top)) as (Hk & Hv & Ha & Ht & He & Ho);
    try done.
  unfold Compose.step. rewrite Hcomma, Hk, Hv, Ha, Ht, He. simpl.
  rewrite Ho. simpl. rewrite elem_of_app, list_elem_of_singleton. by right.
Qed.

(** X15. A flow collection that does not end with its closing bracket is
    always reported: when the end tokens are missing, or the first one is
    not the bracket that closes the collection, the result has a
    [MISSING_CHAR] error naming the expected bracket. *)
Theorem missing_end_reported (top : nat) :
  head (Token.source <$> fc_end fc) ≠ Some (if isMap fc then "}" else "]") →
  ∃ e, e ∈ snd (resolveFlowCollection' top)
       ∧ code e = MISSING_CHAR
       ∧ message e = "Expected flow " +:+ (if isMap fc then "map" else "sequence")
                     +:+ " to end with " +:+ (if isMap fc then "}" else "]").
Proof.
  intros Hend. eexists (mkError _ MISSING_CHAR _). split; [|done].
  unfold Compose.resolveFlowCollection.
  destruct (fc_end fc) as [|ce ee]; simpl in *.
  - rewrite elem_of_app, list_elem_of_singleton. by right.
  - destruct (String.eqb_spec (Token.source ce) (if isMap fc then "}" else "]"))
      as [Heq|Hne]; [by rewrite Heq in Hend|].
    destruct ee as [|e' ee]; simpl.
    + rewrite elem_of_app, list_elem_of_singleton. by right.
    + destruct (resolveEnd _ _ _) as [[c o] es]. simpl.
      rewrite !elem_of_app, list_elem_of_singleton. left. by right.
Qed.

(** *** The items of a flow map *)

Lemma pairs_commentLastItem (st : State) :
  Forall (λ t, isPair t = true) (items st) →
  Forall (λ t, isPair t = true) (items (commentLastItem st)).
Proof.
  intros Hitems. unfold commentLastItem.
  destruct (items st !! (length (items st) - 1)) as [last|] eqn:Hlast; [|done].
  pose proof (Forall_lookup_1 _ _ _ _ Hitems Hlast) as Hpair. simpl in Hpair.
  destruct last; try discriminate.
  repeat case_match; simpl; try done; by apply Forall_insert.
Qed.

Lemma pairs_addItem (pos : nat) (st : State) :
  isMap fc = true →
  Forall (λ t, isPair t = true) (items st) →
  Forall (λ t, isPair t = true) (items (addItem' pos st)).
Proof.
  intros HisMap Hitems. unfold Compose.addItem. rewrite HisMap.
  repeat (first [ progress (simplify_eq/=) | case_match
                | progress unfold push, report, getProps, new in * ]);
    rewrite Forall_app, Forall_singleton; by split.
Qed.

Lemma items_composeValue (t : Token.t) (st : State) :
  items (composeValue' t st) = items st.
Proof.
  unfold Compose.composeValue.
  by repeat (first [ progress (simplify_eq/=) | case_match ]).
Qed.

Lemma items_mapValueInd (i : nat) (st : State) : items (mapValueInd' i st) = items st.
Proof.
  unfold Compose.mapValueInd.
  by repeat (first [ progress (simplify_eq/=) | case_match
                   | progress unfold onError, report, getProps, new in * ]).
Qed.

Lemma pairs_step (i : nat) (t : Token.t) (st : State) :
  isMap fc = true →
  Forall (λ t, isPair t = true) (items st) →
  Forall (λ t, isPair t = true) (items (step' i t st)).
Proof.
  intros HisMap Hitems. unfold Compose.step.
  destruct (Token.type t);
    repeat (first [ progress simpl | case_match
                  | rewrite items_composeValue | rewrite items_mapValueInd
                  | apply pairs_commentLastItem | apply pairs_addItem ]); auto.
Qed.

Lemma pairs_loop (tokens : list Token.t) :
  isMap fc = true →
  ∀ i st, Forall (λ t, isPair t = true) (items st) →
          Forall (λ t, isPair t = true) (items (loop' i tokens st)).
Proof.
  intros HisMap. induction tokens as [|t tokens IH]; intros i st Hst; simpl; [done|].
  by apply IH, pairs_step.
Qed.

(** X16. The items of a composed flow map are all pairs, whatever the
    tokens are and whatever the callees return. *)
Theorem flow_map_items_are_pairs (top : nat) :
  isMap fc = true →
  ∃ base l,
    fst (resolveFlowCollection' top) = YAMLMap base None true l
    ∧ Forall (λ item, isPair item = true) l.
Proof.
  intros HisMap.
  assert (Forall (λ t, isPair t = true)
            (items (finish' (loop' 0 (fc_items fc) (init fc top))))) as Hitems.
  { unfold Compose.finish.
    case_match; [apply pairs_addItem; [done|]|]; by apply pairs_loop. }
  revert Hitems. unfold Compose.resolveFlowCollection. rewrite HisMap.
  generalize (finish' (loop' 0 (fc_items fc) (init fc top))). intros st Hitems.
  repeat (first [ progress (simplify_eq/=) | case_match ]); by eexists _, _.
Qed.

(** *** Without [strict] *)

Hypothesis lenient_mode : strict ctx = false.
Hypothesis composeNode_lenient : ∀ c t p, lenient (snd (composeNode c t p)).
Hypothesis composeEmptyNode_lenient :
  ∀ c o l i p, lenient (snd (composeEmptyNode c o l i p)).
Hypothesis resolveEnd_lenient : ∀ ee o, lenient (snd (resolveEnd ee o false)).

Ltac lenient_tac :=
  repeat (first
    [ progress (simplify_eq/=)
    | case_match
    | progress unfold onError, report, push, getProps, new, lenient in *
    | progress rewrite ?Forall_app, ?Forall_singleton
    | split ]);
  auto.

Lemma lenient_commentLastItem st :
  lenient (errors st) → lenient (errors (commentLastItem st)).
Proof. intros H. unfold commentLastItem. lenient_tac. Qed.

Lemma lenient_addItem pos st : lenient (errors st) → lenient (errors (addItem' pos st)).
Proof.
  intros H. unfold Compose.addItem.
  pose proof (composeEmptyNode_lenient ctx (offset st) (fc_items fc) pos
                (mkProps (spaceBefore st) (comment st) (anchor st) (tagName st))) as Hc.
  lenient_tac;
    match goal with Heq : composeEmptyNode _ _ _ _ _ = _ |- _ => by rewrite Heq in Hc end.
Qed.

Lemma lenient_composeValue t st :
  lenient (errors st) → lenient (errors (composeValue' t st)).
Proof.
  intros H. unfold Compose.composeValue.
  pose proof (composeNode_lenient ctx t
                (mkProps (spaceBefore st) (comment st) (anchor st) (tagName st))) as Hc.
  destruct st; simpl in *.
  lenient_tac;
    match goal with Heq : composeNode _ _ _ = _ |- _ => by rewrite Heq in Hc end.
Qed.

Lemma lenient_mapValueInd i st :
  lenient (errors st) → lenient (errors (mapValueInd' i st)).
Proof.
  intros H. unfold Compose.mapValueInd. rewrite lenient_mode.
  pose proof (composeEmptyNode_lenient ctx (offset st) (fc_items fc) i
                (mkProps (spaceBefore st) (comment st) (anchor st) (tagName st))) as Hc.
  destruct st; simpl in *.
  lenient_tac;
    match goal with Heq : composeEmptyNode _ _ _ _ _ = _ |- _ => by rewrite Heq in Hc end.
Qed.

Lemma lenient_onError o c m st :
  strictOnly c = false → lenient (errors st) → lenient (errors (onError o c m st)).
Proof.
  intros Hc H. unfold onError, lenient in *. simpl.
  rewrite Forall_app, Forall_singleton. by split.
Qed.

Lemma lenient_step i t st : lenient (errors st) → lenient (errors (step' i t st)).
Proof.
  intros H. unfold Compose.step. rewrite lenient_mode.
  destruct (Token.type t);
    repeat (first [ progress simpl | case_match
                  | apply lenient_commentLastItem | apply lenient_addItem
                  | apply lenient_mapValueInd | apply lenient_composeValue
                  | apply lenient_onError; [reflexivity|] ]); auto.
  all: unfold lenient in *; rewrite ?Forall_app, ?Forall_singleton, Forall_fmap;
    repeat split; try done; by apply Forall_true.
Qed.

Lemma lenient_loop tokens : ∀ i st,
  lenient (errors st) → lenient (errors (loop' i tokens st)).
Proof.
  induction tokens as [|t tokens IH]; intros i st Hst; simpl; [done|].
  by apply IH, lenient_step.
Qed.

(** X17. Without [strict], a flow collection is composed without any of the
    errors that belong to strict mode ([COMMENT_SPACE],
    [MULTILINE_IMPLICIT_KEY], [KEY_OVER_1024_CHARS]), as long as the callees
    report none. *)
Theorem lenient_resolveFlowCollection (top : nat) :
  lenient (snd (resolveFlowCollection' top)).
Proof.
  assert (lenient (errors (finish' (loop' 0 (fc_items fc) (init fc top))))) as Hst.
  { unfold Compose.finish.
    case_match; [apply lenient_addItem|]; apply lenient_loop; by constructor. }
  revert Hst. unfold Compose.resolveFlowCollection. rewrite lenient_mode.
  generalize (finish' (loop' 0 (fc_items fc) (init fc top))). intros st Hst.
  destruct (fc_end fc) as [|ce [|e' ee]]; simpl.
  - by apply lenient_onError.
  - case_match; [done | by apply lenient_onError].
  - pose proof (resolveEnd_lenient (e' :: ee)) as Hend.
    repeat (first [ progress (simplify_eq/=) | case_match ]);
      unfold report, lenient in *; simpl; rewrite Forall_app;
      (split; [by (try apply lenient_onError)|]);
      match goal with Heq : resolveEnd _ ?o _ = _ |- _ =>
        specialize (Hend o); by rewrite Heq in Hend end.
Qed.
End compose_more.

(** ** public-api.ts *)

Section api_more.
Import PublicApiMore.
Variable LineCounter : Type.
Variable newLineCounter : LineCounter.
Variable composeStream :
  string → option (PublicApi.ParseOptions LineCounter) → option LineCounter →
  list Document * option LineCounter.
Variable prettifyError : string → LineCounter → YAMLParseError → YAMLParseError.
Variable StreamInfo : Type.
Variable composeAll :
  string → option (PublicApi.ParseOptions LineCounter) → option LineCounter →
  list Document * option LineCounter * StreamInfo.
Variable Reviver : Type.
Variable toJS :
  Document → option Reviver → option (PublicApi.ParseOptions LineCounter) →
  JS.thrown + JS.value.
Hypothesis prettifyError_keeps :
  ∀ src lc e, pos (prettifyError src lc e) = pos e
              ∧ code (prettifyError src lc e) = code e.

#[local] Abbreviation parseDocument' :=
  (PublicApi.parseDocument LineCounter newLineCounter composeStream prettifyError).
#[local] Abbreviation parseOptions' :=
  (PublicApi.parseOptions LineCounter newLineCounter).
#[local] Abbreviation parse' :=
  (parse LineCounter newLineCounter composeStream prettifyError Reviver toJS).
#[local] Abbreviation parseAllDocuments' :=
  (parseAllDocuments LineCounter newLineCounter prettifyError StreamInfo composeAll).

#[local] Abbreviation effective' := (effective LineCounter Reviver).

(** The document that [parseDocument] returns, in full. *)
Lemma parseDocument_doc (source : string)
    (options : option (PublicApi.ParseOptions LineCounter))
    (d0 : Document) (rest : list Document) (lc : option LineCounter) :
  composeStream source options (fst (parseOptions' options)) = (d0 :: rest, lc) →
  ∃ d,
    parseDocument' source options = Some d
    ∧ contents d = contents d0
    ∧ Nodes.options d = Nodes.options d0
    ∧ length (warnings d) = length (warnings d0)
    ∧ (λ e, (pos e, code e)) <$> errors d
      = ((λ e, (pos e, code e)) <$> errors d0)
        ++ if PublicApi.silent d0 then []
           else (λ d', (fst (doc_range d'), MULTIPLE_DOCS)) <$> rest.
Proof.
  intros Hdocs. unfold PublicApi.parseDocument.
  destruct (parseOptions' options) as [lc0 pretty]. simpl in Hdocs. rewrite Hdocs.
  change (foldl _ None (d0 :: rest)) with (foldl PublicApi.onDocument (Some d0) rest).
  rewrite foldl_onDocument.
  assert ((λ e, (pos e, code e)) <$>
            errors (if PublicApi.silent d0 then d0
                    else mkDocument (contents d0)
                           (errors d0 ++ (PublicApi.multipleDocs <$> rest))
                           (warnings d0) (doc_range d0) (Nodes.options d0))
          = ((λ e, (pos e, code e)) <$> errors d0)
            ++ if PublicApi.silent d0 then []
               else (λ d', (fst (doc_range d'), MULTIPLE_DOCS)) <$> rest) as Herr.
  { destruct (PublicApi.silent d0); simpl; [by rewrite app_nil_r|].
    by rewrite fmap_app, <- list_fmap_compose. }
  destruct pretty, lc as [lc|]; simpl; eexists; (split; [reflexivity|]);
    (split; [by destruct (PublicApi.silent d0)|]);
    (split; [by destruct (PublicApi.silent d0)|]);
    (split; [simpl; rewrite ?length_fmap; by destruct (PublicApi.silent d0)|]);
    simpl; rewrite ?(prettified_keys _ prettifyError prettifyError_keeps); exact Herr.
Qed.

(** X18. [parse] on a source with more than one document throws, unless the
    log level of the first document is ['silent']: it throws the first
    error of the first document, and when that document has none, a
    [MULTIPLE_DOCS] error at the start of the second document. *)
Theorem parse_multiple_docs_throws (src : string)
    (reviver : ReviverArg LineCounter Reviver)
    (options : option (PublicApi.ParseOptions LineCounter))
    (d0 d1 : Document) (rest : list Document) (lc : option LineCounter) :
  composeStream src (effective' reviver options)
    (fst (parseOptions' (effective' reviver options))) = (d0 :: d1 :: rest, lc) →
  PublicApi.silent d0 = false →
  ∃ e,
    outcome (parse' src reviver options) = Throws e
    ∧ (pos e, code e)
      = match errors d0 with
        | e0 :: _ => (pos e0, code e0)
        | [] => (fst (doc_range d1), MULTIPLE_DOCS)
        end.
Proof.
  intros Hdocs Hsilent.
  destruct (parseDocument_doc _ _ _ _ _ Hdocs)
    as (d & Hd & _ & Hopts & _ & Herr).
  unfold parse. fold (effective' reviver options). rewrite Hd.
  rewrite Hsilent in Herr. unfold PublicApi.silent in Hsilent. rewrite <- Hopts in Hsilent.
  destruct (errors d) as [|e es].
  - rewrite fmap_cons in Herr. change (_ <$> []) with (@nil (Z * ErrorCode)) in Herr.
    by apply app_cons_not_nil in Herr.
  - rewrite Hsilent. simpl. exists e. split; [done|].
    rewrite !fmap_cons in Herr. destruct (errors d0) as [|e0 es0].
    + change (_ <$> [] ++ ?l) with l in Herr. injection Herr. intros. congruence.
    + rewrite fmap_cons in Herr. injection Herr. intros. congruence.
Qed.

(** X19. With [logLevel: 'silent'] on the first document, [parse] never
    throws a parse error: it converts the first document, with its errors
    cleared, whatever it and the documents after it contain. *)
Theorem parse_silent_converts (src : string)
    (reviver : ReviverArg LineCounter Reviver)
    (options : option (PublicApi.ParseOptions LineCounter))
    (d0 : Document) (rest : list Document) (lc : option LineCounter) :
  composeStream src (effective' reviver options)
    (fst (parseOptions' (effective' reviver options))) = (d0 :: rest, lc) →
  PublicApi.silent d0 = true →
  ∃ d,
    outcome (parse' src reviver options)
      = ToJS (toJS d match reviver with ReviverFunction _ _ f => Some f | _ => None end
                  (effective' reviver options))
    ∧ errors d = []
    ∧ contents d = contents d0.
Proof.
  intros Hdocs Hsilent.
  destruct (parseDocument_doc _ _ _ _ _ Hdocs)
    as (d & Hd & Hcontents & Hopts & _ & _).
  unfold parse. fold (effective' reviver options). rewrite Hd.
  unfold PublicApi.silent in Hsilent. rewrite <- Hopts in Hsilent.
  destruct (errors d) as [|e es] eqn:He.
  - exists d. by repeat split.
  - rewrite Hsilent. simpl. exists (clearErrors d). by repeat split.
Qed.

(** X20. [parseAllDocuments] returns the empty stream exactly when the
    composer hands over no document; otherwise it returns the documents in
    order, each with its contents and with the positions and codes of its
    errors as composed: no error is added for further documents. *)
Theorem parseAllDocuments_docs (source : string)
    (options : option (PublicApi.ParseOptions LineCounter))
    (docs : list Document) (lc : option LineCounter) (info : StreamInfo) :
  composeAll source options (fst (parseOptions' options)) = (docs, lc, info) →
  match parseAllDocuments' source options with
  | EmptyStream _ i => docs = [] ∧ i = info
  | Documents _ docs' =>
      docs ≠ []
      ∧ (λ d, (contents d, (λ e, (pos e, code e)) <$> errors d)) <$> docs'
        = (λ d, (contents d, (λ e, (pos e, code e)) <$> errors d)) <$> docs
  end.
Proof.
  intros Hdocs. unfold parseAllDocuments.
  destruct (parseOptions' options) as [lc0 pretty]. simpl in Hdocs. rewrite Hdocs.
  assert (∀ l, (λ d, (contents d, (λ e, (pos e, code e)) <$> errors d))
                 <$> (prettify LineCounter prettifyError source l <$> docs)
               = (λ d, (contents d, (λ e, (pos e, code e)) <$> errors d)) <$> docs)
    as Hpretty.
  { intros l. rewrite <- list_fmap_compose. apply list_fmap_ext. intros _ d _. simpl.
    by rewrite (prettified_keys _ prettifyError prettifyError_keeps). }
  destruct pretty, lc as [l|]; destruct docs as [|d docs]; simpl; try done;
    split; try done; apply (Hpretty l).
Qed.
End api_more.

Section stringify_more.
Import PublicApiMore.
Variable ReplacerFunction : Type.
Variable documentToString :
  Tree → ReplacerArg ReplacerFunction → option Options → JS.thrown + string.

#[local] Abbreviation stringify' := (stringify ReplacerFunction documentToString).

(** X21. A number given to [stringify] as its options is an indent: rounded
    to the integer [z], it makes the document be written with the indent
    [z] cut down to 8, and with no options at all when [z] is below 1; a
    string stands for its length. *)
Theorem stringify_indent (value : Tree) (replacer : ReplacerArg ReplacerFunction)
    (n : JS.number) (z : Z) (s : string) :
  isUndefined value = false →
  round n = JS.Int z →
  stringify' value replacer (OptionsNumber n)
  = match documentToString value
            match replacer with
            | ReplacerFn _ _ | ReplacerArray _ _ => replacer
            | _ => ReplacerNull _
            end
            (if (z <? 1)%Z then None
             else Some {[ "indent" := JS.num (JS.Int (Z.min z 8)) ]}) with
    | inl e => inl e
    | inr out => inr (Some out)
    end
  ∧ stringify' value replacer (OptionsString s)
    = stringify' value replacer (OptionsNumber (JS.Int (Z.of_nat (String.length s)))).
Proof.
  intros Hvalue Hround. split.
  - unfold stringify, normalize. rewrite Hvalue. simpl.
    assert (match replacer with
            | ReplacerObject _ o =>
                match OptionsNumber n with
                | OptionsUndefined => OptionsObject o
                | _ => OptionsNumber n
                end
            | _ => OptionsNumber n
            end = OptionsNumber n) as -> by (by destruct replacer).
    rewrite Hround. simpl.
    destruct (Z.ltb_spec z 1); [done|].
    destruct (Z.gtb_spec z 8).
    + by rewrite Z.min_r by lia.
    + by rewrite Z.min_l by lia.
  - unfold stringify, normalize. by destruct replacer.
Qed.

End stringify_more.

Lemma stringify_indent_witness :
  PublicApiMore.stringify () SampleMore.documentToString
    Sample.one (PublicApiMore.ReplacerNull _)
    (PublicApiMore.OptionsNumber (JS.Fraction 41 2))
  = inr (Some "indent 8")
  ∧ PublicApiMore.stringify () SampleMore.documentToString
      Sample.one (PublicApiMore.ReplacerNull _) (PublicApiMore.OptionsString "")
    = inr (Some "plain").
Proof.
  split.
  - apply (proj1 (stringify_indent () SampleMore.documentToString Sample.one
                    (PublicApiMore.ReplacerNull _) (JS.Fraction 41 2) 21 ""
                    eq_refl eq_refl)).
  - rewrite (proj2 (stringify_indent () SampleMore.documentToString Sample.one
                      (PublicApiMore.ReplacerNull _) (JS.Int 0) 0 ""
                      eq_refl eq_refl)).
    apply (proj1 (stringify_indent () SampleMore.documentToString Sample.one
                    (PublicApiMore.ReplacerNull _) (JS.Int 0) 0 ""
                    eq_refl eq_refl)).
Defined.

Lemma block_in_flow_reported_witness :
  ∃ e, e ∈ snd (Sample.resolveFlowCollection true SampleMore.blockInside)
       ∧ code e = BLOCK_IN_FLOW ∧ pos e = 2%Z.
Proof.
  eexists. split.
  - apply (block_in_flow_reported Sample.composeNode Sample.composeEmptyNode
             Sample.tagName Sample.containsNewline Sample.resolveEnd
             (Compose.mkContext true) SampleMore.blockInside 0
             [Compose.Token.mk Compose.TokenType.space 1 " "] []
             (Compose.Token.mk Compose.TokenType.block_map 2 "a: b")).
    + reflexivity.
    + by left.
  - split; reflexivity.
Defined.

Lemma missing_comma_reported_witness :
  ∃ e, e ∈ snd (Sample.resolveFlowCollection true SampleMore.twoValues)
       ∧ code e = MISSING_CHAR
       ∧ message e = "Missing , between flow collection items".
Proof.
  apply (missing_comma_reported Sample.composeNode Sample.composeEmptyNode
           Sample.tagName Sample.containsNewline Sample.resolveEnd
           (Compose.mkContext true) SampleMore.twoValues 0
           [Compose.Token.mk Compose.TokenType.space 1 " "]
           [Compose.Token.mk Compose.TokenType.space 3 " "]
           [Compose.Token.mk Compose.TokenType.space 5 " "]
           (Sample.scalar 2 "a") (Sample.scalar 4 "b")).
  - reflexivity.
  - reflexivity.
  - reflexivity.
  - by repeat constructor.
Defined.

Lemma leading_comma_reported_witness :
  mkError 2 UNEXPECTED_TOKEN "Unexpected , in flow sequence"
    ∈ snd (Sample.resolveFlowCollection true SampleMore.leadingComma).
Proof.
  apply (leading_comma_reported Sample.composeNode Sample.composeEmptyNode
           Sample.tagName Sample.containsNewline Sample.resolveEnd
           (Compose.mkContext true) SampleMore.leadingComma 0
           [Compose.Token.mk Compose.TokenType.space 1 " "]
           [Compose.Token.mk Compose.TokenType.space 3 " "; Sample.scalar 4 "a";
            Compose.Token.mk Compose.TokenType.space 5 " "]
           (Compose.Token.mk Compose.TokenType.comma 2 ",")).
  - reflexivity.
  - by repeat constructor.
  - reflexivity.
Defined.

Lemma missing_end_reported_witness :
  ∃ e, e ∈ snd (Sample.resolveFlowCollection true SampleMore.unclosed)
       ∧ code e = MISSING_CHAR
       ∧ message e = "Expected flow sequence to end with ]".
Proof.
  apply (missing_end_reported Sample.composeNode Sample.composeEmptyNode
           Sample.tagName Sample.containsNewline Sample.resolveEnd
           (Compose.mkContext true) SampleMore.unclosed 0).
  discriminate.
Defined.

Lemma flow_map_items_are_pairs_witness :
  ∃ base l,
    fst (Sample.resolveFlowCollection true SampleMore.flowMap) = YAMLMap base None true l
    ∧ Forall (λ item, isPair item = true) l.
Proof.
  apply (flow_map_items_are_pairs Sample.composeNode Sample.composeEmptyNode
           Sample.tagName Sample.containsNewline Sample.resolveEnd
           (Compose.mkContext true) SampleMore.flowMap 0).
  reflexivity.
Defined.

Lemma lenient_resolveFlowCollection_witness :
  More.lenient (snd (Sample.resolveFlowCollection false Sample.pairSeq)).
Proof.
  apply (lenient_resolveFlowCollection Sample.composeNode Sample.composeEmptyNode
           Sample.tagName Sample.containsNewline Sample.resolveEnd
           (Compose.mkContext false) Sample.pairSeq).
  - reflexivity.
  - intros. constructor.
  - intros. constructor.
  - intros. constructor.
Defined.

Lemma parse_multiple_docs_throws_witness :
  ∃ e,
    PublicApiMore.outcome
      (PublicApiMore.parse unit () (Sample.composeStream "warn") (λ _ _ e, e) unit
         SampleMore.toJS Sample.twoDocs (PublicApiMore.NoReviver _ _) None)
    = PublicApiMore.Throws e
    ∧ (pos e, code e) = (6%Z, MULTIPLE_DOCS).
Proof.
  apply (parse_multiple_docs_throws unit () (Sample.composeStream "warn") (λ _ _ e, e) unit
           SampleMore.toJS (λ _ _ _, conj eq_refl eq_refl)
           Sample.twoDocs (PublicApiMore.NoReviver _ _) None
           (Sample.first "warn") Sample.second [] (Some ())).
  - reflexivity.
  - reflexivity.
Defined.

Lemma parse_silent_converts_witness :
  ∃ d,
    PublicApiMore.outcome
      (PublicApiMore.parse unit () (Sample.composeStream "silent") (λ _ _ e, e) unit
         SampleMore.toJS Sample.twoDocs (PublicApiMore.NoReviver _ _) None)
    = PublicApiMore.ToJS (SampleMore.toJS d None None)
    ∧ errors d = []
    ∧ contents d = Sample.one.
Proof.
  apply (parse_silent_converts unit () (Sample.composeStream "silent") (λ _ _ e, e) unit
           SampleMore.toJS (λ _ _ _, conj eq_refl eq_refl)
           Sample.twoDocs (PublicApiMore.NoReviver _ _) None
           (Sample.first "silent") [Sample.second] (Some ())).
  - reflexivity.
  - reflexivity.
Defined.

Lemma parseAllDocuments_docs_witness :
  match PublicApiMore.parseAllDocuments unit () (λ _ _ e, e) unit
          SampleMore.composeAll Sample.twoDocs None with
  | PublicApiMore.EmptyStream _ _ => False
  | PublicApiMore.Documents _ docs => contents <$> docs = [Sample.one; Sample.two]
  end.
Proof.
  pose proof (parseAllDocuments_docs unit () (λ _ _ e, e) unit
                SampleMore.composeAll
                (λ _ _ _, conj eq_refl eq_refl) Sample.twoDocs None
                [Sample.first "warn"; Sample.second] (Some ()) () eq_refl) as H.
  destruct (PublicApiMore.parseAllDocuments _ _ _ _ _ _ _) as [docs|i].
  - destruct H as [_ H]. apply (f_equal (fmap fst)) in H.
    rewrite <- !list_fmap_compose in H. exact H.
  - by destruct H.
Defined.

(** ** stringifyCollection and YAMLSeq.toString *)

Section stringify_more.
Import StringifyTypes Stringify.
Variable stringify : Tree → StringifyContext → JS.thrown + Rendered.
Variable addComment : string → string → option string → string.
Variable matchLines : string → list string.
Variable replaceLineStarts : string → string → string.
Variable maxFlowStringSingleLineLength : Z.
Variable jsonStringify : Collection → JS.thrown + string.

#[local] Abbreviation reduceItem' := (Stringify.reduceItem stringify addComment matchLines).
#[local] Abbreviation reduce' := (Stringify.reduce stringify addComment matchLines).
#[local] Abbreviation stringifyCollection' :=
  (Stringify.stringifyCollection stringify addComment matchLines replaceLineStarts
     maxFlowStringSingleLineLength).
#[local] Abbreviation seq_toString :=
  (YAMLSeqMore.toString stringify addComment matchLines replaceLineStarts
     maxFlowStringSingleLineLength jsonStringify).

Lemma reduce_app ctx ii inFlow n l1 : ∀ l2 acc i,
  reduce' ctx ii inFlow n acc i (l1 ++ l2)
  = match reduce' ctx ii inFlow n acc i l1 with
    | inl e => inl e
    | inr acc1 => reduce' ctx ii inFlow n acc1 (i + length l1) l2
    end.
Proof.
  induction l1 as [|x l1 IH]; intros l2 acc i; simpl.
  - by rewrite Nat.add_0_r.
  - destruct (reduceItem' ctx ii inFlow n acc i x) as [e|acc1]; [done|].
    rewrite IH. by rewrite Nat.add_succ_r.
Qed.

Lemma reduceItem_throws ctx ii inFlow n acc i item e :
  reduceItem' ctx ii inFlow n acc i item = inl e ↔ stringify item ctx = inl e.
Proof.
  unfold Stringify.reduceItem.
  destruct (isNode item || isPair item), (stringify item ctx) as [e'|r];
    split; congruence.
Qed.

Lemma reduceItem_renders ctx ii inFlow n acc i item acc' :
  reduceItem' ctx ii inFlow n acc i item = inr acc' →
  ∃ r, stringify item ctx = inr r.
Proof.
  unfold Stringify.reduceItem.
  destruct (isNode item || isPair item), (stringify item ctx) as [e'|r];
    try discriminate; by eexists.
Qed.

Lemma reduce_throws ctx ii inFlow n items e : ∀ acc i,
  reduce' ctx ii inFlow n acc i items = inl e
  ↔ ∃ pre item post,
      items = pre ++ item :: post
      ∧ Forall (λ x, ∃ r, stringify x ctx = inr r) pre
      ∧ stringify item ctx = inl e.
Proof.
  induction items as [|x items IH]; intros acc i; simpl.
  - split; [done|]. intros (pre & item & post & Heq & _). by destruct pre.
  - destruct (reduceItem' ctx ii inFlow n acc i x) as [e'|acc1] eqn:Hx.
    + apply reduceItem_throws in Hx. split.
      * intros [= ->]. exists [], x, items. by repeat split.
      * intros ([|y pre] & item & post & Heq & Hpre & Hitem); simplify_eq/=.
        -- congruence.
        -- apply Forall_cons in Hpre as [[r Hr] _]. congruence.
    + destruct (reduceItem_renders _ _ _ _ _ _ _ _ Hx) as [r Hr].
      rewrite IH. split.
      * intros (pre & item & post & -> & Hpre & Hitem).
        exists (x :: pre), item, post. repeat split; [|done].
        apply Forall_cons. split; [by eexists | done].
      * intros ([|y pre] & item & post & Heq & Hpre & Hitem); simplify_eq/=.
        -- congruence.
        -- apply Forall_cons in Hpre as [_ Hpre]. by exists pre, item, post.
Qed.

(** X22. [stringifyCollection] throws an error exactly when [stringify]
    throws it for an item all of whose predecessors it renders: the error
    of the first item that fails is passed on, and nothing is returned. *)
Theorem stringify_error_propagates (coll : Collection) (ctx : StringifyContext)
    (opts : StringifyCollectionOptions) (e : JS.thrown) :
  stringifyCollection' coll ctx opts = inl e
  ↔ ∃ pre item post,
      c_items coll = pre ++ item :: post
      ∧ Forall (λ x, ∃ r, stringify x (itemContext coll ctx opts) = inr r) pre
      ∧ stringify item (itemContext coll ctx opts) = inl e.
Proof.
  rewrite <- (reduce_throws (itemContext coll ctx opts) (itemIndentOf coll ctx opts)
                (c_flow coll || inFlow ctx) (length (c_items coll)) (c_items coll) e
                (mkAcc [] false false) 0).
  unfold Stringify.stringifyCollection, itemContext, itemIndentOf.
  destruct (reduce' _ _ _ _ _ _ _) as [e'|acc]; [split; congruence|].
  destruct (truthyStr (c_comment coll)); split; discriminate.
Qed.

Lemma reduceItem_chompKeep ctx ii inFlow n acc i item acc' :
  reduceItem' ctx ii inFlow n acc i item = inr acc' →
  ∃ r, stringify item ctx = inr r
       ∧ chompKeep acc'
         = r_onChompKeep r && negb (truthyStr (More.commentLeft item r) || inFlow).
Proof.
  unfold Stringify.reduceItem, More.commentLeft.
  destruct (isNode item || isPair item), (stringify item ctx) as [e'|r];
    try discriminate; intros [= <-]; exists r; (split; [done|]); simpl;
    destruct (r_onComment r), (r_onChompKeep r), (truthyStr (commentOf item)) eqn:Hc,
      inFlow; simpl; rewrite ?Hc; done.
Qed.

(** X23. [stringifyCollection] calls [onChompKeep] exactly when the callback
    is given, the collection is in block context and has no comment of its
    own, and [stringify] called its [onChompKeep] for the last item while no
    comment was left to add to that item.  In flow context it is never
    called. *)
Theorem onChompKeep_called (coll : Collection) (ctx : StringifyContext)
    (opts : StringifyCollectionOptions) (r : Rendered) :
  stringifyCollection' coll ctx opts = inr r →
  r_onChompKeep r = true
  ↔ onChompKeep opts = true
    ∧ c_flow coll || inFlow ctx = false
    ∧ truthyStr (c_comment coll) = false
    ∧ ∃ pre last rl,
        c_items coll = pre ++ [last]
        ∧ stringify last (itemContext coll ctx opts) = inr rl
        ∧ r_onChompKeep rl = true
        ∧ truthyStr (More.commentLeft last rl) = false.
Proof.
  unfold Stringify.stringifyCollection, itemContext, itemIndentOf.
  generalize (length (c_items coll)). intros n.
  destruct (c_items coll) as [|last pre _] using rev_ind.
  - simpl. destruct (truthyStr (c_comment coll)); intros [= <-]; simpl;
      (split; [done|]); intros (_ & _ & _ & pre & last & rl & Heq & _);
      by destruct pre.
  - rewrite reduce_app.
    destruct (reduce' _ _ _ _ _ _ pre) as [e|acc1]; [done|]. cbn [Stringify.reduce].
    destruct (reduceItem' _ _ _ _ acc1 _ last) as [e|acc] eqn:Hlast; [done|].
    destruct (reduceItem_chompKeep _ _ _ _ _ _ _ _ Hlast) as (rl & Hrl & Hck).
    destruct (truthyStr (c_comment coll)); intros [= <-]; simpl.
    + split; [done|]. by intros (_ & _ & ? & _).
    + rewrite Hck. split.
      * intros H. apply andb_true_iff in H as [H Hopt].
        apply andb_true_iff in H as [Hk Hn].
        apply negb_true_iff, orb_false_iff in Hn as [Hc Hflow].
        repeat split; try done. by exists pre, last, rl.
      * intros (Hopt & Hflow & _ & pre' & last' & rl' & Heq & Hrl' & Hk & Hc).
        apply app_inj_tail in Heq as [<- <-]. rewrite Hflow in *.
        rewrite Hrl in Hrl'. injection Hrl' as <-.
        by rewrite Hk, Hc, Hopt.
Qed.

Lemma reduceItem_plain ctx ii inFlow n acc i item r :
  More.noLinesBefore item = true →
  stringify item ctx = inr r →
  ∃ acc', reduceItem' ctx ii inFlow n acc i item = inr acc'
          ∧ nodes acc'
            = nodes acc ++ [mkNode false (More.itemString addComment ii inFlow n i item r)].
Proof.
  unfold Stringify.reduceItem, More.noLinesBefore, More.itemString, More.commentLeft.
  intros Hplain ->.
  destruct (isNode item || isPair item); simpl in *.
  - apply andb_true_iff in Hplain as [->%negb_true_iff ->%negb_true_iff].
    rewrite andb_false_r. eexists. split; [reflexivity|]. simpl.
    by destruct (r_onComment r), (truthyStr (commentOf item)).
  - eexists. split; [reflexivity|]. simpl. by destruct (r_onComment r).
Qed.

Lemma reduce_plain ctx ii inFlow n items : ∀ rs acc i,
  Forall (λ item, More.noLinesBefore item = true) items →
  Forall2 (λ item r, stringify item ctx = inr r) items rs →
  ∃ acc', reduce' ctx ii inFlow n acc i items = inr acc'
          ∧ nodes acc'
            = nodes acc
              ++ (mkNode false <$> More.itemStrings addComment ii inFlow n i items rs).
Proof.
  induction items as [|item items IH]; intros rs acc i Hplain Hrs.
  - apply Forall2_nil_inv_l in Hrs as ->. exists acc. by rewrite app_nil_r.
  - apply Forall2_cons_inv_l in Hrs as (r & rs' & Hr & Hrs & ->).
    apply Forall_cons in Hplain as [Hitem Hplain].
    destruct (reduceItem_plain ctx ii inFlow n acc i item r Hitem Hr) as (acc1 & H1 & Hn1).
    destruct (IH rs' acc1 (S i) Hplain Hrs) as (acc' & H' & Hn').
    exists acc'. cbn [Stringify.reduce]. rewrite H1. split; [done|].
    rewrite Hn', Hn1, <- app_assoc. done.
Qed.

Lemma foldl_blockLine indent (ss : list string) : ∀ s0,
  foldl (λ str s, str +:+ blockLine indent s) s0
        (YAMLSeqMore.blockItem <$> (mkNode false <$> ss))
  = foldl (λ str s, str +:+ String "010" (indent +:+ "- " +:+ s)) s0 ss.
Proof.
  induction ss as [|s ss IH]; intros s0; [done|].
  cbn [fmap list_fmap foldl]. rewrite <- IH. done.
Qed.

(** X24. A block sequence whose items have no blank line and no comment
    before them is written by [YAMLSeq.toString] with one line per item:
    [- ] and the item's string (what [stringify] gave, with the comment that
    is left added by [addComment], and no comma), every line after the
    first at the indent of the sequence; without items it is [[]].  The
    comment of the sequence, if any, follows. *)
Theorem block_seq_layout (this : Collection) (ctx : StringifyContext)
    (onComment onChompKeep : bool) (rs : list Rendered) :
  let itemIndent := (if truthyS (indent ctx) then indent ctx else "") +:+ "  " in
  c_flow this || inFlow ctx = false →
  Forall (λ item, More.noLinesBefore item = true) (c_items this) →
  Forall2 (λ item r,
             stringify item
               (mkSCtx (anchors ctx) (implicitKey ctx) itemIndent (indentStep ctx)
                       false None (verifyAliasOrder ctx)) = inr r)
          (c_items this) rs →
  ∃ r, seq_toString this (Some ctx) onComment onChompKeep = inr r
       ∧ r_str r
         = match More.itemStrings addComment itemIndent false
                   (length (c_items this)) 0 (c_items this) rs with
           | [] => "[]"
           | s :: ss =>
               foldl (λ str s, str +:+ String "010" (indent ctx +:+ "- " +:+ s))
                     ("- " +:+ s) ss
           end +:+ trailer replaceLineStarts this ctx.
Proof.
  intros itemIndent Hblock Hplain Hrs.
  unfold YAMLSeqMore.toString, Stringify.stringifyCollection, trailer.
  rewrite Hblock. cbn [Stringify.itemIndent Stringify.flowChars Stringify.blockItem].
  fold itemIndent.
  destruct (reduce_plain _ itemIndent false (length (c_items this)) _ rs
              (mkAcc [] false false) 0 Hplain Hrs) as (acc & -> & Hnodes).
  simpl in Hnodes. rewrite Hnodes.
  destruct (More.itemStrings _ _ _ _ _ _ _) as [|s ss].
  - destruct (truthyStr (c_comment this)); eexists; (split; [reflexivity|]);
      simpl; by rewrite ?append_nil_r.
  - cbn [fmap list_fmap length Nat.eqb YAMLSeqMore.blockItem Stringify.comment Stringify.str].
    rewrite foldl_blockLine.
    destruct (truthyStr (c_comment this)); eexists; (split; [reflexivity|]);
      simpl; by rewrite ?append_nil_r.
Qed.

(** X25. In flow context, when no item has a blank line or a comment
    before it, the strings laid out between the brackets are the items'
    strings in order, each but the last with a comma appended before
    [addComment] adds the comment that is left; they are set on one line or
    on a line each, and the comment of the collection follows. *)
Theorem flow_item_strings (coll : Collection) (ctx : StringifyContext)
    (opts : StringifyCollectionOptions) (rs : list Rendered) :
  c_flow coll || inFlow ctx = true →
  c_items coll ≠ [] →
  Forall (λ item, More.noLinesBefore item = true) (c_items coll) →
  Forall2 (λ item r, stringify item (itemContext coll ctx opts) = inr r)
          (c_items coll) rs →
  ∃ r, stringifyCollection' coll ctx opts = inr r
       ∧ r_str r
         = (let strings :=
              More.itemStrings addComment (itemIndent opts +:+ indentStep ctx) true
                (length (c_items coll)) 0 (c_items coll) rs in
            if existsb (breaksLine stringify (itemContext coll ctx opts)) (c_items coll)
               || (inlineLength strings >? maxFlowStringSingleLineLength)%Z
            then flowBroken (flowChars opts) (indentStep ctx) (indent ctx) strings
            else flowInline (flowChars opts) strings)
           +:+ trailer replaceLineStarts coll ctx.
Proof.
  intros Hflow Hne Hplain. unfold Stringify.stringifyCollection, itemContext,
    itemIndentOf, trailer.
  rewrite Hflow. intros Hrs.
  destruct (reduce_plain _ (itemIndent opts +:+ indentStep ctx) true
              (length (c_items coll)) _ rs (mkAcc [] false false) 0 Hplain Hrs)
    as (acc & Hred & Hnodes).
  rewrite Hred.
  destruct (reduce_flow _ _ _ _ _ _ _ (mkAcc [] false false) _ _ eq_refl Hred)
    as [Hnl Hnodes'].
  specialize (Hnodes' Hne). simpl in Hnl, Hnodes. rewrite Hnl.
  rewrite Hnodes in *. clear Hnodes Hred Hnl.
  assert (str <$> (mkNode false <$> More.itemStrings addComment
                     (itemIndent opts +:+ indentStep ctx) true (length (c_items coll)) 0
                     (c_items coll) rs)
          = More.itemStrings addComment (itemIndent opts +:+ indentStep ctx) true
              (length (c_items coll)) 0 (c_items coll) rs) as ->.
  { rewrite <- list_fmap_compose. apply list_fmap_id. }
  destruct (More.itemStrings _ _ _ _ _ _ _) as [|s ss]; [done|].
  cbn [fmap list_fmap length Nat.eqb].
  destruct (truthyStr (c_comment coll)); eexists; (split; [reflexivity|]);
    simpl; by rewrite ?append_nil_r.
Qed.
End stringify_more.

(** An unresolved alias among the items: its error is what
    [YAMLSeq.toString] throws. *)
Example seq_toString_unresolved_alias :
  SampleMore.toString SampleMore.danglingSeq false
  = inl (JS.Error (Alias.unresolvedMsg "b")).
Proof. reflexivity. Qed.

Lemma onChompKeep_called_witness :
  ∃ r, SampleMore.toString SampleMore.keptSeq true = inr r
       ∧ (Stringify.r_onChompKeep r = true
          ↔ Stringify.onChompKeep (SampleMore.seqOptions true) = true
            ∧ Stringify.c_flow SampleMore.keptSeq
              || StringifyTypes.inFlow SampleMore.sctx = false
            ∧ truthyStr (Stringify.c_comment SampleMore.keptSeq) = false
            ∧ ∃ pre last rl,
                Stringify.c_items SampleMore.keptSeq = pre ++ [last]
                ∧ SampleMore.stringify last
                    (Stringify.itemContext SampleMore.keptSeq SampleMore.sctx
                       (SampleMore.seqOptions true)) = inr rl
                ∧ Stringify.r_onChompKeep rl = true
                ∧ truthyStr (More.commentLeft last rl) = false).
Proof.
  eexists. split; [reflexivity|].
  apply (onChompKeep_called SampleMore.stringify Sample.addComment (λ s, [s])
           (λ s p, p +:+ s) 60 SampleMore.keptSeq SampleMore.sctx
           (SampleMore.seqOptions true)).
  reflexivity.
Defined.

Lemma block_seq_layout_witness :
  ∃ r, SampleMore.toString SampleMore.blockSeq false = inr r
       ∧ Stringify.r_str r = "- one" +:+ String "010" "- b #c".
Proof.
  destruct (block_seq_layout SampleMore.stringify Sample.addComment (λ s, [s])
              (λ s p, p +:+ s) 60 SampleMore.jsonStringify SampleMore.blockSeq
              SampleMore.sctx false false
              [Stringify.mkRendered "one" false false;
               Stringify.mkRendered "b" false false])
    as (r & Hr & Hstr).
  - reflexivity.
  - by repeat constructor.
  - by repeat constructor.
  - exists r. split; [exact Hr|]. rewrite Hstr. reflexivity.
Defined.

Lemma flow_item_strings_witness :
  ∃ r, Stringify.stringifyCollection SampleMore.stringify Sample.addComment (λ s, [s])
         (λ s p, p +:+ s) 60 SampleMore.flowSeq SampleMore.sctx
         (SampleMore.seqOptions false) = inr r
       ∧ Stringify.r_str r = "[ one, two ]".
Proof.
  destruct (flow_item_strings SampleMore.stringify Sample.addComment (λ s, [s])
              (λ s p, p +:+ s) 60 SampleMore.flowSeq SampleMore.sctx
              (SampleMore.seqOptions false)
              [Stringify.mkRendered "one" false false;
               Stringify.mkRendered "two" false false])
    as (r & Hr & Hstr).
  - reflexivity.
  - discriminate.
  - by repeat constructor.
  - by repeat constructor.
  - exists r. split; [exact Hr|]. rewrite Hstr. reflexivity.
Defined.
